(** * OpenRecords: ingestion and retrieval core

    A shallow embedding of the Python backend's chunker
    ([utils/chunking.py]), vector store ([utils/vectordb.py]), hybrid
    retriever ([utils/retrieval.py]), document ingestion task
    ([routers/documents.py]), embedding gateway ([utils/openrouter.py]),
    the retrieval steps of the query endpoint ([routers/rag.py]) and
    the reindexing task ([routers/records.py]), followed by the
    properties proved of them.

    Conventions of the embedding.
    - Python [int] is [Z].  The floats of the vector store and the
      scores made from them are values of [float]: an exact rational
      (no rounding), an infinity where float32 overflows, or NaN.  The
      keyword score and the terms of the rank fusion, which are sums
      and quotients of small numbers, and the embeddings as the
      gateway returns them are exact rationals ([Q]).  The square root
      inside [np.linalg.norm] is left to the [Numeric] interface.
    - Python [str] is [string] (a sequence of one-byte characters).
    - A Python exception is a value of [py_exception]; code that may raise
      returns an [outcome].
    - The [while] loop of [chunk_text] is run with explicit fuel. *)

From Stdlib Require Import List String Ascii ZArith QArith Qabs Qminmax Lia Bool.
From Stdlib Require Import Sorted Permutation Lqa.
Import ListNotations.

Local Open Scope Z_scope.

(* ================================================================== *)
(** * Part I: the model                                                *)
(* ================================================================== *)

(** ** Python values and built-ins *)

Module Py.

(** An exception object.  [Exc] is an instance of [Exception];
    [BaseExc] derives from [BaseException] only ([KeyboardInterrupt],
    [SystemExit], [asyncio.CancelledError], [GeneratorExit]). *)
Inductive py_exception : Type :=
| Exc (name : string) (msg : string)
| BaseExc (name : string) (msg : string).

(** [isinstance(e, Exception)] *)
Definition is_Exception (e : py_exception) : bool :=
  match e with Exc _ _ => true | BaseExc _ _ => false end.

(** [str(e)] *)
Definition str_of (e : py_exception) : string :=
  match e with Exc _ m => m | BaseExc _ m => m end.

(** The result of running a piece of code: a value, a raised exception,
    or no result at all (a loop that never ends). *)
Inductive outcome (A : Type) : Type :=
| Ok (a : A)
| Raise (e : py_exception)
| Diverge.
Arguments Ok {A} a.
Arguments Raise {A} e.
Arguments Diverge {A}.

Definition bind {A B} (m : outcome A) (k : A -> outcome B) : outcome B :=
  match m with
  | Ok a => k a
  | Raise e => Raise e
  | Diverge => Diverge
  end.

Definition IndexError : py_exception :=
  Exc "IndexError" "list index out of range".
Definition KeyError (k : string) : py_exception := Exc "KeyError" k.
Definition ZeroDivisionError : py_exception :=
  Exc "ZeroDivisionError" "division by zero".

(** [len(l)] *)
Definition len {A} (l : list A) : Z := Z.of_nat (List.length l).

(** A slice bound brought into [0, len]: a negative bound counts from
    the end. *)
Definition clamp_index (n i : Z) : Z :=
  if i <? 0 then Z.max 0 (i + n) else Z.min i n.

(** [l[start:stop]] *)
Definition slice {A} (l : list A) (start stop : Z) : list A :=
  let s := clamp_index (len l) start in
  let e := clamp_index (len l) stop in
  firstn (Z.to_nat (e - s)) (skipn (Z.to_nat s) l).

(** [l[:n]] *)
Definition take {A} (n : Z) (l : list A) : list A := slice l 0 n.

(** [l[i]] for [i >= 0] *)
Definition getitem {A} (l : list A) (i : nat) : outcome A :=
  match nth_error l i with
  | Some a => Ok a
  | None => Raise IndexError
  end.

(** Characters that [str.strip()] removes (the one-byte ones). *)
Definition is_space (c : ascii) : bool :=
  let n := Z.of_nat (nat_of_ascii c) in
  ((9 <=? n) && (n <=? 13)) || ((28 <=? n) && (n <=? 32)).

Fixpoint lstrip (s : string) : string :=
  match s with
  | EmptyString => EmptyString
  | String c s' => if is_space c then lstrip s' else s
  end.

Fixpoint rstrip (s : string) : string :=
  match s with
  | EmptyString => EmptyString
  | String c s' =>
      match rstrip s' with
      | EmptyString => if is_space c then EmptyString else String c EmptyString
      | r => String c r
      end
  end.

(** [s.strip()] *)
Definition strip (s : string) : string := lstrip (rstrip s).

(** Truth value of a string: [bool(s)] *)
Definition truthy (s : string) : bool :=
  match s with EmptyString => false | _ => true end.

(** [len(s)] and [s[a:b]] for [0 <= a <= b] *)
Definition slen (s : string) : nat := String.length s.
Definition ssub (s : string) (a b : nat) : string := substring a (b - a) s.

(** [s.lower()] on one-byte characters *)
Definition lower_ascii (c : ascii) : ascii :=
  let n := nat_of_ascii c in
  if ((65 <=? n) && (n <=? 90))%nat then ascii_of_nat (n + 32) else c.

Fixpoint lower (s : string) : string :=
  match s with
  | EmptyString => EmptyString
  | String c s' => String (lower_ascii c) (lower s')
  end.

(** [sep.join(l)] *)
Fixpoint join (sep : string) (l : list string) : string :=
  match l with
  | [] => EmptyString
  | [x] => x
  | x :: l' => (x ++ sep ++ join sep l')%string
  end.

(** Comparisons of floats. *)
Definition Qltb (a b : Q) : bool := negb (Qle_bool b a).
Definition Qeqb (a b : Q) : bool := Qeq_bool a b.

(** [max(a, b)] and [min(a, b)]: the first argument unless the second
    is strictly better. *)
Definition max_ (a b : Q) : Q := if Qltb a b then b else a.
Definition min_ (a b : Q) : Q := if Qltb b a then b else a.

Section Sort.
Context {A : Type}.
Variable key : A -> Q.

(** [l.sort(key=key)]: stable, ascending. *)
Fixpoint insert_asc (x : A) (l : list A) : list A :=
  match l with
  | [] => [x]
  | y :: l' => if Qle_bool (key x) (key y) then x :: l
               else y :: insert_asc x l'
  end.

Fixpoint sort_asc (l : list A) : list A :=
  match l with
  | [] => []
  | x :: l' => insert_asc x (sort_asc l')
  end.

(** [l.sort(key=key, reverse=True)]: stable, descending. *)
Fixpoint insert_desc (x : A) (l : list A) : list A :=
  match l with
  | [] => [x]
  | y :: l' => if Qle_bool (key y) (key x) then x :: l
               else y :: insert_desc x l'
  end.

Fixpoint sort_desc (l : list A) : list A :=
  match l with
  | [] => []
  | x :: l' => insert_desc x (sort_desc l')
  end.
End Sort.

(** A float of Python or NumPy: a number, an infinity, or
    not-a-number.  A number is read as an exact rational: there is no
    rounding, no underflow and no negative zero.  What is kept of
    float32 is its range: a float32 result beyond the largest float32
    is an infinity. *)
Inductive float : Type :=
| Num (q : Q)
| Inf (negative : bool)
| NaN.

Definition FLOAT32_MAX : Q :=
  inject_Z 340282346638528859811704183484516925440.

(** A real result as float32. *)
Definition float32 (q : Q) : float :=
  if Qltb FLOAT32_MAX (Qabs q) then Inf (Qltb q 0) else Num q.

(** [x < y], [x <= y] and [x == 0] on floats: a comparison with NaN is
    false. *)
Definition flt (x y : float) : bool :=
  match x, y with
  | Num a, Num b => Qltb a b
  | Num _, Inf s => negb s
  | Inf s, Num _ => s
  | Inf s, Inf t => s && negb t
  | _, _ => false
  end.

Definition fleb (x y : float) : bool :=
  match x, y with
  | Num a, Num b => Qle_bool a b
  | Num _, Inf s => negb s
  | Inf s, Num _ => s
  | Inf s, Inf t => s || negb t
  | _, _ => false
  end.

Definition fle (x y : float) : Prop := fleb x y = true.

(** Two floats that are one value; the fractions of numbers need not
    be in lowest terms. *)
Definition fsame (x y : float) : Prop :=
  match x, y with
  | Num a, Num b => a == b
  | Inf s, Inf t => s = t
  | NaN, NaN => True
  | _, _ => False
  end.

Definition is_nan (x : float) : bool :=
  match x with NaN => true | _ => false end.

Definition fzero (x : float) : bool :=
  match x with Num q => Qeqb q 0 | _ => false end.

(** Products, sums and quotients of float32 values.  Dividing by zero
    raises nothing: it gives an infinity or NaN. *)
Definition fmul32 (x y : float) : float :=
  match x, y with
  | Num a, Num b => float32 (a * b)
  | Num a, Inf s | Inf s, Num a =>
      if Qeqb a 0 then NaN else Inf (xorb s (Qltb a 0))
  | Inf s, Inf t => Inf (xorb s t)
  | _, _ => NaN
  end.

Definition fadd32 (x y : float) : float :=
  match x, y with
  | Num a, Num b => float32 (a + b)
  | Num _, Inf s | Inf s, Num _ => Inf s
  | Inf s, Inf t => if Bool.eqb s t then Inf s else NaN
  | _, _ => NaN
  end.

Definition fdiv32 (x y : float) : float :=
  match x, y with
  | Num a, Num b =>
      if Qeqb b 0 then (if Qeqb a 0 then NaN else Inf (Qltb a 0))
      else float32 (a / b)
  | Num _, Inf _ => Num 0
  | Inf s, Num b => Inf (xorb s (Qltb b 0))
  | _, _ => NaN
  end.

(** [x - y] and [max(x, y)] on Python floats.  [max] keeps its first
    argument unless the second is greater. *)
Definition fsub (x y : float) : float :=
  match x, y with
  | Num a, Num b => Num (a - b)
  | Num _, Inf s => Inf (negb s)
  | Inf s, Num _ => Inf s
  | Inf s, Inf t => if Bool.eqb s t then NaN else Inf s
  | _, _ => NaN
  end.

Definition fmax (x y : float) : float := if flt x y then y else x.

Section SortFloat.
Context {A : Type}.
Variable key : A -> float.

(** [l.sort(key=key)] on float keys.  The sort compares keys with [<]
    alone and is stable; a key that is NaN is less than no key and no
    key is less than it.  On keys without NaN every stable sort gives
    the list below.  With NaN among the keys the list that comes out
    depends on the order of the comparisons; the insertion below
    leaves a list alone in which no element is less than the one
    before it, as Python does with a list that is one ascending
    run. *)
Fixpoint insert_lt (x : A) (l : list A) : list A :=
  match l with
  | [] => [x]
  | y :: l' => if flt (key y) (key x) then y :: insert_lt x l'
               else x :: l
  end.

Fixpoint sort_lt (l : list A) : list A :=
  match l with
  | [] => []
  | x :: l' => insert_lt x (sort_lt l')
  end.

(** [l.sort(key=key, reverse=True)] on float keys. *)
Fixpoint insert_gt (x : A) (l : list A) : list A :=
  match l with
  | [] => [x]
  | y :: l' => if flt (key x) (key y) then y :: insert_gt x l'
               else x :: l
  end.

Fixpoint sort_gt (l : list A) : list A :=
  match l with
  | [] => []
  | x :: l' => insert_gt x (sort_gt l')
  end.
End SortFloat.

(** A [dict] with [str] keys, in insertion order. *)
Definition dict (V : Type) : Type := list (string * V).

Fixpoint dict_get {V} (k : string) (d : dict V) : option V :=
  match d with
  | [] => None
  | (k', v) :: d' => if String.eqb k k' then Some v else dict_get k d'
  end.

(** [d.get(k, default)] *)
Definition dict_get_or {V} (k : string) (d : dict V) (default : V) : V :=
  match dict_get k d with Some v => v | None => default end.

(** [d[k] = v]: an existing key keeps its place. *)
Fixpoint dict_set {V} (k : string) (v : V) (d : dict V) : dict V :=
  match d with
  | [] => [(k, v)]
  | (k', v') :: d' =>
      if String.eqb k k' then (k, v) :: d' else (k', v') :: dict_set k v d'
  end.

Definition dict_keys {V} (d : dict V) : list string := map fst d.

End Py.
Import Py.

Notation "x <- m ;; k" := (bind m (fun x => k))
  (at level 61, m at next level, right associativity).

(** ** utils/chunking.py *)

Module Chunking.

(** A token of the encoding. *)
Definition token : Type := Z.

(** The [tiktoken] encoding object [_enc].  [encode] is read as a
    function on all texts. *)
Class Encoding : Type := {
  encode : string -> list token;
  decode : list token -> string
}.

Definition DEFAULT_CHUNK_SIZE : Z := 500.
Definition DEFAULT_CHUNK_OVERLAP : Z := 50.

Record Chunk : Type := mkChunk {
  text : string;
  token_count : Z;
  page_number : option Z;
  section : option string;
  index : Z
}.

Section WithEncoding.
Context {enc : Encoding}.

Definition count_tokens (t : string) : Z := len (encode t).

(** The [while start < total_tokens] loop of [chunk_text]; [None]
    when the fuel runs out before the loop ends. *)
Fixpoint chunk_loop (fuel : nat) (tokens : list token)
    (chunk_size chunk_overlap : Z)
    (page : option Z) (sec : option string)
    (start idx : Z) (chunks : list Chunk) : option (list Chunk) :=
  match fuel with
  | O => None
  | S fuel' =>
      let total_tokens := len tokens in
      if start <? total_tokens then
        let end_ := Z.min (start + chunk_size) total_tokens in
        let chunk_tokens := slice tokens start end_ in
        let chunk_text_str := strip (decode chunk_tokens) in
        let chunks' :=
          if truthy chunk_text_str
          then chunks ++ [mkChunk chunk_text_str (len chunk_tokens) page sec idx]
          else chunks in
        let idx' := if truthy chunk_text_str then idx + 1 else idx in
        if end_ >=? total_tokens then Some chunks'
        else chunk_loop fuel' tokens chunk_size chunk_overlap page sec
               (end_ - chunk_overlap) idx' chunks'
      else Some chunks
  end.

Definition chunk_text_fuel (fuel : nat) (t : string)
    (chunk_size chunk_overlap : Z)
    (page : option Z) (sec : option string) : option (list Chunk) :=
  if negb (truthy t) || negb (truthy (strip t)) then Some []
  else
    let tokens := encode t in
    let total_tokens := len tokens in
    if total_tokens <=? chunk_size then
      Some [mkChunk (strip t) total_tokens page sec 0]
    else chunk_loop fuel tokens chunk_size chunk_overlap page sec 0 0 [].

(** [chunk_text]: one more round than there are tokens always settles
    whether the loop ends (see [chunk_text_adequate]). *)
Definition chunk_text (t : string) (chunk_size chunk_overlap : Z)
    (page : option Z) (sec : option string) : outcome (list Chunk) :=
  match chunk_text_fuel (S (List.length (encode t))) t
          chunk_size chunk_overlap page sec with
  | Some chunks => Ok chunks
  | None => Diverge
  end.

(** The inner [for c in page_chunks] of [chunk_pages]. *)
Fixpoint renumber (global_idx : Z) (page_chunks : list Chunk)
  : list Chunk * Z :=
  match page_chunks with
  | [] => ([], global_idx)
  | c :: rest =>
      let c' := mkChunk (text c) (token_count c) (page_number c)
                  (section c) global_idx in
      let '(rest', g) := renumber (global_idx + 1) rest in
      (c' :: rest', g)
  end.

Fixpoint chunk_pages_from (global_idx : Z) (pages : list (Z * string))
    (chunk_size chunk_overlap : Z) : outcome (list Chunk) :=
  match pages with
  | [] => Ok []
  | (page_num, t) :: pages' =>
      page_chunks <- chunk_text t chunk_size chunk_overlap (Some page_num) None ;;
      let '(cs, g) := renumber global_idx page_chunks in
      rest <- chunk_pages_from g pages' chunk_size chunk_overlap ;;
      Ok (cs ++ rest)
  end.

Definition chunk_pages (pages : list (Z * string))
    (chunk_size chunk_overlap : Z) : outcome (list Chunk) :=
  chunk_pages_from 0 pages chunk_size chunk_overlap.

(** The token windows [(start, end)] that the loop of [chunk_text]
    visits, in order: the loop with everything but its bounds left
    out. *)
Fixpoint windows (fuel : nat) (total_tokens chunk_size chunk_overlap : Z)
    (start : Z) : option (list (Z * Z)) :=
  match fuel with
  | O => None
  | S fuel' =>
      if start <? total_tokens then
        let end_ := Z.min (start + chunk_size) total_tokens in
        if end_ >=? total_tokens then Some [(start, end_)]
        else option_map (cons (start, end_))
               (windows fuel' total_tokens chunk_size chunk_overlap
                  (end_ - chunk_overlap))
      else Some []
  end.

(** The chunks that a list of windows gives, numbered from [idx]:
    a window whose decoded text is blank gives none. *)
Fixpoint chunks_of_windows (tokens : list token)
    (page : option Z) (sec : option string)
    (idx : Z) (ws : list (Z * Z)) : list Chunk :=
  match ws with
  | [] => []
  | (s, e) :: ws' =>
      let chunk_tokens := slice tokens s e in
      let str := strip (decode chunk_tokens) in
      if truthy str
      then mkChunk str (len chunk_tokens) page sec idx
           :: chunks_of_windows tokens page sec (idx + 1) ws'
      else chunks_of_windows tokens page sec idx ws'
  end.

(** A window whose decoded text is blank. *)
Definition blank_window (tokens : list token) (w : Z * Z) : bool :=
  negb (truthy (strip (decode (slice tokens (fst w) (snd w))))).

End WithEncoding.

(** Number of token positions two windows have in common. *)
Definition shared_tokens (w1 w2 : Z * Z) : Z :=
  Z.max 0 (Z.min (snd w1) (snd w2) - Z.max (fst w1) (fst w2)).

(** Every two neighbours in a list are related by [R]. *)
Fixpoint neighbours {A} (R : A -> A -> Prop) (l : list A) : Prop :=
  match l with
  | a :: ((b :: _) as l') => R a b /\ neighbours R l'
  | _ => True
  end.

(** [ceil(a / b)] for [b > 0] *)
Definition ceil_div (a b : Z) : Z := (a + b - 1) / b.

(** A line break. *)
Definition nl : string := String (ascii_of_nat 10) EmptyString.

(** A character-level encoding, for running the chunker on examples:
    one token per character. *)
Fixpoint char_encode (s : string) : list token :=
  match s with
  | EmptyString => []
  | String c s' => Z.of_nat (nat_of_ascii c) :: char_encode s'
  end.

Fixpoint char_decode (l : list token) : string :=
  match l with
  | [] => EmptyString
  | t :: l' => String (ascii_of_nat (Z.to_nat t)) (char_decode l')
  end.

Definition char_encoding : Encoding :=
  {| encode := char_encode; decode := char_decode |}.

End Chunking.

(** ** utils/vectordb.py *)

Module VectorDb.

Local Open Scope Q_scope.

(** What NumPy supplies beyond field arithmetic: the square root taken
    by [np.linalg.norm]. *)
Class Numeric : Type := { np_sqrt : Q -> Q }.

(** A JSON value of a metadata map. *)
Inductive json : Type :=
| JNull
| JInt (n : Z)
| JStr (s : string).

Definition metadata : Type := dict json.

(** A row of the table [vectors]; [id] is its primary key. *)
Record row : Type := mkRow {
  id : string;
  record_id : string;
  embedding : list Q;
  document : string;
  meta : metadata
}.

(** The table [vectors], in rowid order. *)
Definition store : Type := list row.

(** An element of the list [query_vectors] returns. *)
Record hit : Type := mkHit {
  hit_id : string;
  hit_distance : float;
  hit_document : string;
  hit_metadata : metadata
}.

(** [np.array(v, dtype=np.float32)], and an embedding read back from
    its blob. *)
Definition to_float32 (v : list Q) : list float := map float32 v.

(** [np.dot(a, b)] for two float32 vectors of one length.  NumPy
    fixes no order for the sum; here it is taken from the last product
    to the first. *)
Fixpoint dot (a b : list float) : float :=
  match a, b with
  | x :: a', y :: b' => fadd32 (fmul32 x y) (dot a' b')
  | _, _ => Num 0
  end.

(** Division of Python floats: dividing by zero is a fault. *)
Definition divide (x y : Q) : outcome Q :=
  if Qeqb y 0 then Raise ZeroDivisionError else Ok (x / y).

Section WithNumeric.
Context {num : Numeric}.

(** [np.sqrt] on a float32 *)
Definition fsqrt (x : float) : float :=
  match x with
  | Num q => if Qltb q 0 then NaN else Num (np_sqrt q)
  | Inf false => Inf false
  | _ => NaN
  end.

(** [np.linalg.norm(a)] *)
Definition norm (a : list float) : float := fsqrt (dot a a).

Definition _cosine_similarity (a b : list float) : float :=
  let min_len := Nat.min (List.length a) (List.length b) in
  if Nat.eqb min_len 0 then Num 0
  else
    let a := firstn min_len a in
    let b := firstn min_len b in
    let dot_ := dot a b in
    let norm_a := norm a in
    let norm_b := norm b in
    if fzero norm_a || fzero norm_b then Num 0
    else fdiv32 dot_ (fmul32 norm_a norm_b).

(** The body of the [for] loop of [query_vectors]. *)
Definition score_row (query_vec : list float) (r : row) : hit :=
  let emb := to_float32 (embedding r) in
  let sim := _cosine_similarity query_vec emb in
  let distance := fsub (Num 1) sim in
  mkHit (id r) distance (document r) (meta r).

Definition query_vectors (record : string) (query_embedding : list Q)
    (top_k : Z) (s : store) : outcome (list hit) :=
  let rows := filter (fun r => String.eqb (record_id r) record) s in
  match rows with
  | [] => Ok []
  | _ =>
      let query_vec := to_float32 query_embedding in
      let scored := map (score_row query_vec) rows in
      Ok (take top_k (sort_lt hit_distance scored))
  end.
End WithNumeric.

(** [INSERT OR REPLACE]: a row with the same primary key is deleted, the
    new row is appended. *)
Definition insert_or_replace (r : row) (s : store) : store :=
  filter (fun r' => negb (String.eqb (id r') (id r))) s ++ [r].

(** The [for i, vid in enumerate(ids)] loop of [add_vectors]. *)
Fixpoint add_loop (record : string) (i : nat) (ids : list string)
    (embeddings : list (list Q)) (documents : list string)
    (metas : list metadata) (s : store) : outcome unit * store :=
  match ids with
  | [] => (Ok tt, s)
  | vid :: ids' =>
      match getitem embeddings i with
      | Ok emb =>
          let doc := nth i documents EmptyString in
          match getitem metas i with
          | Ok m =>
              add_loop record (S i) ids' embeddings documents metas
                (insert_or_replace (mkRow vid record emb doc m) s)
          | Raise e => (Raise e, s)
          | Diverge => (Diverge, s)
          end
      | Raise e => (Raise e, s)
      | Diverge => (Diverge, s)
      end
  end.

(** [add_vectors]: the store it leaves and whether it raised.  Rows
    written before an [IndexError] stay in the connection. *)
Definition add_vectors (record : string) (ids : list string)
    (embeddings : list (list Q)) (documents : list string)
    (metadatas : option (list metadata)) (s : store)
  : outcome unit * store :=
  match ids with
  | [] => (Ok tt, s)
  | _ =>
      let metas :=
        match metadatas with
        | None | Some [] => repeat ([] : metadata) (List.length ids)
        | Some l => l
        end in
      add_loop record 0 ids embeddings documents metas s
  end.

Definition delete_collection (record : string) (s : store) : store :=
  filter (fun r => negb (String.eqb (record_id r) record)) s.

Definition collection_count (record : string) (s : store) : Z :=
  len (filter (fun r => String.eqb (record_id r) record) s).

(** The primary-key constraint of the table. *)
Definition unique_ids (s : store) : Prop := NoDup (map id s).

(** The rows of a store that belong to one collection. *)
Definition rows_of (record : string) (s : store) : list row :=
  filter (fun r => String.eqb (record_id r) record) s.

(** The stores that the operations of this module build from the empty
    table. *)
Inductive reachable : store -> Prop :=
| reach_empty : reachable []
| reach_add record ids embeddings documents metadatas s :
    reachable s ->
    reachable (snd (add_vectors record ids embeddings documents metadatas s))
| reach_delete record s :
    reachable s -> reachable (delete_collection record s).

(** The similarity of two embeddings as [query_vectors] computes it,
    and the hit a row gives. *)
Definition similarity {num : Numeric} (a b : list Q) : float :=
  _cosine_similarity (to_float32 a) (to_float32 b).

Definition hit_of {num : Numeric} (query_embedding : list Q) (r : row) : hit :=
  score_row (to_float32 query_embedding) r.

(** No row of the collection is at a distance from the query that is
    not a number. *)
Definition no_nan_distance {num : Numeric} (record : string)
    (query_embedding : list Q) (s : store) : Prop :=
  Forall (fun r => is_nan (hit_distance (hit_of query_embedding r)) = false)
    (rows_of record s).

(** The list [metas] that [add_vectors] reads: [metadatas or [{}] *
    len(ids)]. *)
Definition metas_for (metadatas : option (list metadata)) (n : nat)
  : list metadata :=
  match metadatas with
  | None | Some [] => repeat ([] : metadata) n
  | Some l => l
  end.

(** The rows that the loop of [add_vectors] writes for [ids], in order,
    the first of them from position [i] of the argument lists. *)
Fixpoint new_rows (record : string) (i : nat) (ids : list string)
    (embeddings : list (list Q)) (documents : list string)
    (metas : list metadata) : list row :=
  match ids with
  | [] => []
  | vid :: ids' =>
      mkRow vid record (nth i embeddings []) (nth i documents EmptyString)
        (nth i metas [])
      :: new_rows record (S i) ids' embeddings documents metas
  end.

(** A row as the hit it gives when its similarity to the query is 0. *)
Definition hit_at_distance_one (r : row) : hit :=
  mkHit (id r) (Num 1) (document r) (meta r).

(** A square root on rationals for running examples: the integer
    square root at 2^-16 precision. *)
Definition approx_sqrt (x : Q) : Q :=
  Z.sqrt (Qnum x * Z.pos (Qden x) * 4294967296)%Z # (Qden x * 65536)%positive.

Definition approx_numeric : Numeric := {| np_sqrt := approx_sqrt |}.

(** A store with two populated collections, for running examples. *)
Definition example_store : store :=
  [ mkRow "c1" "rec_1" [1; 0] "the quick brown fox" [];
    mkRow "c2" "rec_1" [0; 1] "jumps over lazy dog" [];
    mkRow "d1" "rec_2" [1; 1] "a chunk of another record" [] ].

(** A store for running the arithmetic out of range: the first row
    of [rec_9] holds 2^100, whose square is beyond float32. *)
Definition two_to_100 : Q := inject_Z (2 ^ 100).
Definition two_to_40 : Q := inject_Z (2 ^ 40).

Definition overflow_store : store :=
  [ mkRow "n1" "rec_9" [two_to_100; 0] "far out" [];
    mkRow "n2" "rec_9" [two_to_40; 0] "the same direction" [];
    mkRow "n3" "rec_9" [0; 1] "another direction" [] ].

End VectorDb.

(** ** utils/retrieval.py *)

Module Retrieval.

Local Open Scope Q_scope.

Definition RRF_K : Z := 60.

(** The keyword score comes out of sums and one quotient of small
    numbers: it is kept as a number.  The vector score and the final
    score are floats as the vector store gives them. *)
Record RetrievedChunk : Type := mkRetrievedChunk {
  chunk_id : string;
  document : string;
  metadata : VectorDb.metadata;
  vector_score : float;
  keyword_score : Q;
  rrf_score : float;
  match_highlights : list string
}.

(** Attribute assignments on a chunk object. *)
Definition set_keyword_info (c : RetrievedChunk) (score : Q)
    (highlights : list string) : RetrievedChunk :=
  mkRetrievedChunk (chunk_id c) (document c) (metadata c)
    (vector_score c) score (rrf_score c) highlights.

Definition set_rrf_score (c : RetrievedChunk) (rrf : float) : RetrievedChunk :=
  mkRetrievedChunk (chunk_id c) (document c) (metadata c)
    (vector_score c) (keyword_score c) rrf (match_highlights c).

(** The part of Python's [re] module the retriever uses.
    - [compile_word s]: the case-insensitive pattern matching the
      escaped [s] between word boundaries; [None] on [re.error].
    - [findall p t], [search p t]: the matches of [p] in [t], and the
      start and end of the first one.
    - [findall_quoted q]: the contents of the double-quoted parts of [q];
      [sub_quoted q]: [q] with each quoted part replaced by a space;
      [findall_words t]: the maximal runs of letters, digits,
      underscores, hyphens and dots of [t]. *)
Class Regex : Type := {
  pattern : Type;
  compile_word : string -> option pattern;
  findall : pattern -> string -> list string;
  search : pattern -> string -> option (nat * nat);
  findall_quoted : string -> list string;
  sub_quoted : string -> string;
  findall_words : string -> list string
}.

Definition _STOP_WORDS : list string :=
  [ "a"; "an"; "the"; "is"; "are"; "was"; "were"; "be"; "been"; "being";
    "have"; "has"; "had"; "do"; "does"; "did"; "will"; "would"; "shall";
    "should"; "may"; "might"; "can"; "could"; "about"; "above"; "after";
    "again"; "against"; "all"; "am"; "and"; "any"; "at"; "before"; "below";
    "between"; "both"; "but"; "by"; "down"; "during"; "each"; "few"; "for";
    "from"; "further"; "get"; "got"; "had"; "has"; "have"; "he"; "her";
    "here"; "hers"; "herself"; "him"; "himself"; "his"; "how"; "i"; "if";
    "in"; "into"; "it"; "its"; "itself"; "just"; "let"; "me"; "more";
    "most"; "my"; "myself"; "no"; "nor"; "not"; "now"; "of"; "off"; "on";
    "once"; "only"; "or"; "other"; "our"; "ours"; "ourselves"; "out";
    "over"; "own"; "same"; "she"; "so"; "some"; "still"; "such"; "than";
    "that"; "the"; "their"; "theirs"; "them"; "themselves"; "then";
    "there"; "these"; "they"; "this"; "those"; "through"; "to"; "too";
    "under"; "until"; "up"; "us"; "very"; "was"; "we"; "were"; "what";
    "when"; "where"; "which"; "while"; "who"; "whom"; "why"; "will";
    "with"; "you"; "your"; "yours"; "yourself"; "yourselves" ]%string.

Definition in_stop_words (w : string) : bool :=
  existsb (String.eqb w) _STOP_WORDS.

(** [vtk = vector_top_k or top_k * 3] *)
Definition vtk_of (top_k : Z) (vector_top_k : option Z) : Z :=
  match vector_top_k with
  | Some v => if (v =? 0)%Z then (top_k * 3)%Z else v
  | None => (top_k * 3)%Z
  end.

Section WithRegex.
Context {re : Regex}.

Definition _extract_query_terms (query : string)
  : list string * list string :=
  let exact_phrases := findall_quoted query in
  let remaining := sub_quoted query in
  let words := findall_words remaining in
  let keywords :=
    filter (fun w => negb (in_stop_words (lower w)) && (2 <? slen w)%nat)
      words in
  (exact_phrases, keywords).

(** One [for] loop of [_build_regex_patterns]: a pattern that fails to
    compile is skipped. *)
Definition compile_all (weight : Q) (words : list string)
  : list (pattern * Q) :=
  flat_map (fun w => match compile_word w with
                     | Some p => [(p, weight)]
                     | None => []
                     end) words.

Definition _build_regex_patterns (exact_phrases keywords : list string)
  : list (pattern * Q) :=
  compile_all 1 exact_phrases ++ compile_all (1 # 2) keywords.

(** The snippet around the first match of a pattern. *)
Definition snippet_of (t : string) (m : nat * nat) : string :=
  let start := (fst m - 40)%nat in
  let end_ := Nat.min (slen t) (snd m + 40) in
  let snippet := strip (ssub t start end_) in
  let snippet := if (0 <? start)%nat then ("…" ++ snippet)%string
                 else snippet in
  if (end_ <? slen t)%nat then (snippet ++ "…")%string else snippet.

(** The [for pat, weight in patterns] loop of [_score_chunk_regex],
    over the accumulators [(total, max_possible, highlights)]. *)
Fixpoint score_loop (t : string) (patterns : list (pattern * Q))
    (acc : Q * Q * list string) : Q * Q * list string :=
  match patterns with
  | [] => acc
  | (pat, weight) :: rest =>
      let '(total, max_possible, highlights) := acc in
      let max_possible := max_possible + weight * 3 in
      let matches := findall pat t in
      let count := Z.min (len matches) 3 in
      let total := total + weight * inject_Z count in
      let highlights :=
        match matches with
        | [] => highlights
        | _ => match search pat t with
               | Some m => highlights ++ [snippet_of t m]
               | None => highlights
               end
        end in
      score_loop t rest (total, max_possible, highlights)
  end.

Definition _score_chunk_regex (t : string) (patterns : list (pattern * Q))
  : Q * list string :=
  match patterns with
  | [] => (0, [])
  | _ =>
      let '(total, max_possible, highlights) :=
        score_loop t patterns (0, 0, []) in
      let score := if Qltb 0 max_possible then total / max_possible
                   else 0 in
      (min_ score 1, highlights)
  end.

(** The first loop of [_rrf_merge], over [(scores, chunk_map)].  The
    chunk map holds chunk values: a chunk object is only ever reached
    through the key that is its own [chunk_id]. *)
Fixpoint vector_pass (k rank : Z) (l : list RetrievedChunk)
    (scores : dict Q) (chunk_map : dict RetrievedChunk)
  : outcome (dict Q * dict RetrievedChunk) :=
  match l with
  | [] => Ok (scores, chunk_map)
  | chunk :: l' =>
      let cid := chunk_id chunk in
      term <- VectorDb.divide 1 (inject_Z (k + rank)) ;;
      let old := dict_get_or cid scores 0 in
      vector_pass k (rank + 1) l'
        (dict_set cid (old + term) scores) (dict_set cid chunk chunk_map)
  end.

(** The second loop of [_rrf_merge]. *)
Fixpoint keyword_pass (k rank : Z) (l : list RetrievedChunk)
    (scores : dict Q) (chunk_map : dict RetrievedChunk)
  : outcome (dict Q * dict RetrievedChunk) :=
  match l with
  | [] => Ok (scores, chunk_map)
  | chunk :: l' =>
      let cid := chunk_id chunk in
      term <- VectorDb.divide 1 (inject_Z (k + rank)) ;;
      let old := dict_get_or cid scores 0 in
      let chunk_map :=
        match dict_get cid chunk_map with
        | Some c =>
            dict_set cid
              (set_keyword_info c (keyword_score chunk)
                 (match_highlights chunk)) chunk_map
        | None => dict_set cid chunk chunk_map
        end in
      keyword_pass k (rank + 1) l' (dict_set cid (old + term) scores)
        chunk_map
  end.

(** The last loop of [_rrf_merge]: [chunk_map[cid]] raises [KeyError]
    on a missing key. *)
Fixpoint assign_scores (scores : dict Q) (chunk_map : dict RetrievedChunk)
  : outcome (list RetrievedChunk) :=
  match scores with
  | [] => Ok []
  | (cid, rrf) :: rest =>
      c <- match dict_get cid chunk_map with
           | Some c => Ok c
           | None => Raise (KeyError cid)
           end ;;
      cs <- assign_scores rest chunk_map ;;
      Ok (set_rrf_score c (Num rrf) :: cs)
  end.

Definition _rrf_merge (vector_ranked keyword_ranked : list RetrievedChunk)
    (k : Z) : outcome (list RetrievedChunk) :=
  st <- vector_pass k 1 vector_ranked [] [] ;;
  st <- keyword_pass k 1 keyword_ranked (fst st) (snd st) ;;
  result <- assign_scores (fst st) (snd st) ;;
  Ok (sort_gt rrf_score result).

(** What the two dictionaries of [_rrf_merge] keep true from one
    iteration to the next: the same keys in the same order, each once;
    under a key a chunk with that id (and with a property [P] of the
    chunks put in); only positive scores. *)
Definition merge_invariant (P : RetrievedChunk -> Prop)
    (scores : dict Q) (chunk_map : dict RetrievedChunk) : Prop :=
  dict_keys chunk_map = dict_keys scores /\
  NoDup (dict_keys scores) /\
  (forall cid c, In (cid, c) chunk_map -> chunk_id c = cid /\ P c) /\
  (forall cid v, In (cid, v) scores -> 0 < v).

(** Two chunks that show the same id, text and metadata. *)
Definition same_content (a b : RetrievedChunk) : Prop :=
  chunk_id a = chunk_id b /\ document a = document b
  /\ metadata a = metadata b.

Context {num : VectorDb.Numeric}.

(** The body of the [for hit in vector_hits] loop. *)
Definition chunk_of_hit
    (decrypted_chunks : dict (string * VectorDb.metadata))
    (h : VectorDb.hit) : RetrievedChunk :=
  let cid := VectorDb.hit_id h in
  let similarity := fmax (Num 0) (fsub (Num 1) (VectorDb.hit_distance h)) in
  let '(t, m) :=
    match dict_get cid decrypted_chunks with
    | Some tm => tm
    | None => (VectorDb.hit_document h, VectorDb.hit_metadata h)
    end in
  mkRetrievedChunk cid t m similarity 0 (Num 0) [].

(** Step 1 of [hybrid_retrieve]: the vector channel. *)
Definition vector_channel (s : VectorDb.store) (record : string)
    (query_embedding : list Q)
    (decrypted_chunks : dict (string * VectorDb.metadata)) (vtk : Z)
  : outcome (list RetrievedChunk) :=
  vector_hits <- VectorDb.query_vectors record query_embedding vtk s ;;
  Ok (map (chunk_of_hit decrypted_chunks) vector_hits).

(** The body of the [for cid, (text, meta) in decrypted_chunks.items()]
    loop: the chunk it appends, if any. *)
Definition scored_chunk (patterns : list (pattern * Q))
    (entry : string * (string * VectorDb.metadata)) : list RetrievedChunk :=
  let '(cid, (t, m)) := entry in
  let '(score, highlights) := _score_chunk_regex t patterns in
  if Qltb 0 score
  then [mkRetrievedChunk cid t m (Num 0) score (Num 0) highlights]
  else [].

(** Step 2 of [hybrid_retrieve]: the keyword channel. *)
Definition keyword_channel (query : string)
    (decrypted_chunks : dict (string * VectorDb.metadata)) (vtk : Z)
  : list RetrievedChunk :=
  let '(exact_phrases, keywords) := _extract_query_terms query in
  let patterns := _build_regex_patterns exact_phrases keywords in
  match patterns with
  | [] => []
  | _ =>
      let keyword_scored := flat_map (scored_chunk patterns) decrypted_chunks in
      take vtk (sort_desc keyword_score keyword_scored)
  end.

(** Step 3 of [hybrid_retrieve]: the fusion. *)
Definition fuse (vector_ranked keyword_ranked : list RetrievedChunk)
    (top_k : Z) : outcome (list RetrievedChunk) :=
  match keyword_ranked with
  | [] =>
      Ok (take top_k
            (map (fun c => set_rrf_score c (vector_score c)) vector_ranked))
  | _ =>
      match vector_ranked with
      | [] =>
          Ok (take top_k
                (map (fun c => set_rrf_score c (Num (keyword_score c)))
                   keyword_ranked))
      | _ =>
          merged <- _rrf_merge vector_ranked keyword_ranked RRF_K ;;
          Ok (take top_k merged)
      end
  end.

Definition hybrid_retrieve (s : VectorDb.store) (record query : string)
    (query_embedding : list Q)
    (decrypted_chunks : dict (string * VectorDb.metadata))
    (top_k : Z) (vector_top_k : option Z)
  : outcome (list RetrievedChunk) :=
  let vtk := vtk_of top_k vector_top_k in
  vector_ranked <-
    vector_channel s record query_embedding decrypted_chunks vtk ;;
  let keyword_ranked := keyword_channel query decrypted_chunks vtk in
  fuse vector_ranked keyword_ranked top_k.

(** Where the text and metadata of a chunk come from: the entry of the
    caller's dictionary under its id when there is one, else the
    document and metadata stored with a vector of the record. *)
Definition text_source (s : VectorDb.store) (record : string)
    (decrypted_chunks : dict (string * VectorDb.metadata))
    (c : RetrievedChunk) : Prop :=
  match dict_get (chunk_id c) decrypted_chunks with
  | Some tm => (document c, metadata c) = tm
  | None =>
      exists r, In r (VectorDb.rows_of record s) /\
                VectorDb.id r = chunk_id c /\
                VectorDb.document r = document c /\
                VectorDb.meta r = metadata c
  end.

End WithRegex.

(** The 1-based rank of the first chunk with a given id in a ranked
    list. *)
Fixpoint rank_from (rank : Z) (cid : string) (l : list RetrievedChunk)
  : option Z :=
  match l with
  | [] => None
  | c :: l' => if String.eqb (chunk_id c) cid then Some rank
               else rank_from (rank + 1)%Z cid l'
  end.

Definition rank_in (cid : string) (l : list RetrievedChunk) : option Z :=
  rank_from 1 cid l.

(** What one ranked list adds to the fused score of a chunk. *)
Definition rrf_term (cid : string) (l : list RetrievedChunk) : Q :=
  match rank_in cid l with
  | Some rank => 1 / inject_Z (RRF_K + rank)
  | None => 0
  end.

(** The first chunk with a given id in a ranked list. *)
Definition find_chunk (cid : string) (l : list RetrievedChunk)
  : option RetrievedChunk :=
  find (fun c => String.eqb (chunk_id c) cid) l.

(** [top_k] as the request model ([RagQueryRequest]) admits it. *)
Definition valid_top_k (top_k : Z) : bool :=
  ((1 <=? top_k) && (top_k <=? 20))%Z.

(** *** An implementation of [Regex] for one-byte text

    Enough of [re] to run the retriever on examples: the three fixed
    expressions of [_extract_query_terms], and literal patterns between
    word boundaries, compared without regard to case. *)

Definition quote : ascii := ascii_of_nat 34.

Definition is_word_char (c : ascii) : bool :=
  let n := nat_of_ascii c in
  (((48 <=? n) && (n <=? 57)) || ((65 <=? n) && (n <=? 90))
   || ((97 <=? n) && (n <=? 122)) || (n =? 95))%nat.

Definition is_term_char (c : ascii) : bool :=
  let n := nat_of_ascii c in
  (is_word_char c || (n =? 45) || (n =? 46))%nat.

(** The text before the first double quote and the text after it. *)
Fixpoint until_quote (s : string) : option (string * string) :=
  match s with
  | EmptyString => None
  | String c s' =>
      if Ascii.eqb c quote then Some (EmptyString, s')
      else match until_quote s' with
           | Some (a, b) => Some (String c a, b)
           | None => None
           end
  end.

Fixpoint quoted_parts (fuel : nat) (s : string) : list string :=
  match fuel with
  | O => []
  | S fuel' =>
      match until_quote s with
      | None => []
      | Some (_, rest) =>
          match until_quote rest with
          | None => []
          | Some (EmptyString, rest') =>
              quoted_parts fuel' (String quote rest')
          | Some (content, rest') => content :: quoted_parts fuel' rest'
          end
      end
  end.

Fixpoint blank_quoted (fuel : nat) (s : string) : string :=
  match fuel with
  | O => s
  | S fuel' =>
      match until_quote s with
      | None => s
      | Some (before, rest) =>
          match until_quote rest with
          | None => s
          | Some (_, rest') =>
              (before ++ " " ++ blank_quoted fuel' rest')%string
          end
      end
  end.

Fixpoint term_runs (s cur : string) : list string :=
  match s with
  | EmptyString => if truthy cur then [cur] else []
  | String c s' =>
      if is_term_char c then term_runs s' (cur ++ String c EmptyString)%string
      else (if truthy cur then [cur] else []) ++ term_runs s' EmptyString
  end.

(** The text left after a prefix equal to the pattern up to case. *)
Fixpoint after_prefix (p t : string) : option string :=
  match p, t with
  | EmptyString, _ => Some t
  | String a p', String b t' =>
      if Ascii.eqb (lower_ascii a) (lower_ascii b) then after_prefix p' t'
      else None
  | String _ _, EmptyString => None
  end.

Definition word_side (c : option ascii) : bool :=
  match c with Some c => is_word_char c | None => false end.

Definition head_char (s : string) : option ascii :=
  match s with String c _ => Some c | EmptyString => None end.

Fixpoint last_char (s : string) : option ascii :=
  match s with
  | EmptyString => None
  | String c EmptyString => Some c
  | String _ s' => last_char s'
  end.

(** A match of the pattern at the head of [t], the character before
    being [prev]: a word boundary on both sides. *)
Definition match_here (p : string) (prev : option ascii) (t : string)
  : option string :=
  if xorb (word_side prev) (word_side (head_char t)) then
    match after_prefix p t with
    | Some rest =>
        if xorb (word_side (last_char p)) (word_side (head_char rest))
        then Some rest else None
    | None => None
    end
  else None.

(** The matches from left to right, without overlap, as spans. *)
Fixpoint match_spans (fuel : nat) (p : string) (prev : option ascii)
    (pos : nat) (t : string) : list (nat * nat) :=
  match fuel with
  | O => []
  | S fuel' =>
      match p, match_here p prev t with
      | String _ _, Some rest =>
          (pos, pos + slen p)%nat
          :: match_spans fuel' p (last_char p) (pos + slen p) rest
      | _, _ =>
          match t with
          | EmptyString => []
          | String c t' => match_spans fuel' p (Some c) (S pos) t'
          end
      end
  end.

Definition spans (p t : string) : list (nat * nat) :=
  match_spans (S (slen t)) p None 0 t.

Definition ascii_regex : Regex := {|
  pattern := string;
  compile_word := fun w => Some w;
  findall := fun p t => map (fun m => ssub t (fst m) (snd m)) (spans p t);
  search := fun p t => hd_error (spans p t);
  findall_quoted := fun q => quoted_parts (S (slen q)) q;
  sub_quoted := fun q => blank_quoted (S (slen q)) q;
  findall_words := fun t => term_runs t EmptyString
|}.

(** The example of the specification: the chunks of record [rec_1] and
    the query made of the quoted phrase [quick] and the word [fox]. *)
Definition example_chunks : dict (string * VectorDb.metadata) :=
  [ ("c1", ("the quick brown fox", [])); ("c2", ("jumps over lazy dog", [])) ]%string.

Definition example_query : string :=
  (String quote "quick" ++ String quote " fox")%string.

(** The decrypted chunks of record [rec_9], whose first vector is out
    of the range of float32 once squared. *)
Definition overflow_chunks : dict (string * VectorDb.metadata) :=
  [ ("n1", ("far out", [])); ("n2", ("the same direction", []));
    ("n3", ("another direction", [])) ]%string.

End Retrieval.

(** ** routers/documents.py: the ingestion task *)

Module Documents.

(** A row of the table [documents] (the columns the task touches) and
    a row of the table [chunks]. *)
Record document_row : Type := mkDocument {
  doc_id : string;
  doc_status : string;
  doc_page_count : Z;
  doc_token_count : Z;
  doc_error_message : option string
}.

Record chunk_row : Type := mkChunkRow {
  row_id : string;
  row_document_id : string;
  row_encrypted_text : string;
  row_token_count : Z;
  row_chunk_index : Z;
  row_page_number : option Z;
  row_section : option string
}.

(** Everything the task reads and writes: the two tables of the main
    database, the vector store, the supply of fresh uuids, and, for each
    coming [with get_db_cursor()] block in turn, whether the database
    fails it and with which exception. *)
Record world : Type := mkWorld {
  documents : list document_row;
  chunks : list chunk_row;
  vectors : VectorDb.store;
  uuids : nat;
  db_faults : list (option py_exception)
}.

(** A computation over the world that may raise. *)
Definition M (A : Type) : Type := world -> outcome A * world.

Definition ret {A} (a : A) : M A := fun w => (Ok a, w).

Definition bindM {A B} (m : M A) (k : A -> M B) : M B :=
  fun w => match m w with
           | (Ok a, w') => k a w'
           | (Raise e, w') => (Raise e, w')
           | (Diverge, w') => (Diverge, w')
           end.

Definition lift {A} (o : outcome A) : M A := fun w => (o, w).

Notation "x <~ m ;; k" := (bindM m (fun x => k))
  (at level 61, m at next level, right associativity).

(** [try: body except Exception as e: handler(e)] *)
Definition try_except_Exception {A} (body : M A)
    (handler : py_exception -> M A) : M A :=
  fun w => match body w with
           | (Raise e, w') =>
               if is_Exception e then handler e w' else (Raise e, w')
           | r => r
           end.

Definition set_tables (docs : list document_row) (cs : list chunk_row)
    (w : world) : world :=
  mkWorld docs cs (vectors w) (uuids w) (db_faults w).

(** [with get_db_cursor() as cursor: body]: commit at the end; when the
    block raises, what it wrote is gone (rolled back, or dropped with
    the connection) and the exception goes on. *)
Definition with_db_cursor {A} (body : M A) : M A :=
  fun w =>
    let w0 := mkWorld (documents w) (chunks w) (vectors w) (uuids w)
                (tl (db_faults w)) in
    match db_faults w with
    | Some e :: _ => (Raise e, w0)
    | _ =>
        match body w0 with
        | (Raise e, w1) => (Raise e, set_tables (documents w0) (chunks w0) w1)
        | r => r
        end
    end.

(** [UPDATE documents SET ... WHERE id = ?] *)
Definition update_document (document_id : string)
    (f : document_row -> document_row) : M unit :=
  fun w =>
    (Ok tt,
     set_tables
       (map (fun d => if String.eqb (doc_id d) document_id then f d else d)
          (documents w))
       (chunks w) w).

(** [sqlite3.IntegrityError] *)
Definition IntegrityError (msg : string) : py_exception :=
  Exc "IntegrityError" msg.

(** [INSERT INTO chunks ...].  The table has [id] as its primary key,
    and [document_id] refers to a row of [documents] (foreign keys are
    switched on for every connection): an insert that breaks either
    raises and writes nothing. *)
Definition insert_chunk (r : chunk_row) : M unit :=
  fun w =>
    if existsb (fun c => String.eqb (row_id c) (row_id r)) (chunks w)
    then (Raise (IntegrityError "UNIQUE constraint failed: chunks.id"), w)
    else if existsb (fun d => String.eqb (doc_id d) (row_document_id r))
              (documents w)
    then (Ok tt, set_tables (documents w) (chunks w ++ [r]) w)
    else (Raise (IntegrityError "FOREIGN KEY constraint failed"), w).

(** [uuid.uuid4().hex] *)
Definition fresh_uuid (hex : nat -> string) : M string :=
  fun w => (Ok (hex (uuids w)),
            mkWorld (documents w) (chunks w) (vectors w) (S (uuids w))
              (db_faults w)).

(** [SET status = 'error', error_message = ?] *)
Definition with_error (error : string) (d : document_row) : document_row :=
  mkDocument (doc_id d) "error" (doc_page_count d) (doc_token_count d)
    (Some error).

Definition _set_document_error (document_id error : string) : M unit :=
  with_db_cursor (update_document document_id (with_error error)).

(** [s[:n]] for [n >= 0] *)
Definition prefix (n : nat) (s : string) : string := substring 0 n s.

(** The collaborators of the task: key unwrapping and chunk encryption
    (Fernet), text extraction, the embedding gateway, and the uuid
    generator. *)
Class Collaborators : Type := {
  decrypt_master_key : string -> outcome string;
  extract_text : string -> string -> outcome (list (Z * string));
  encrypt_text_with_user_key : string -> string -> outcome string;
  get_embeddings : list string -> outcome (list (list Q));
  uuid4_hex : nat -> string
}.

Definition newline : string := String (ascii_of_nat 10) EmptyString.

Definition or_zero (n : option Z) : Z :=
  match n with Some n => n | None => 0 end.

Definition or_empty (s : option string) : string :=
  match s with Some s => s | None => EmptyString end.

Section WithCollaborators.
Context {enc : Chunking.Encoding} {ext : Collaborators}.

(** Step 3 of [_process_document]: the [for chunk in chunks] loop,
    over the lists [chunk_ids] and [chunk_texts]. *)
Fixpoint store_chunks (user_key document_id : string)
    (cs : list Chunking.Chunk) (chunk_ids chunk_texts : list string)
  : M (list string * list string) :=
  match cs with
  | [] => ret (chunk_ids, chunk_texts)
  | chunk :: rest =>
      hex <~ fresh_uuid uuid4_hex ;;
      let chunk_id := ("chunk_" ++ hex)%string in
      encrypted_chunk <~
        lift (encrypt_text_with_user_key user_key (Chunking.text chunk)) ;;
      _ <~ insert_chunk
             (mkChunkRow chunk_id document_id encrypted_chunk
                (Chunking.token_count chunk) (Chunking.index chunk)
                (Chunking.page_number chunk) (Chunking.section chunk)) ;;
      store_chunks user_key document_id rest
        (chunk_ids ++ [chunk_id]) (chunk_texts ++ [Chunking.text chunk])
  end.

Definition chunk_metadata (document_id filename : string)
    (chunk : Chunking.Chunk) : VectorDb.metadata :=
  [ ("document_id", VectorDb.JStr document_id);
    ("filename", VectorDb.JStr filename);
    ("chunk_index", VectorDb.JInt (Chunking.index chunk));
    ("page_number", VectorDb.JInt (or_zero (Chunking.page_number chunk)));
    ("section", VectorDb.JStr (or_empty (Chunking.section chunk))) ]%string.

Definition add_vectors (record : string) (ids : list string)
    (embeddings : list (list Q)) (docs : list string)
    (metadatas : option (list VectorDb.metadata)) : M unit :=
  fun w =>
    let '(r, s) :=
      VectorDb.add_vectors record ids embeddings docs metadatas (vectors w) in
    (r, mkWorld (documents w) (chunks w) s (uuids w) (db_faults w)).

(** The [try] block of [_process_document]. *)
Definition process_steps
    (document_id record user_id raw_bytes extension filename
       encrypted_master_key : string) : M unit :=
  user_key <~ lift (decrypt_master_key encrypted_master_key) ;;
  pages <~ lift (extract_text raw_bytes extension) ;;
  match pages with
  | [] => _set_document_error document_id "No extractable text found in file"
  | _ =>
      let page_count := len pages in
      let full_text := join newline (map snd pages) in
      let total_tokens := Chunking.count_tokens full_text in
      cs <~ lift (Chunking.chunk_pages pages Chunking.DEFAULT_CHUNK_SIZE
                    Chunking.DEFAULT_CHUNK_OVERLAP) ;;
      match cs with
      | [] => _set_document_error document_id "Failed to create text chunks"
      | _ =>
          stored <~ with_db_cursor (store_chunks user_key document_id cs [] []) ;;
          let '(chunk_ids, chunk_texts) := stored in
          embeddings <~ lift (get_embeddings chunk_texts) ;;
          let metadatas := map (chunk_metadata document_id filename) cs in
          _ <~ add_vectors record chunk_ids embeddings chunk_texts
                 (Some metadatas) ;;
          with_db_cursor
            (update_document document_id
               (fun d => mkDocument (doc_id d) "indexed" page_count
                           total_tokens (doc_error_message d)))
      end
  end.

Definition _process_document
    (document_id record user_id raw_bytes extension filename
       encrypted_master_key : string) : M unit :=
  try_except_Exception
    (process_steps document_id record user_id raw_bytes extension filename
       encrypted_master_key)
    (fun e => _set_document_error document_id (prefix 500 (str_of e))).

(** The text that [encrypt_text_with_user_key] returns, where it
    returns. *)
Definition ciphertext_of (user_key t : string) : string :=
  match encrypt_text_with_user_key user_key t with
  | Ok e => e
  | _ => EmptyString
  end.

(** The rows that step 3 inserts for the chunks [cs], the first of
    them under the uuid number [n]. *)
Fixpoint chunk_rows_from (user_key document_id : string) (n : nat)
    (cs : list Chunking.Chunk) : list chunk_row :=
  match cs with
  | [] => []
  | chunk :: rest =>
      mkChunkRow ("chunk_" ++ uuid4_hex n)%string document_id
        (ciphertext_of user_key (Chunking.text chunk))
        (Chunking.token_count chunk) (Chunking.index chunk)
        (Chunking.page_number chunk) (Chunking.section chunk)
      :: chunk_rows_from user_key document_id (S n) rest
  end.
End WithCollaborators.

(** [SET status = 'indexed', page_count = ?, token_count = ?] *)
Definition as_indexed (page_count total_tokens : Z) (d : document_row)
  : document_row :=
  mkDocument (doc_id d) "indexed" page_count total_tokens
    (doc_error_message d).

(** [UPDATE documents SET ... WHERE id = ?] on the table. *)
Definition update_where (document_id : string)
    (f : document_row -> document_row) (docs : list document_row)
  : list document_row :=
  map (fun d => if String.eqb (doc_id d) document_id then f d else d) docs.

(** The row of a document, when the table has one. *)
Definition find_document (document_id : string) (w : world)
  : option document_row :=
  find (fun d => String.eqb (doc_id d) document_id) (documents w).

(** A computation that leaves the table [documents] as it is, whatever
    its result; and one that leaves it as it is when it raises. *)
Definition leaves_documents {A} (m : M A) : Prop :=
  forall w r w', m w = (r, w') -> documents w' = documents w.

Definition leaves_documents_on_raise {A} (m : M A) : Prop :=
  forall w e w', m w = (Raise e, w') -> documents w' = documents w.

(** Collaborators for running examples.  In the first the embedding
    gateway is cancelled while the task awaits it; in the second the
    extraction fails with an ordinary exception. *)
Definition CancelledError : py_exception := BaseExc "CancelledError" "".

Definition cancelled_gateway : Collaborators := {|
  decrypt_master_key := fun _ => Ok "key"%string;
  extract_text := fun _ _ => Ok [(1%Z, "hello world"%string)];
  encrypt_text_with_user_key := fun _ t => Ok ("enc:" ++ t)%string;
  get_embeddings := fun _ => Raise CancelledError;
  uuid4_hex := fun _ => "0"%string
|}.

Definition failing_extraction : Collaborators := {|
  decrypt_master_key := fun _ => Ok "key"%string;
  extract_text := fun _ _ => Raise (Exc "ValueError" "cannot open document");
  encrypt_text_with_user_key := fun _ t => Ok ("enc:" ++ t)%string;
  get_embeddings := fun ts => Ok (map (fun _ => [1%Q]) ts);
  uuid4_hex := fun _ => "0"%string
|}.

(** Further collaborators for running examples: all of them working,
    on a file of two pages; an encryption that fails on the second
    page; a gateway that fails with an ordinary exception; a file
    whose only page is blank. *)
Fixpoint tally_hex (n : nat) : string :=
  match n with
  | O => "0"
  | S n' => String "1" (tally_hex n')
  end.

Definition working_collaborators : Collaborators := {|
  decrypt_master_key := fun _ => Ok "key"%string;
  extract_text := fun _ _ =>
    Ok [(1%Z, "hello world"%string); (2%Z, "second page"%string)];
  encrypt_text_with_user_key := fun _ t => Ok ("enc:" ++ t)%string;
  get_embeddings := fun ts => Ok (map (fun _ => [1%Q]) ts);
  uuid4_hex := tally_hex
|}.

Definition failing_encryption : Collaborators := {|
  decrypt_master_key := fun _ => Ok "key"%string;
  extract_text := fun _ _ =>
    Ok [(1%Z, "hello world"%string); (2%Z, "second page"%string)];
  encrypt_text_with_user_key := fun _ t =>
    if String.eqb t "second page" then Raise (Exc "TypeError" "bad key")
    else Ok ("enc:" ++ t)%string;
  get_embeddings := fun ts => Ok (map (fun _ => [1%Q]) ts);
  uuid4_hex := tally_hex
|}.

Definition failing_gateway : Collaborators := {|
  decrypt_master_key := fun _ => Ok "key"%string;
  extract_text := fun _ _ =>
    Ok [(1%Z, "hello world"%string); (2%Z, "second page"%string)];
  encrypt_text_with_user_key := fun _ t => Ok ("enc:" ++ t)%string;
  get_embeddings := fun _ => Raise (Exc "ConnectError" "gateway unreachable");
  uuid4_hex := tally_hex
|}.

Definition blank_extraction : Collaborators := {|
  decrypt_master_key := fun _ => Ok "key"%string;
  extract_text := fun _ _ => Ok [(1%Z, "   "%string)];
  encrypt_text_with_user_key := fun _ t => Ok ("enc:" ++ t)%string;
  get_embeddings := fun ts => Ok (map (fun _ => [1%Q]) ts);
  uuid4_hex := tally_hex
|}.

(** One uploaded document, still in state [processing]; the database
    works, or is locked for the next block. *)
Definition example_world : world :=
  mkWorld [mkDocument "doc_1" "processing" 0 0 None] [] [] 0 [].

Definition locked_world : world :=
  mkWorld [mkDocument "doc_1" "processing" 0 0 None] [] [] 0
    [Some (Exc "OperationalError" "database is locked")].

End Documents.

(** ** utils/openrouter.py: the embedding gateway *)

Module Openrouter.

Local Open Scope Q_scope.

Definition EMBED_BATCH_SIZE : Z := 32.
Definition EMBED_DIMENSIONS : nat := 1024.

(** An element of the list under the key [data] of a response body,
    and a response: its status code and that list (empty when the body
    has no such key). *)
Record item : Type := mkItem {
  item_index : Z;
  item_embedding : list Q
}.

Record response : Type := mkResponse {
  status_code : Z;
  data : list item
}.

(** What the function reads from the outside: the configured API key
    and the answer to one POST of a batch to the embeddings endpoint.
    A request that fails in transport, or a body with status 200 that
    cannot be read, is an exception of the POST. *)
Class Gateway : Type := {
  openrouter_api_key : string;
  post_embeddings : list string -> outcome response
}.

(** [[0.0] * EMBED_DIMENSIONS] *)
Definition zero_vector : list Q := repeat 0 EMBED_DIMENSIONS.

(** [range(0, stop, step)] for [step > 0] *)
Definition range_by (stop step : Z) : list Z :=
  map (fun j => (step * Z.of_nat j)%Z)
    (seq 0 (Z.to_nat (Chunking.ceil_div stop step))).

Section WithGateway.
Context {gw : Gateway}.

(** The [for i in range(0, len(texts), EMBED_BATCH_SIZE)] loop, over
    the values of [i] still to come and the list [all_embeddings]. *)
Fixpoint embed_batches (texts : list string) (starts : list Z)
    (all_embeddings : list (list Q)) : outcome (list (list Q)) :=
  match starts with
  | [] => Ok all_embeddings
  | i :: rest =>
      let batch := slice texts i (i + EMBED_BATCH_SIZE)%Z in
      resp <- post_embeddings batch ;;
      if negb (status_code resp =? 200)%Z then
        embed_batches texts rest
          (all_embeddings ++ map (fun _ => zero_vector) batch)
      else
        embed_batches texts rest
          (all_embeddings
           ++ map item_embedding
                (sort_asc (fun x => inject_Z (item_index x)) (data resp)))
  end.

Definition get_embeddings (texts : list string) : outcome (list (list Q)) :=
  if negb (truthy openrouter_api_key)
  then Ok (map (fun _ => zero_vector) texts)
  else embed_batches texts (range_by (len texts) EMBED_BATCH_SIZE) [].
End WithGateway.

(** The batch that the loop sends in its round [j], counted from 0. *)
Definition batch_at (texts : list string) (j : nat) : list string :=
  slice texts (EMBED_BATCH_SIZE * Z.of_nat j)
    (EMBED_BATCH_SIZE * Z.of_nat j + EMBED_BATCH_SIZE)%Z.

(** What round [j] appends to [all_embeddings] when its POST
    returns. *)
Definition round_embeddings {gw : Gateway} (texts : list string) (j : nat)
  : list (list Q) :=
  match post_embeddings (batch_at texts j) with
  | Ok resp =>
      if negb (status_code resp =? 200)%Z
      then map (fun _ => zero_vector) (batch_at texts j)
      else map item_embedding
             (sort_asc (fun x => inject_Z (item_index x)) (data resp))
  | _ => []
  end.

(** Gateways for running examples: none configured; one that is down;
    one that answers every batch with one embedding per input, the
    last input first. *)
Definition no_gateway : Gateway := {|
  openrouter_api_key := "";
  post_embeddings := fun _ => Raise (Exc "ConnectError" "no gateway")
|}.

Definition gateway_down : Gateway := {|
  openrouter_api_key := "sk-test";
  post_embeddings := fun _ => Ok (mkResponse 503 [])
|}.

Definition numbered_items (batch : list string) : list item :=
  map (fun j => mkItem (Z.of_nat j) [inject_Z (Z.of_nat j)])
    (seq 0 (List.length batch)).

Definition gateway_up : Gateway := {|
  openrouter_api_key := "sk-test";
  post_embeddings := fun batch => Ok (mkResponse 200 (rev (numbered_items batch)))
|}.

End Openrouter.

(** ** routers/rag.py: from the chunks of a record to the hits *)

Module Rag.

(** A row of the join of [chunks] and [documents] that [query_rag]
    fetches: chunk id, encrypted text, page number, section, document
    id, file name. *)
Record fetched_chunk : Type := mkFetched {
  f_chunk_id : string;
  f_encrypted_text : string;
  f_page_number : option Z;
  f_section : option string;
  f_document_id : string;
  f_filename : string
}.

(** Decryption with the user's key (Fernet). *)
Class Decryption : Type := {
  decrypt_text_with_user_key : string -> string -> outcome string
}.

(** [filename or "unknown"] *)
Definition or_unknown (filename : string) : string :=
  if truthy filename then filename else "unknown"%string.

Definition json_of_int (n : option Z) : VectorDb.json :=
  match n with Some n => VectorDb.JInt n | None => VectorDb.JNull end.

Definition json_of_str (s : option string) : VectorDb.json :=
  match s with Some s => VectorDb.JStr s | None => VectorDb.JNull end.

Definition chunk_info (r : fetched_chunk) : VectorDb.metadata :=
  [ ("document_id", VectorDb.JStr (f_document_id r));
    ("filename", VectorDb.JStr (or_unknown (f_filename r)));
    ("page_number", json_of_int (f_page_number r));
    ("section", json_of_str (f_section r)) ]%string.

Section WithDecryption.
Context {dec : Decryption}.

(** Step 2 of [query_rag]: the loop over the fetched rows, over the
    dictionary [decrypted_chunks].  A row whose decryption raises an
    [Exception] is skipped. *)
Fixpoint decrypt_chunks (user_key : string) (chunk_rows : list fetched_chunk)
    (decrypted_chunks : dict (string * VectorDb.metadata))
  : outcome (dict (string * VectorDb.metadata)) :=
  match chunk_rows with
  | [] => Ok decrypted_chunks
  | r :: rest =>
      match decrypt_text_with_user_key user_key (f_encrypted_text r) with
      | Ok plain_text =>
          decrypt_chunks user_key rest
            (dict_set (f_chunk_id r) (plain_text, chunk_info r)
               decrypted_chunks)
      | Raise e =>
          if is_Exception e then decrypt_chunks user_key rest decrypted_chunks
          else Raise e
      | Diverge => Diverge
      end
  end.

(** How steps 2 and 3 of [query_rag] end: with the answer that the
    record has no documents, or with the hits of the retrieval (an
    empty list of hits gives the answer that no source is relevant). *)
Inductive retrieval : Type :=
| NoDocuments
| Hits (hits : list Retrieval.RetrievedChunk).

Context {re : Retrieval.Regex} {num : VectorDb.Numeric}.

Definition retrieve_hits (s : VectorDb.store) (record user_key : string)
    (chunk_rows : list fetched_chunk) (query_text : string)
    (query_embedding : list Q) (top_k : Z) : outcome retrieval :=
  decrypted_chunks <- decrypt_chunks user_key chunk_rows [] ;;
  match decrypted_chunks with
  | [] => Ok NoDocuments
  | _ =>
      hits <- Retrieval.hybrid_retrieve s record query_text query_embedding
                decrypted_chunks top_k None ;;
      Ok (Hits hits)
  end.
End WithDecryption.

(** [s.replace("\n", " ")] *)
Fixpoint replace_newlines (s : string) : string :=
  match s with
  | EmptyString => EmptyString
  | String c s' =>
      String (if Ascii.eqb c (ascii_of_nat 10) then " "%char else c)
        (replace_newlines s')
  end.

(** The snippet of a source in step 4 of [query_rag]:
    [hit.document[:500].strip().replace("\n", " ")]. *)
Definition snippet (document : string) : string :=
  replace_newlines (strip (Documents.prefix 500 document)).

(** Whether a character occurs in a text. *)
Fixpoint has_char (c : ascii) (s : string) : bool :=
  match s with
  | EmptyString => false
  | String d s' => Ascii.eqb d c || has_char c s'
  end.

(** A row that the loop of step 2 gets past: its decryption returns a
    text, or raises an instance of [Exception]. *)
Definition decrypts_or_skips {dec : Decryption} (user_key : string)
    (r : fetched_chunk) : Prop :=
  match decrypt_text_with_user_key user_key (f_encrypted_text r) with
  | Ok _ => True
  | Raise e => is_Exception e = true
  | Diverge => False
  end.

(** That a row decrypts under a key, to a given text. *)
Definition decrypts_to {dec : Decryption} (user_key : string)
    (r : fetched_chunk) (plain_text : string) : Prop :=
  decrypt_text_with_user_key user_key (f_encrypted_text r) = Ok plain_text.

(** A decryption for running examples: the ciphertext is the text
    after the prefix [enc:]; anything else is an invalid token. *)
Definition prefix_decryption : Decryption := {|
  decrypt_text_with_user_key := fun _ t =>
    if String.prefix "enc:" t
    then Ok (substring 4 (String.length t - 4) t)
    else Raise (Exc "InvalidToken" "")
|}.

Definition example_rows : list fetched_chunk :=
  [ mkFetched "c1" "enc:the quick brown fox" (Some 1%Z) None "doc_1" "a.pdf";
    mkFetched "c2" "garbled" (Some 1%Z) None "doc_1" "a.pdf" ]%string.

End Rag.

(** ** routers/records.py: rebuilding the vector index of a record *)

Module Records.

(** A row of the join of [chunks] and [documents] that the task
    fetches, in the order of [chunk_index]: chunk id, encrypted text,
    chunk index, page number, section, document id, file name. *)
Record joined_row : Type := mkJoined {
  j_chunk_id : string;
  j_encrypted_text : string;
  j_chunk_index : Z;
  j_page_number : option Z;
  j_section : option string;
  j_document_id : string;
  j_filename : string
}.

(** The collaborators of the task: key unwrapping and chunk decryption
    (Fernet), the embedding gateway, and the query on the main
    database. *)
Class Collaborators : Type := {
  decrypt_master_key : string -> outcome string;
  decrypt_text_with_user_key : string -> string -> outcome string;
  get_embeddings : list string -> outcome (list (list Q));
  fetch_chunks : string -> outcome (list joined_row)
}.

(** [n or 0] on an integer *)
Definition int_or_zero (n : Z) : Z := if (n =? 0)%Z then 0%Z else n.

Definition row_metadata (r : joined_row) : VectorDb.metadata :=
  [ ("document_id", VectorDb.JStr (j_document_id r));
    ("filename", VectorDb.JStr (Rag.or_unknown (j_filename r)));
    ("chunk_index", VectorDb.JInt (int_or_zero (j_chunk_index r)));
    ("page_number", VectorDb.JInt (Documents.or_zero (j_page_number r)));
    ("section", VectorDb.JStr (Documents.or_empty (j_section r))) ]%string.

Section WithCollaborators.
Context {ext : Collaborators}.

(** The [for row in rows] loop, over the lists [chunk_ids],
    [chunk_texts] and [metadatas].  A row whose decryption raises an
    [Exception] is skipped. *)
Fixpoint decrypt_rows (user_key : string) (rows : list joined_row)
    (chunk_ids chunk_texts : list string) (metadatas : list VectorDb.metadata)
  : outcome (list string * list string * list VectorDb.metadata) :=
  match rows with
  | [] => Ok (chunk_ids, chunk_texts, metadatas)
  | row :: rest =>
      match decrypt_text_with_user_key user_key (j_encrypted_text row) with
      | Ok plain =>
          decrypt_rows user_key rest (chunk_ids ++ [j_chunk_id row])
            (chunk_texts ++ [plain]) (metadatas ++ [row_metadata row])
      | Raise e =>
          if is_Exception e
          then decrypt_rows user_key rest chunk_ids chunk_texts metadatas
          else Raise e
      | Diverge => Diverge
      end
  end.

(** The [try] block of [_reindex_record_task], on the vector store. *)
Definition reindex_steps (record encrypted_master_key : string)
    (s : VectorDb.store) : outcome unit * VectorDb.store :=
  match decrypt_master_key encrypted_master_key with
  | Ok user_key =>
      let s := VectorDb.delete_collection record s in
      match fetch_chunks record with
      | Ok [] => (Ok tt, s)
      | Ok rows =>
          match decrypt_rows user_key rows [] [] [] with
          | Ok (chunk_ids, chunk_texts, metadatas) =>
              match get_embeddings chunk_texts with
              | Ok embeddings =>
                  VectorDb.add_vectors record chunk_ids embeddings
                    chunk_texts (Some metadatas) s
              | Raise e => (Raise e, s)
              | Diverge => (Diverge, s)
              end
          | Raise e => (Raise e, s)
          | Diverge => (Diverge, s)
          end
      | Raise e => (Raise e, s)
      | Diverge => (Diverge, s)
      end
  | Raise e => (Raise e, s)
  | Diverge => (Diverge, s)
  end.

(** [except Exception as e: logger.error(...)] *)
Definition _reindex_record_task (record encrypted_master_key : string)
    (s : VectorDb.store) : outcome unit * VectorDb.store :=
  match reindex_steps record encrypted_master_key s with
  | (Raise e, s') => if is_Exception e then (Ok tt, s') else (Raise e, s')
  | r => r
  end.

(** The rows that decrypt under a key, each with its text. *)
Definition decryptable (user_key : string) (rows : list joined_row)
  : list (joined_row * string) :=
  flat_map (fun row =>
              match decrypt_text_with_user_key user_key
                      (j_encrypted_text row) with
              | Ok plain => [(row, plain)]
              | _ => []
              end) rows.

(** A row that the loop gets past. *)
Definition decrypts_or_skips (user_key : string) (row : joined_row) : Prop :=
  match decrypt_text_with_user_key user_key (j_encrypted_text row) with
  | Ok _ => True
  | Raise e => is_Exception e = true
  | Diverge => False
  end.
End WithCollaborators.

(** Collaborators for running examples: two chunks of which the second
    does not decrypt; the gateway working, or failing. *)
Definition example_rows : list joined_row :=
  [ mkJoined "c1" "enc:the quick brown fox" 0 (Some 1%Z) None "doc_1" "a.pdf";
    mkJoined "c2" "garbled" 1 (Some 1%Z) None "doc_1" "a.pdf" ]%string.

Definition reindex_working : Collaborators := {|
  decrypt_master_key := fun _ => Ok "key"%string;
  decrypt_text_with_user_key :=
    Rag.decrypt_text_with_user_key (Decryption := Rag.prefix_decryption);
  get_embeddings := fun ts => Ok (map (fun _ => [1%Q; 0%Q]) ts);
  fetch_chunks := fun _ => Ok example_rows
|}.

Definition reindex_gateway_fails : Collaborators := {|
  decrypt_master_key := fun _ => Ok "key"%string;
  decrypt_text_with_user_key :=
    Rag.decrypt_text_with_user_key (Decryption := Rag.prefix_decryption);
  get_embeddings := fun _ => Raise (Exc "ConnectError" "gateway unreachable");
  fetch_chunks := fun _ => Ok example_rows
|}.

End Records.

(* ================================================================== *)
(** * Part II: properties                                              *)
(* ================================================================== *)

(** ** Slices, sorting and dictionaries *)

Module PyProps.

Lemma take_firstn {A} (k : Z) (l : list A) :
  take k l = firstn (Z.to_nat (clamp_index (len l) k)) l.
Proof.
  unfold take, slice.
  assert (H0 : clamp_index (len l) 0 = 0).
  { unfold clamp_index, len. simpl. lia. }
  rewrite H0, Z.sub_0_r. reflexivity.
Qed.

Lemma In_firstn {A} (n : nat) (l : list A) (x : A) :
  In x (firstn n l) -> In x l.
Proof.
  intros H. rewrite <- (firstn_skipn n l). apply in_or_app. now left.
Qed.

Lemma take_nil {A} (k : Z) : take k ([] : list A) = [].
Proof. rewrite take_firstn. apply firstn_nil. Qed.

Lemma take_In {A} (k : Z) (l : list A) (x : A) : In x (take k l) -> In x l.
Proof. rewrite take_firstn. apply In_firstn. Qed.

Lemma take_length {A} (k : Z) (l : list A) : 0 <= k -> len (take k l) <= k.
Proof.
  intros Hk. rewrite take_firstn. unfold len, clamp_index.
  rewrite length_firstn.
  destruct (k <? 0) eqn:E; [apply Z.ltb_lt in E; lia|]. lia.
Qed.

Lemma take_nonneg {A} (k : Z) (l : list A) :
  0 <= k -> take k l = firstn (Z.to_nat k) l.
Proof.
  intros Hk. rewrite take_firstn. unfold clamp_index, len.
  destruct (k <? 0) eqn:E; [apply Z.ltb_lt in E; lia|].
  destruct (Z.le_gt_cases k (Z.of_nat (List.length l))).
  - now rewrite Z.min_l by lia.
  - rewrite Z.min_r by lia. rewrite Nat2Z.id.
    rewrite !firstn_all2; [reflexivity | lia | lia].
Qed.

Lemma StronglySorted_firstn {A} (R : A -> A -> Prop) (l : list A) :
  StronglySorted R l -> forall n, StronglySorted R (firstn n l).
Proof.
  induction 1 as [|a l Hs IH Hall]; intros [|n]; simpl; try constructor.
  - apply IH.
  - rewrite Forall_forall in *. intros x Hx. apply Hall.
    now apply In_firstn in Hx.
Qed.

Lemma take_sorted {A} (R : A -> A -> Prop) (k : Z) (l : list A) :
  StronglySorted R l -> StronglySorted R (take k l).
Proof. intros H. rewrite take_firstn. now apply StronglySorted_firstn. Qed.

Lemma take_NoDup {A} (k : Z) (l : list A) : NoDup l -> NoDup (take k l).
Proof.
  intros H. rewrite take_firstn.
  rewrite <- (firstn_skipn (Z.to_nat (clamp_index (len l) k)) l) in H.
  now apply NoDup_app_remove_r in H.
Qed.

Lemma take_map {A B} (f : A -> B) (k : Z) (l : list A) :
  take k (map f l) = map f (take k l).
Proof.
  rewrite !take_firstn. unfold len. rewrite length_map. apply firstn_map.
Qed.

Lemma Qle_bool_false (a b : Q) : Qle_bool a b = false -> (b < a)%Q.
Proof.
  intros H. apply Qnot_le_lt. intros Hle.
  apply Qle_bool_iff in Hle. congruence.
Qed.

Lemma Qltb_true (a b : Q) : Qltb a b = true <-> (a < b)%Q.
Proof.
  unfold Qltb. rewrite negb_true_iff. split.
  - apply Qle_bool_false.
  - intros H. destruct (Qle_bool b a) eqn:E; [|reflexivity].
    apply Qle_bool_iff in E. exfalso. exact (Qlt_not_le _ _ H E).
Qed.

Lemma Qltb_false (a b : Q) : Qltb a b = false <-> (b <= a)%Q.
Proof.
  unfold Qltb. rewrite negb_false_iff. apply Qle_bool_iff.
Qed.

Section Sort.
Context {A : Type}.
Variable key : A -> Q.

Lemma insert_asc_perm x l : Permutation (insert_asc key x l) (x :: l).
Proof.
  induction l as [|y l IH]; simpl; [reflexivity|].
  destruct (Qle_bool (key x) (key y)); [reflexivity|].
  rewrite IH. apply perm_swap.
Qed.

Lemma sort_asc_perm l : Permutation (sort_asc key l) l.
Proof.
  induction l as [|x l IH]; simpl; [reflexivity|].
  rewrite insert_asc_perm. now constructor.
Qed.

Lemma insert_asc_sorted x l :
  StronglySorted (fun a b => key a <= key b)%Q l ->
  StronglySorted (fun a b => key a <= key b)%Q (insert_asc key x l).
Proof.
  induction 1 as [|y l Hs IH Hall]; simpl.
  - repeat constructor.
  - destruct (Qle_bool (key x) (key y)) eqn:E.
    + apply Qle_bool_iff in E. constructor; [now constructor|].
      constructor; [assumption|].
      rewrite Forall_forall in *. intros z Hz.
      apply Qle_trans with (key y); auto.
    + apply Qle_bool_false in E. constructor; [assumption|].
      rewrite Forall_forall in *. intros z Hz.
      apply (Permutation_in _ (insert_asc_perm x l)) in Hz.
      destruct Hz as [<-|Hz]; [now apply Qlt_le_weak | auto].
Qed.

Lemma sort_asc_sorted l :
  StronglySorted (fun a b => key a <= key b)%Q (sort_asc key l).
Proof.
  induction l as [|x l IH]; simpl; [constructor|].
  now apply insert_asc_sorted.
Qed.

Lemma insert_desc_perm x l : Permutation (insert_desc key x l) (x :: l).
Proof.
  induction l as [|y l IH]; simpl; [reflexivity|].
  destruct (Qle_bool (key y) (key x)); [reflexivity|].
  rewrite IH. apply perm_swap.
Qed.

Lemma sort_desc_perm l : Permutation (sort_desc key l) l.
Proof.
  induction l as [|x l IH]; simpl; [reflexivity|].
  rewrite insert_desc_perm. now constructor.
Qed.

Lemma insert_desc_sorted x l :
  StronglySorted (fun a b => key b <= key a)%Q l ->
  StronglySorted (fun a b => key b <= key a)%Q (insert_desc key x l).
Proof.
  induction 1 as [|y l Hs IH Hall]; simpl.
  - repeat constructor.
  - destruct (Qle_bool (key y) (key x)) eqn:E.
    + apply Qle_bool_iff in E. constructor; [now constructor|].
      constructor; [assumption|].
      rewrite Forall_forall in *. intros z Hz.
      apply Qle_trans with (key y); auto.
    + apply Qle_bool_false in E. constructor; [assumption|].
      rewrite Forall_forall in *. intros z Hz.
      apply (Permutation_in _ (insert_desc_perm x l)) in Hz.
      destruct Hz as [<-|Hz]; [now apply Qlt_le_weak | auto].
Qed.

Lemma sort_desc_sorted l :
  StronglySorted (fun a b => key b <= key a)%Q (sort_desc key l).
Proof.
  induction l as [|x l IH]; simpl; [constructor|].
  now apply insert_desc_sorted.
Qed.

Lemma sort_asc_In x l : In x (sort_asc key l) <-> In x l.
Proof.
  split; apply Permutation_in;
    [apply sort_asc_perm | symmetry; apply sort_asc_perm].
Qed.

Lemma sort_desc_In x l : In x (sort_desc key l) <-> In x l.
Proof.
  split; apply Permutation_in;
    [apply sort_desc_perm | symmetry; apply sort_desc_perm].
Qed.
End Sort.

Lemma StronglySorted_impl {A} (R R' : A -> A -> Prop) (l : list A) :
  (forall a b, R a b -> R' a b) ->
  StronglySorted R l -> StronglySorted R' l.
Proof.
  intros Himp. induction 1 as [|a l Hs IH Hall]; constructor; [assumption|].
  eapply Forall_impl; [|exact Hall]. intros b. apply Himp.
Qed.

Lemma StronglySorted_map {A B} (R : B -> B -> Prop) (f : A -> B) l :
  StronglySorted (fun a b => R (f a) (f b)) l ->
  StronglySorted R (map f l).
Proof.
  induction 1 as [|a l Hs IH Hall]; simpl; constructor; [assumption|].
  rewrite Forall_forall in *. intros y Hy.
  apply in_map_iff in Hy as (x & <- & Hx). auto.
Qed.

(** Dictionaries. *)

Lemma dict_get_set_same {V} k (v : V) d : dict_get k (dict_set k v d) = Some v.
Proof.
  induction d as [|[k' v'] d IH]; simpl.
  - now rewrite String.eqb_refl.
  - destruct (String.eqb k k') eqn:E; simpl.
    + now rewrite String.eqb_refl.
    + now rewrite E.
Qed.

Lemma dict_get_set_other {V} k k' (v : V) d :
  k <> k' -> dict_get k (dict_set k' v d) = dict_get k d.
Proof.
  intros Hne. induction d as [|[k2 v2] d IH]; simpl.
  - apply String.eqb_neq in Hne. now rewrite Hne.
  - destruct (String.eqb k' k2) eqn:E; simpl.
    + apply String.eqb_eq in E. subst k2.
      apply String.eqb_neq in Hne. now rewrite Hne.
    + destruct (String.eqb k k2); [reflexivity | exact IH].
Qed.

Lemma dict_keys_set {V} k (v : V) d :
  dict_keys (dict_set k v d)
  = if existsb (String.eqb k) (dict_keys d) then dict_keys d
    else dict_keys d ++ [k].
Proof.
  induction d as [|[k' v'] d IH]; simpl; [reflexivity|].
  destruct (String.eqb k k') eqn:E; simpl.
  - apply String.eqb_eq in E. now subst.
  - unfold dict_keys in *. rewrite IH.
    now destruct (existsb (String.eqb k) (map fst d)).
Qed.

Lemma existsb_eqb_In k (l : list string) :
  existsb (String.eqb k) l = true <-> In k l.
Proof.
  rewrite existsb_exists. split.
  - intros (x & Hx & E). apply String.eqb_eq in E. now subst.
  - intros H. exists k. split; [assumption | apply String.eqb_refl].
Qed.

Lemma dict_keys_set_NoDup {V} k (v : V) d :
  NoDup (dict_keys d) -> NoDup (dict_keys (dict_set k v d)).
Proof.
  intros H. rewrite dict_keys_set.
  destruct (existsb (String.eqb k) (dict_keys d)) eqn:E; [assumption|].
  apply NoDup_app; [assumption | repeat constructor; intros [] | ].
  intros x Hx [<-|[]].
  apply existsb_eqb_In in Hx. congruence.
Qed.

Lemma dict_keys_set_In {V} k k' (v : V) d :
  In k' (dict_keys (dict_set k v d)) <-> k' = k \/ In k' (dict_keys d).
Proof.
  rewrite dict_keys_set.
  destruct (existsb (String.eqb k) (dict_keys d)) eqn:E.
  - apply existsb_eqb_In in E. split; [auto|]. intros [->|]; auto.
  - rewrite in_app_iff. simpl. intuition.
Qed.

Lemma dict_get_In {V} k (v : V) d :
  NoDup (dict_keys d) -> In (k, v) d -> dict_get k d = Some v.
Proof.
  induction d as [|[k' v'] d IH]; simpl; intros Hnd Hin; [contradiction|].
  inversion Hnd as [|? ? Hnotin Hnd']; subst.
  destruct Hin as [E|Hin].
  - injection E as -> ->. now rewrite String.eqb_refl.
  - destruct (String.eqb k k') eqn:E.
    + apply String.eqb_eq in E. subst k'. exfalso. apply Hnotin.
      apply in_map_iff. now exists (k, v).
    + now apply IH.
Qed.

Lemma dict_get_Some_In {V} k (v : V) d :
  dict_get k d = Some v -> In (k, v) d.
Proof.
  induction d as [|[k' v'] d IH]; simpl; [discriminate|].
  destruct (String.eqb k k') eqn:E.
  - apply String.eqb_eq in E. subst. intros [= ->]. now left.
  - intros H. right. now apply IH.
Qed.

Lemma dict_get_None {V} k (d : dict V) :
  dict_get k d = None <-> ~ In k (dict_keys d).
Proof.
  induction d as [|[k' v'] d IH]; simpl; [tauto|].
  destruct (String.eqb k k') eqn:E.
  - apply String.eqb_eq in E. subst. split; [discriminate|]. tauto.
  - apply String.eqb_neq in E. rewrite IH. split; [|tauto].
    intros H [H'|H']; [congruence | tauto].
Qed.

(** Stripping. *)

Lemma rstrip_cons (c : ascii) (s : string) :
  rstrip (String c s)
  = match rstrip s with
    | EmptyString => if is_space c then EmptyString else String c EmptyString
    | String d r => String c (String d r)
    end.
Proof. reflexivity. Qed.

Lemma rstrip_idempotent (s : string) : rstrip (rstrip s) = rstrip s.
Proof.
  induction s as [|c s IH]; [reflexivity|].
  rewrite rstrip_cons. destruct (rstrip s) as [|d r] eqn:E.
  - destruct (is_space c) eqn:Ec; [reflexivity|].
    rewrite rstrip_cons. cbn [rstrip]. now rewrite Ec.
  - rewrite rstrip_cons, IH. reflexivity.
Qed.

Lemma rstrip_fixed_tail (c : ascii) (s : string) :
  rstrip (String c s) = String c s -> rstrip s = s.
Proof.
  rewrite rstrip_cons. destruct (rstrip s) as [|d r] eqn:E.
  - destruct (is_space c); [discriminate|]. congruence.
  - congruence.
Qed.

Lemma rstrip_lstrip (s : string) :
  rstrip s = s -> rstrip (lstrip s) = lstrip s.
Proof.
  induction s as [|c s IH]; [reflexivity|].
  intros H. cbn [lstrip]. destruct (is_space c); [|exact H].
  apply IH. exact (rstrip_fixed_tail c s H).
Qed.

Lemma lstrip_idempotent (s : string) : lstrip (lstrip s) = lstrip s.
Proof.
  induction s as [|c s IH]; [reflexivity|].
  cbn [lstrip]. destruct (is_space c) eqn:E; [exact IH|].
  cbn [lstrip]. now rewrite E.
Qed.

(** [s.strip().strip() == s.strip()] *)
Lemma strip_idempotent (s : string) : strip (strip s) = strip s.
Proof.
  unfold strip.
  rewrite (rstrip_lstrip (rstrip s) (rstrip_idempotent s)).
  apply lstrip_idempotent.
Qed.

(** The first character of a stripped text is no white space, nor is
    its last. *)
Lemma lstrip_head (s : string) :
  match lstrip s with
  | String c _ => is_space c = false
  | EmptyString => True
  end.
Proof.
  induction s as [|c s IH]; [exact I|].
  cbn [lstrip]. destruct (is_space c) eqn:E; [exact IH | exact E].
Qed.

Lemma slice_length {A} (l : list A) (s e : Z) :
  0 <= s <= e -> e <= len l -> len (slice l s e) = e - s.
Proof.
  intros Hs He. unfold slice, clamp_index, len in *.
  replace (s <? 0) with false by (symmetry; apply Z.ltb_ge; lia).
  replace (e <? 0) with false by (symmetry; apply Z.ltb_ge; lia).
  rewrite length_firstn, length_skipn. lia.
Qed.

Lemma StronglySorted_app_le {A} (R : A -> A -> Prop) (l1 l2 : list A) :
  StronglySorted R (l1 ++ l2) ->
  forall a b, In a l1 -> In b l2 -> R a b.
Proof.
  induction l1 as [|x l1 IH]; simpl; intros H a b Ha Hb; [contradiction|].
  inversion H as [|? ? Hs Hall]; subst.
  destruct Ha as [<-|Ha]; [|eauto].
  rewrite Forall_forall in Hall. apply Hall, in_or_app. now right.
Qed.

Lemma map_seq_from {A} (f : nat -> A) (n : nat) :
  forall a, map f (seq a n) = map (fun k => f (a + k)%nat) (seq 0 n).
Proof.
  induction n as [|n IH]; intros a; [reflexivity|].
  cbn [seq map]. f_equal; [f_equal; lia|].
  rewrite (IH (S a)), <- (seq_shift n 0), map_map.
  apply map_ext. intros k. f_equal. lia.
Qed.

Lemma dict_set_In {V} k (v : V) d k' v' :
  In (k', v') (dict_set k v d) -> (k' = k /\ v' = v) \/ In (k', v') d.
Proof.
  induction d as [|[k2 v2] d IH]; cbn [dict_set].
  - intros [[= <- <-]|[]]. now left.
  - destruct (String.eqb k k2).
    + intros [[= <- <-]|H]; [now left | right; now right].
    + intros [H|H]; [right; now left|].
      destruct (IH H) as [?|?]; [now left | right; now right].
Qed.

(** Floats. *)

Ltac float_cases :=
  cbn; intros;
  repeat match goal with s : bool |- _ => destruct s end;
  cbn in *; try discriminate; try reflexivity.

Lemma flt_fle (x y : float) : flt x y = true -> fle x y.
Proof.
  unfold fle. destruct x as [a|s|], y as [b|t|]; float_cases.
  match goal with H : Qltb _ _ = true |- _ => apply Qltb_true in H end.
  apply Qle_bool_iff. now apply Qlt_le_weak.
Qed.

Lemma not_flt_fle (x y : float) :
  is_nan x = false -> is_nan y = false -> flt y x = false -> fle x y.
Proof.
  unfold fle. destruct x as [a|s|], y as [b|t|]; float_cases.
  match goal with H : Qltb _ _ = false |- _ => apply Qltb_false in H end.
  now apply Qle_bool_iff.
Qed.

Lemma fle_not_nan (x y : float) :
  fle x y -> is_nan x = false /\ is_nan y = false.
Proof.
  unfold fle. destruct x as [a|s|], y as [b|t|]; float_cases; auto.
Qed.

Lemma fle_trans (x y z : float) : fle x y -> fle y z -> fle x z.
Proof.
  unfold fle.
  destruct x as [a|s|], y as [b|t|], z as [c|u|]; float_cases.
  match goal with
    H1 : Qle_bool _ _ = true, H2 : Qle_bool _ _ = true |- _ =>
      apply Qle_bool_iff in H1, H2
  end.
  apply Qle_bool_iff. eapply Qle_trans; eassumption.
Qed.

Lemma fle_Num (a b : Q) : fle (Num a) (Num b) <-> (a <= b)%Q.
Proof. unfold fle. cbn. apply Qle_bool_iff. Qed.

Lemma flt_Num (a b : Q) : flt (Num a) (Num b) = true <-> (a < b)%Q.
Proof. cbn. apply Qltb_true. Qed.

Section SortFloatProps.
Context {A : Type} (key : A -> float).

Lemma insert_lt_perm x l : Permutation (insert_lt key x l) (x :: l).
Proof.
  induction l as [|y l IH]; simpl; [reflexivity|].
  destruct (flt (key y) (key x)); [|reflexivity].
  rewrite IH. apply perm_swap.
Qed.

Lemma sort_lt_perm l : Permutation (sort_lt key l) l.
Proof.
  induction l as [|x l IH]; simpl; [reflexivity|].
  rewrite insert_lt_perm. now constructor.
Qed.

Lemma sort_lt_In x l : In x (sort_lt key l) <-> In x l.
Proof.
  split; apply Permutation_in;
    [apply sort_lt_perm | symmetry; apply sort_lt_perm].
Qed.

Lemma insert_gt_perm x l : Permutation (insert_gt key x l) (x :: l).
Proof.
  induction l as [|y l IH]; simpl; [reflexivity|].
  destruct (flt (key x) (key y)); [|reflexivity].
  rewrite IH. apply perm_swap.
Qed.

Lemma sort_gt_perm l : Permutation (sort_gt key l) l.
Proof.
  induction l as [|x l IH]; simpl; [reflexivity|].
  rewrite insert_gt_perm. now constructor.
Qed.

Lemma sort_gt_In x l : In x (sort_gt key l) <-> In x l.
Proof.
  split; apply Permutation_in;
    [apply sort_gt_perm | symmetry; apply sort_gt_perm].
Qed.

(** Without a NaN among the keys the sort puts them in order. *)
Lemma insert_lt_sorted x l :
  is_nan (key x) = false ->
  Forall (fun y => is_nan (key y) = false) l ->
  StronglySorted (fun a b => fle (key a) (key b)) l ->
  StronglySorted (fun a b => fle (key a) (key b)) (insert_lt key x l).
Proof.
  intros Hx Hl Hs. induction Hs as [|y l Hs IH Hall]; simpl.
  - repeat constructor.
  - inversion Hl as [|? ? Hy Hl']; subst.
    destruct (flt (key y) (key x)) eqn:E.
    + constructor; [now apply IH|].
      apply Forall_forall. intros z Hz.
      apply (Permutation_in _ (insert_lt_perm x l)) in Hz.
      destruct Hz as [<-|Hz]; [now apply flt_fle|].
      rewrite Forall_forall in Hall. now apply Hall.
    + assert (Hxy : fle (key x) (key y)) by now apply not_flt_fle.
      constructor; [now constructor|].
      constructor; [assumption|].
      rewrite Forall_forall in *. intros z Hz.
      eapply fle_trans; [exact Hxy | now apply Hall].
Qed.

Lemma sort_lt_sorted l :
  Forall (fun y => is_nan (key y) = false) l ->
  StronglySorted (fun a b => fle (key a) (key b)) (sort_lt key l).
Proof.
  induction l as [|x l IH]; intros H; simpl; [constructor|].
  inversion H as [|? ? Hx Hl]; subst.
  apply insert_lt_sorted; [assumption | | now apply IH].
  rewrite Forall_forall in *. intros y Hy. apply Hl. now apply sort_lt_In.
Qed.

Lemma insert_gt_sorted x l :
  is_nan (key x) = false ->
  Forall (fun y => is_nan (key y) = false) l ->
  StronglySorted (fun a b => fle (key b) (key a)) l ->
  StronglySorted (fun a b => fle (key b) (key a)) (insert_gt key x l).
Proof.
  intros Hx Hl Hs. induction Hs as [|y l Hs IH Hall]; simpl.
  - repeat constructor.
  - inversion Hl as [|? ? Hy Hl']; subst.
    destruct (flt (key x) (key y)) eqn:E.
    + constructor; [now apply IH|].
      apply Forall_forall. intros z Hz.
      apply (Permutation_in _ (insert_gt_perm x l)) in Hz.
      destruct Hz as [<-|Hz]; [now apply flt_fle|].
      rewrite Forall_forall in Hall. now apply Hall.
    + assert (Hxy : fle (key y) (key x)) by now apply not_flt_fle.
      constructor; [now constructor|].
      constructor; [assumption|].
      rewrite Forall_forall in *. intros z Hz.
      eapply fle_trans; [now apply Hall | exact Hxy].
Qed.

Lemma sort_gt_sorted l :
  Forall (fun y => is_nan (key y) = false) l ->
  StronglySorted (fun a b => fle (key b) (key a)) (sort_gt key l).
Proof.
  induction l as [|x l IH]; intros H; simpl; [constructor|].
  inversion H as [|? ? Hx Hl]; subst.
  apply insert_gt_sorted; [assumption | | now apply IH].
  rewrite Forall_forall in *. intros y Hy. apply Hl. now apply sort_gt_In.
Qed.

(** Keys of which none is less than another are left as they are. *)
Lemma sort_lt_unordered l :
  (forall a b, In a l -> In b l -> flt (key a) (key b) = false) ->
  sort_lt key l = l.
Proof.
  induction l as [|x l IH]; intros H; [reflexivity|].
  cbn [sort_lt]. rewrite IH by (intros; apply H; now right).
  destruct l as [|y l]; [reflexivity|]. cbn [insert_lt].
  now rewrite (H y x) by (simpl; auto).
Qed.
End SortFloatProps.

End PyProps.
(** ** The chunker *)

Module ChunkingProps.
Import Chunking.

Lemma truthy_false_iff (s : string) : truthy s = false <-> s = EmptyString.
Proof. destruct s; simpl; split; congruence. Qed.

Lemma strip_empty : strip EmptyString = EmptyString.
Proof. reflexivity. Qed.

Section WithEncoding.
Context {enc : Encoding}.

(** The loop is its sequence of windows, each turned into a chunk. *)
Lemma chunk_loop_windows fuel tokens cs ov pg sec :
  forall start idx acc,
    chunk_loop fuel tokens cs ov pg sec start idx acc
    = option_map (fun ws => acc ++ chunks_of_windows tokens pg sec idx ws)
        (windows fuel (len tokens) cs ov start).
Proof.
  induction fuel as [|fuel IH]; intros start idx acc; simpl; [reflexivity|].
  destruct (start <? len tokens); simpl; [|now rewrite app_nil_r].
  set (e := Z.min (start + cs) (len tokens)).
  destruct (e >=? len tokens); simpl.
  - destruct (truthy _); simpl; [reflexivity | now rewrite app_nil_r].
  - rewrite IH.
    destruct (windows fuel (len tokens) cs ov (e - ov)) as [ws|]; simpl;
      [|reflexivity].
    destruct (truthy _); simpl; [|reflexivity].
    now rewrite <- app_assoc.
Qed.
End WithEncoding.

(** More fuel does not change a result. *)
Lemma windows_more_fuel N cs ov :
  forall fuel start ws,
    windows fuel N cs ov start = Some ws ->
    forall fuel', (fuel <= fuel')%nat -> windows fuel' N cs ov start = Some ws.
Proof.
  induction fuel as [|fuel IH]; intros start ws H fuel' Hle; [discriminate|].
  destruct fuel' as [|fuel']; [lia|].
  simpl in *.
  destruct (start <? N); [|assumption].
  destruct (Z.min (start + cs) N >=? N); [assumption|].
  destruct (windows fuel N cs ov (Z.min (start + cs) N - ov)) as [ws'|] eqn:E;
    [|discriminate].
  rewrite (IH _ _ E fuel') by lia. assumption.
Qed.

(** With [overlap < chunk_size] the start of the window moves forward,
    so the loop ends within [N - start + 1] rounds. *)
Lemma windows_terminate N cs ov :
  ov < cs ->
  forall fuel start,
    (Z.to_nat (N - start) < fuel)%nat ->
    exists ws, windows fuel N cs ov start = Some ws.
Proof.
  intros Hov.
  induction fuel as [|fuel IH]; intros start Hfuel; [lia|].
  simpl.
  destruct (start <? N) eqn:Hs; [|now eexists].
  apply Z.ltb_lt in Hs.
  destruct (Z.min (start + cs) N >=? N) eqn:He; [now eexists|].
  rewrite Z.geb_leb in He. apply Z.leb_gt in He.
  destruct (IH (Z.min (start + cs) N - ov)) as [ws Hws]; [lia|].
  rewrite Hws. now eexists.
Qed.

(** With [overlap >= chunk_size] and more tokens than [chunk_size],
    the start of the window never passes 0: no amount of fuel is
    enough. *)
Lemma windows_diverge N cs ov :
  cs <= ov -> cs < N -> 0 < N ->
  forall fuel start, start <= 0 -> windows fuel N cs ov start = None.
Proof.
  intros Hov HN HN0.
  induction fuel as [|fuel IH]; intros start Hs; [reflexivity|].
  simpl.
  replace (start <? N) with true by (symmetry; apply Z.ltb_lt; lia).
  replace (Z.min (start + cs) N >=? N) with false
    by (symmetry; rewrite Z.geb_leb; apply Z.leb_gt; lia).
  rewrite IH by lia. reflexivity.
Qed.

Lemma ceil_div_one a d : 0 < a <= d -> ceil_div a d = 1.
Proof.
  intros H. unfold ceil_div.
  symmetry. apply (Z.div_unique_pos _ _ 1 (a - 1)); lia.
Qed.

Lemma ceil_div_step a d : 0 < d -> ceil_div (a + d) d = ceil_div a d + 1.
Proof.
  intros H. unfold ceil_div.
  replace (a + d + d - 1) with (a + d - 1 + 1 * d) by lia.
  now rewrite Z.div_add by lia.
Qed.

(** The number of windows from [start] on. *)
Lemma windows_count N cs ov :
  0 <= ov < cs ->
  forall fuel start ws,
    windows fuel N cs ov start = Some ws ->
    start < N -> 0 < N - start - ov ->
    len ws = ceil_div (N - start - ov) (cs - ov).
Proof.
  intros Hov.
  induction fuel as [|fuel IH]; intros start ws H Hs Hpos; [discriminate|].
  simpl in H.
  replace (start <? N) with true in H by (symmetry; apply Z.ltb_lt; lia).
  destruct (Z.min (start + cs) N >=? N) eqn:He.
  - injection H as <-. rewrite Z.geb_leb in He. apply Z.leb_le in He.
    rewrite ceil_div_one by lia. reflexivity.
  - rewrite Z.geb_leb in He. apply Z.leb_gt in He.
    replace (Z.min (start + cs) N) with (start + cs) in H by lia.
    destruct (windows fuel N cs ov (start + cs - ov)) as [ws'|] eqn:E;
      [|discriminate].
    injection H as <-.
    apply IH in E; [|lia|lia].
    unfold len in *. simpl List.length. rewrite Nat2Z.inj_succ, E.
    replace (N - start - ov) with (N - (start + cs - ov) - ov + (cs - ov))
      by lia.
    rewrite ceil_div_step by lia. lia.
Qed.

(** The first window of a run starts where the run starts. *)
Lemma windows_head N cs ov fuel start w ws :
  windows fuel N cs ov start = Some (w :: ws) ->
  w = (start, Z.min (start + cs) N).
Proof.
  destruct fuel as [|fuel]; [discriminate|]. simpl.
  destruct (start <? N); [|discriminate].
  destruct (Z.min (start + cs) N >=? N); [congruence|].
  destruct (windows fuel N cs ov _); simpl; congruence.
Qed.

(** Two windows in a row have exactly [overlap] token positions in
    common. *)
Lemma windows_neighbours N cs ov :
  0 <= ov < cs ->
  forall fuel start ws,
    windows fuel N cs ov start = Some ws ->
    neighbours (fun w1 w2 => shared_tokens w1 w2 = ov) ws.
Proof.
  intros Hov.
  induction fuel as [|fuel IH]; intros start ws H; [discriminate|].
  simpl in H.
  destruct (start <? N) eqn:Hs; [|injection H as <-; exact I].
  destruct (Z.min (start + cs) N >=? N) eqn:He; [injection H as <-; exact I|].
  rewrite Z.geb_leb in He. apply Z.leb_gt in He.
  destruct (windows fuel N cs ov (Z.min (start + cs) N - ov)) as [ws'|] eqn:E;
    [|discriminate].
  injection H as <-.
  destruct ws' as [|w2 ws']; [exact I|].
  split; [|exact (IH _ _ E)].
  apply windows_head in E. subst w2.
  unfold shared_tokens; simpl. lia.
Qed.

(** Every window lies inside the token list and is not empty. *)
Lemma windows_bounds N cs ov :
  0 <= ov < cs ->
  forall fuel start ws,
    windows fuel N cs ov start = Some ws -> 0 <= start ->
    Forall (fun w => 0 <= fst w < snd w /\ snd w <= N) ws.
Proof.
  intros Hov.
  induction fuel as [|fuel IH]; intros start ws H Hs0; [discriminate|].
  simpl in H.
  destruct (start <? N) eqn:Hs; [|injection H as <-; constructor].
  apply Z.ltb_lt in Hs.
  destruct (Z.min (start + cs) N >=? N) eqn:He.
  - injection H as <-. constructor; [simpl; lia|constructor].
  - rewrite Z.geb_leb in He. apply Z.leb_gt in He.
    destruct (windows fuel N cs ov (Z.min (start + cs) N - ov)) as [ws'|] eqn:E;
      [|discriminate].
    injection H as <-. constructor; [simpl; lia|].
    apply (IH _ _ E). lia.
Qed.

Section WithEncoding2.
Context {enc : Encoding}.

(** When no window is blank, every window gives a chunk. *)
Lemma chunks_of_windows_length tokens pg sec :
  forall ws idx,
    existsb (blank_window tokens) ws = false ->
    len (chunks_of_windows tokens pg sec idx ws) = len ws.
Proof.
  induction ws as [|[s e] ws IH]; intros idx H; [reflexivity|].
  simpl in H. apply orb_false_elim in H as [Hb Hrest].
  unfold blank_window in Hb. simpl in Hb. apply negb_false_iff in Hb.
  simpl. rewrite Hb. unfold len in *. simpl List.length.
  rewrite !Nat2Z.inj_succ. now rewrite IH.
Qed.

(** A blank window gives no chunk: with one among the windows there
    are fewer chunks than windows, whatever the encoding. *)
Lemma chunks_of_windows_lt tokens pg sec :
  forall ws idx,
    existsb (blank_window tokens) ws = true ->
    len (chunks_of_windows tokens pg sec idx ws) < len ws.
Proof.
  assert (Hle : forall ws idx,
             len (chunks_of_windows tokens pg sec idx ws) <= len ws).
  { induction ws as [|[s e] ws IH]; intros idx; [reflexivity|].
    simpl. destruct (truthy _).
    - pose proof (IH (idx + 1)) as H. unfold len in *. simpl List.length. lia.
    - pose proof (IH idx) as H. unfold len in *. simpl List.length. lia. }
  induction ws as [|[s e] ws IH]; intros idx H; [discriminate|].
  simpl in H. unfold blank_window in H at 1. simpl in H. simpl.
  destruct (truthy (strip (decode (slice tokens s e)))) eqn:E; simpl in H.
  - pose proof (IH (idx + 1) H) as H'. unfold len in *. simpl List.length. lia.
  - pose proof (Hle ws idx) as H'. unfold len in *. simpl List.length. lia.
Qed.

(** Blank windows give no chunk: there are never more chunks than
    windows. *)
Lemma chunks_of_windows_le tokens pg sec :
  forall ws idx,
    len (chunks_of_windows tokens pg sec idx ws) <= len ws.
Proof.
  induction ws as [|[s e] ws IH]; intros idx; [reflexivity|].
  simpl. destruct (truthy _).
  - pose proof (IH (idx + 1)) as H. unfold len in *. simpl List.length. lia.
  - pose proof (IH idx) as H. unfold len in *. simpl List.length. lia.
Qed.
End WithEncoding2.

Section Claims.
Context {enc : Encoding}.

Lemma strip_truthy (t : string) :
  truthy (strip t) = true -> truthy t = true.
Proof. destruct t; [discriminate | reflexivity]. Qed.

(** With [overlap >= chunk_size], a text that is not blank and has
    more tokens than [chunk_size] keeps [chunk_text] in its loop for
    ever. *)
Lemma chunk_text_diverges t cs ov pg sec :
  truthy (strip t) = true ->
  cs <= ov -> cs < len (encode t) ->  0 < len (encode t) ->
  chunk_text t cs ov pg sec = Diverge /\
  forall fuel, chunk_text_fuel fuel t cs ov pg sec = None.
Proof.
  intros Hne Hov HN HN0.
  assert (Hall : forall fuel, chunk_text_fuel fuel t cs ov pg sec = None).
  { intros fuel. unfold chunk_text_fuel.
    rewrite Hne, (strip_truthy _ Hne). simpl.
    replace (len (encode t) <=? cs) with false
      by (symmetry; apply Z.leb_gt; lia).
    rewrite chunk_loop_windows, windows_diverge by lia. reflexivity. }
  split; [|exact Hall].
  unfold chunk_text. now rewrite Hall.
Qed.

(** With [overlap < chunk_size], one round more than the text has
    tokens is enough for the loop, and more fuel gives the same chunks. *)
Lemma chunk_text_fuel_enough t cs ov pg sec :
  ov < cs ->
  exists chunks,
    chunk_text t cs ov pg sec = Ok chunks /\
    forall fuel, (List.length (encode t) < fuel)%nat ->
                 chunk_text_fuel fuel t cs ov pg sec = Some chunks.
Proof.
  intros Hov.
  assert (H : exists chunks, forall fuel,
               (List.length (encode t) < fuel)%nat ->
               chunk_text_fuel fuel t cs ov pg sec = Some chunks).
  { unfold chunk_text_fuel.
    destruct (negb (truthy t) || negb (truthy (strip t))); [now eexists|].
    destruct (len (encode t) <=? cs); [now eexists|].
    destruct (windows_terminate (len (encode t)) cs ov Hov
                (S (List.length (encode t))) 0) as [ws Hws].
    { unfold len. lia. }
    exists ([] ++ chunks_of_windows (encode t) pg sec 0 ws).
    intros fuel Hfuel. rewrite chunk_loop_windows.
    rewrite (windows_more_fuel _ _ _ _ _ _ Hws) by lia. reflexivity. }
  destruct H as [chunks H]. exists chunks. split; [|exact H].
  unfold chunk_text. rewrite H by lia. reflexivity.
Qed.

Lemma chunk_text_fuel_more t cs ov pg sec fuel fuel' chunks :
  chunk_text_fuel fuel t cs ov pg sec = Some chunks ->
  (fuel <= fuel')%nat ->
  chunk_text_fuel fuel' t cs ov pg sec = Some chunks.
Proof.
  unfold chunk_text_fuel.
  destruct (negb (truthy t) || negb (truthy (strip t))); [auto|].
  destruct (len (encode t) <=? cs); [auto|].
  rewrite !chunk_loop_windows. intros H Hle.
  destruct (windows fuel _ cs ov 0) as [ws|] eqn:E; [|discriminate].
  now rewrite (windows_more_fuel _ _ _ _ _ _ E fuel' Hle).
Qed.

(** The fuel [chunk_text] runs its loop with settles the matter: it
    gives [Ok] exactly for the results some fuel gives, and [Diverge]
    exactly when no fuel gives a result. *)
Lemma chunk_text_adequate t cs ov pg sec :
  (forall chunks,
      chunk_text t cs ov pg sec = Ok chunks
      <-> exists fuel, chunk_text_fuel fuel t cs ov pg sec = Some chunks) /\
  (chunk_text t cs ov pg sec = Diverge
   <-> forall fuel, chunk_text_fuel fuel t cs ov pg sec = None).
Proof.
  assert (Hnone : chunk_text_fuel (S (List.length (encode t))) t cs ov pg sec
                  = None ->
                  forall fuel, chunk_text_fuel fuel t cs ov pg sec = None).
  { intros E fuel. destruct (Z.lt_ge_cases ov cs) as [Hov|Hov].
    - destruct (chunk_text_fuel_enough t cs ov pg sec Hov) as (r & _ & Hr).
      rewrite Hr in E by lia. discriminate.
    - revert E. unfold chunk_text_fuel.
      destruct (negb (truthy t) || negb (truthy (strip t))); [discriminate|].
      destruct (len (encode t) <=? cs) eqn:EN; [discriminate|].
      apply Z.leb_gt in EN. rewrite !chunk_loop_windows.
      destruct (Z.lt_ge_cases 0 (len (encode t))) as [Hpos|Hzero].
      + intros _. rewrite windows_diverge by lia. reflexivity.
      + cbn [windows].
        replace (0 <? len (encode t)) with false
          by (symmetry; apply Z.ltb_ge; lia).
        discriminate. }
  unfold chunk_text.
  destruct (chunk_text_fuel (S (List.length (encode t))) t cs ov pg sec)
    as [r|] eqn:E.
  - split.
    + intros chunks. split.
      * intros [= <-]. now exists (S (List.length (encode t))).
      * intros [fuel Hf].
        pose proof (chunk_text_fuel_more _ _ _ _ _ _
                      (Nat.max fuel (S (List.length (encode t)))) _ Hf
                      (Nat.le_max_l _ _)) as H1.
        pose proof (chunk_text_fuel_more _ _ _ _ _ _
                      (Nat.max fuel (S (List.length (encode t)))) _ E
                      (Nat.le_max_r _ _)) as H2.
        congruence.
    + split; [discriminate|]. intros H. rewrite H in E. discriminate.
  - split.
    + intros chunks. split; [discriminate|].
      intros [fuel Hf]. rewrite (Hnone eq_refl fuel) in Hf. discriminate.
    + split; [intros _; now apply Hnone | reflexivity].
Qed.

(** C5 (as amended).  [chunk_text] takes any chunk size and overlap:
    nothing rejects [chunk_overlap >= chunk_size].  Whenever
    [chunk_overlap < chunk_size] the call returns, for every text and
    every chunk size.  With [chunk_overlap >= chunk_size], a text that
    is not blank and has more tokens than [chunk_size] keeps the loop
    running for ever: no fuel gives a result. *)
Theorem chunk_text_terminates t cs ov pg sec :
  (ov < cs ->
   exists chunks,
     chunk_text t cs ov pg sec = Ok chunks /\
     forall fuel, (List.length (encode t) < fuel)%nat ->
                  chunk_text_fuel fuel t cs ov pg sec = Some chunks) /\
  (cs <= ov ->
   truthy (strip t) = true -> cs < len (encode t) -> 0 < len (encode t) ->
   chunk_text t cs ov pg sec = Diverge /\
   forall fuel, chunk_text_fuel fuel t cs ov pg sec = None).
Proof.
  split.
  - apply chunk_text_fuel_enough.
  - intros Hov Hne HN HN0. now apply chunk_text_diverges.
Qed.

(** C6 (as amended).  A text with at most [chunk_size] tokens gives
    exactly one chunk when it is not blank: the text with the white
    space around it removed, all its tokens counted, index 0.  When it
    is empty or all white space it gives no chunk.  The loop is not
    entered, so this holds with any fuel. *)
Theorem chunk_text_single_chunk t cs ov pg sec :
  len (encode t) <= cs ->
  chunk_text t cs ov pg sec
  = Ok (if truthy (strip t)
        then [mkChunk (strip t) (len (encode t)) pg sec 0]
        else []) /\
  forall fuel,
    chunk_text_fuel fuel t cs ov pg sec
    = Some (if truthy (strip t)
            then [mkChunk (strip t) (len (encode t)) pg sec 0]
            else []).
Proof.
  intros HN.
  assert (H : forall fuel,
             chunk_text_fuel fuel t cs ov pg sec
             = Some (if truthy (strip t)
                     then [mkChunk (strip t) (len (encode t)) pg sec 0]
                     else [])).
  { intros fuel. unfold chunk_text_fuel.
    destruct (truthy (strip t)) eqn:Hne.
    - rewrite (strip_truthy _ Hne). simpl.
      apply Z.leb_le in HN. now rewrite HN.
    - now rewrite orb_true_r. }
  split; [|exact H]. unfold chunk_text. now rewrite H.
Qed.

(** C3 (as amended).  For a text that is not blank, with [N] tokens,
    [N > chunk_size] and [0 <= overlap < chunk_size], the loop visits
    exactly [ceil((N - overlap) / (chunk_size - overlap))] token
    windows; each lies inside the token list, and two windows in a row
    have exactly [overlap] token positions in common.  The chunks
    returned are those of the windows whose decoded text is not
    blank, in order: never more than that number, and exactly that
    number when no window is blank. *)
Theorem chunk_text_window_count t cs ov pg sec :
  truthy (strip t) = true ->
  cs < len (encode t) ->
  0 <= ov < cs ->
  exists ws,
    windows (S (List.length (encode t))) (len (encode t)) cs ov 0 = Some ws /\
    chunk_text t cs ov pg sec
    = Ok (chunks_of_windows (encode t) pg sec 0 ws) /\
    len ws = ceil_div (len (encode t) - ov) (cs - ov) /\
    neighbours (fun w1 w2 => shared_tokens w1 w2 = ov) ws /\
    Forall (fun w => 0 <= fst w < snd w /\ snd w <= len (encode t)) ws /\
    len (chunks_of_windows (encode t) pg sec 0 ws)
    <= ceil_div (len (encode t) - ov) (cs - ov) /\
    (existsb (blank_window (encode t)) ws = false ->
     len (chunks_of_windows (encode t) pg sec 0 ws)
     = ceil_div (len (encode t) - ov) (cs - ov)).
Proof.
  intros Hne HN Hov.
  destruct (windows_terminate (len (encode t)) cs ov (proj2 Hov)
              (S (List.length (encode t))) 0) as [ws Hws].
  { unfold len. lia. }
  assert (Hcount : len ws = ceil_div (len (encode t) - ov) (cs - ov)).
  { rewrite (windows_count _ _ _ Hov _ _ _ Hws) by lia.
    f_equal. lia. }
  exists ws. repeat split.
  - exact Hws.
  - unfold chunk_text, chunk_text_fuel.
    rewrite Hne, (strip_truthy _ Hne). simpl negb. simpl orb. cbv iota.
    replace (len (encode t) <=? cs) with false
      by (symmetry; apply Z.leb_gt; lia).
    rewrite chunk_loop_windows, Hws. reflexivity.
  - exact Hcount.
  - exact (windows_neighbours _ _ _ Hov _ _ _ Hws).
  - apply (windows_bounds _ _ _ Hov _ _ _ Hws). lia.
  - rewrite <- Hcount. apply chunks_of_windows_le.
  - intros Hnb. rewrite <- Hcount. now apply chunks_of_windows_length.
Qed.
(** The chunks of a list of windows are numbered in order, carry the
    page and section given, and none has an empty text. *)
Lemma chunks_of_windows_numbered tokens pg sec :
  forall ws idx,
    map index (chunks_of_windows tokens pg sec idx ws)
    = map (fun k => idx + Z.of_nat k)
        (seq 0 (List.length (chunks_of_windows tokens pg sec idx ws))) /\
    Forall (fun c => truthy (text c) = true /\ page_number c = pg
                     /\ section c = sec)
      (chunks_of_windows tokens pg sec idx ws).
Proof.
  induction ws as [|[s e] ws IH]; intros idx; cbn [chunks_of_windows].
  - split; [reflexivity | constructor].
  - destruct (truthy (strip (decode (slice tokens s e)))) eqn:E; [|apply IH].
    destruct (IH (idx + 1)) as [IHi IHf]. split.
    + cbn [map List.length seq index]. rewrite IHi, <- seq_shift, map_map.
      f_equal; [simpl; lia|]. apply map_ext. intros k. lia.
    + constructor; [|exact IHf]. cbn. auto.
Qed.

(** X2.  Every list of chunks that [chunk_text] returns is numbered 0, 1, 2,
    ... in order; each chunk carries the page number and the section
    passed in, and a text that is not empty. *)
Theorem chunk_text_sequential_indices t cs ov pg sec chunks :
  chunk_text t cs ov pg sec = Ok chunks ->
  map index chunks = map Z.of_nat (seq 0 (List.length chunks)) /\
  Forall (fun c => truthy (text c) = true /\ page_number c = pg
                   /\ section c = sec) chunks.
Proof.
  unfold chunk_text, chunk_text_fuel.
  destruct (truthy (strip t)) eqn:Hne.
  - rewrite (strip_truthy _ Hne). cbn [negb orb].
    destruct (len (encode t) <=? cs).
    + intros [= <-]. split; [reflexivity|]. repeat constructor. exact Hne.
    + rewrite chunk_loop_windows.
      destruct (windows _ _ cs ov 0) as [ws|]; [|discriminate].
      cbn [option_map app]. intros [= <-].
      destruct (chunks_of_windows_numbered (encode t) pg sec ws 0) as [Hi Hf].
      split; [|exact Hf]. rewrite Hi. apply map_ext. intros k. lia.
  - rewrite orb_true_r. intros [= <-]. split; [reflexivity | constructor].
Qed.

End Claims.

(** *** The chunker on examples *)

(** The example of the specification: 1200 tokens, chunks of 500 with
    an overlap of 50, give the windows [0,500), [450,950), [900,1200). *)
Example windows_1200 :
  windows 1201 1200 500 50 0 = Some [(0, 500); (450, 950); (900, 1200)].
Proof. reflexivity. Qed.

Lemma chunk_text_terminates_witness :
  (2 < 5 /\
   5 < len (encode (Encoding := char_encoding) "to be or not to be") /\
   exists chunks,
     chunk_text (enc := char_encoding) "to be or not to be" 5 2 None None
     = Ok chunks /\
     map index chunks = [0; 1; 2; 3; 4; 5] /\
     forall fuel,
       (List.length (encode (Encoding := char_encoding) "to be or not to be")
        < fuel)%nat ->
       chunk_text_fuel (enc := char_encoding) fuel "to be or not to be"
         5 2 None None = Some chunks) /\
  (3 <= 3 /\
   3 < len (encode (Encoding := char_encoding) "to be or not to be") /\
   chunk_text (enc := char_encoding) "to be or not to be" 3 3 None None
   = Diverge).
Proof.
  split.
  - split; [reflexivity|]. split; [reflexivity|].
    destruct (proj1 (chunk_text_terminates (enc := char_encoding)
                       "to be or not to be" 5 2 None None) eq_refl)
      as (chunks & Hrun & Hfuel).
    exists chunks. split; [exact Hrun|]. split; [|exact Hfuel].
    vm_compute in Hrun. injection Hrun as <-. reflexivity.
  - split; [discriminate|]. split; [reflexivity|].
    apply (proj2 (chunk_text_terminates (enc := char_encoding)
                    "to be or not to be" 3 3 None None));
      first [reflexivity | discriminate].
Defined.

(** C5, the claim as worded fails: with [chunk_size = 1] and
    [chunk_overlap = 1] the call is not refused; on a text of more than
    one token it enters the loop and never leaves it: the window starts
    at 0 again after every round. *)
Lemma chunk_text_overlap_not_rejected :
  1 < len (encode (Encoding := char_encoding) "hello world") /\
  chunk_text (enc := char_encoding) "hello world" 1 1 None None = Diverge /\
  forall fuel,
    chunk_text_fuel (enc := char_encoding) fuel "hello world" 1 1 None None
    = None.
Proof.
  split; [reflexivity|].
  apply (chunk_text_diverges (enc := char_encoding)); vm_compute;
    first [reflexivity | discriminate].
Qed.

Lemma chunk_text_single_chunk_witness :
  len (encode (Encoding := char_encoding) "  hello world ") <= 500 /\
  chunk_text (enc := char_encoding) "  hello world " 500 50 (Some 1) None
  = Ok [mkChunk "hello world" 14 (Some 1) None 0].
Proof.
  split; [vm_compute; discriminate|].
  apply (proj1 (chunk_text_single_chunk (enc := char_encoding)
                  "  hello world " 500 50 (Some 1) None
                  ltac:(vm_compute; discriminate))).
Defined.

(** C6, the claim as worded fails: the empty text and a text of three
    spaces have at most 500 tokens, and [chunk_text] gives no chunk for
    them. *)
Lemma chunk_text_blank_gives_no_chunk :
  len (encode (Encoding := char_encoding) "") <= 500 /\
  chunk_text (enc := char_encoding) "" 500 50 None None = Ok [] /\
  len (encode (Encoding := char_encoding) "   ") <= 500 /\
  chunk_text (enc := char_encoding) "   " 500 50 None None = Ok [].
Proof.
  repeat split; vm_compute; first [reflexivity | discriminate].
Qed.

Lemma chunk_text_sequential_indices_witness :
  map index
    [mkChunk "abcd" 4 None None 0; mkChunk "defg" 4 None None 1;
     mkChunk "ghij" 4 None None 2]
  = [0; 1; 2].
Proof.
  exact (proj1 (chunk_text_sequential_indices (enc := char_encoding)
                  "abcdefghij" 4 1 None None _ eq_refl)).
Defined.

Lemma chunk_text_window_count_witness :
  exists ws,
    windows 11 10 4 1 0 = Some ws /\
    chunk_text (enc := char_encoding) "abcdefghij" 4 1 None None
    = Ok (chunks_of_windows (enc := char_encoding)
            (encode (Encoding := char_encoding) "abcdefghij") None None 0 ws) /\
    len ws = 3 /\
    neighbours (fun w1 w2 => shared_tokens w1 w2 = 1) ws.
Proof.
  destruct (chunk_text_window_count (enc := char_encoding)
              "abcdefghij" 4 1 None None)
    as (ws & Hw & Hc & Hn & Hs & _); [reflexivity | reflexivity | lia |].
  exists ws. repeat split; assumption.
Defined.

(** C3, the claim as worded fails.  With one token per character, the
    text made of [a], two line breaks and [b] has four tokens; chunk
    size 1 and overlap 0 should give [ceil(4 / 1) = 4] chunks, but the
    two windows that hold a line break decode to a blank text and are
    skipped: two chunks come back.  ([chunks_of_windows_lt]: so it is
    with every encoding as soon as one window decodes to a blank
    text.) *)
Lemma chunk_text_skips_blank_windows :
  len (encode (Encoding := char_encoding) ("a" ++ nl ++ nl ++ "b")) = 4 /\
  ceil_div (4 - 0) (1 - 0) = 4 /\
  chunk_text (enc := char_encoding) ("a" ++ nl ++ nl ++ "b") 1 0 None None
  = Ok [mkChunk "a" 1 None None 0; mkChunk "b" 1 None None 1].
Proof. repeat split. Qed.

(** *** Further properties of the chunker *)

Import PyProps.

(** Every window is at most [chunk_size] tokens wide. *)
Lemma windows_width N cs ov :
  forall fuel start ws,
    windows fuel N cs ov start = Some ws ->
    Forall (fun w => snd w - fst w <= cs) ws.
Proof.
  induction fuel as [|fuel IH]; intros start ws H; [discriminate|].
  simpl in H.
  destruct (start <? N); [|injection H as <-; constructor].
  destruct (Z.min (start + cs) N >=? N).
  - injection H as <-. constructor; [simpl; lia | constructor].
  - destruct (windows fuel N cs ov (Z.min (start + cs) N - ov)) as [ws'|] eqn:E;
      [|discriminate].
    injection H as <-. constructor; [simpl; lia | exact (IH _ _ E)].
Qed.

(** With [0 <= overlap < chunk_size] the windows from [start] on leave
    out no token position from [start] to the end. *)
Lemma windows_cover N cs ov :
  0 <= ov < cs ->
  forall fuel start ws,
    windows fuel N cs ov start = Some ws ->
    forall i, start <= i < N -> Exists (fun w => fst w <= i < snd w) ws.
Proof.
  intros Hov.
  induction fuel as [|fuel IH]; intros start ws H i Hi; [discriminate|].
  simpl in H.
  replace (start <? N) with true in H by (symmetry; apply Z.ltb_lt; lia).
  destruct (Z.min (start + cs) N >=? N) eqn:He.
  - injection H as <-. rewrite Z.geb_leb in He. apply Z.leb_le in He.
    constructor. simpl. lia.
  - rewrite Z.geb_leb in He. apply Z.leb_gt in He.
    destruct (windows fuel N cs ov (Z.min (start + cs) N - ov)) as [ws'|] eqn:E;
      [|discriminate].
    injection H as <-.
    destruct (Z.lt_ge_cases i (Z.min (start + cs) N)) as [Hlt|Hge].
    + apply Exists_cons_hd. simpl. lia.
    + apply Exists_cons_tl. apply (IH _ _ E). lia.
Qed.

Lemma renumber_spec : forall page_chunks g,
  map index (fst (renumber g page_chunks))
  = map (fun k => g + Z.of_nat k) (seq 0 (List.length page_chunks)) /\
  map (fun c => (text c, token_count c, page_number c, section c))
    (fst (renumber g page_chunks))
  = map (fun c => (text c, token_count c, page_number c, section c))
      page_chunks /\
  snd (renumber g page_chunks) = g + len page_chunks.
Proof.
  induction page_chunks as [|c rest IH]; intros g.
  - simpl. unfold len. simpl. repeat split. lia.
  - cbn [renumber]. destruct (renumber (g + 1) rest) as [rest' g'] eqn:E.
    destruct (IH (g + 1)) as (Hi & Hf & Hg). rewrite E in Hi, Hf, Hg.
    cbn [fst snd] in *. repeat split.
    + cbn [map List.length seq index]. rewrite Hi, <- seq_shift, map_map.
      f_equal; [simpl; lia|]. apply map_ext. intros k. lia.
    + cbn [map text token_count page_number section]. now rewrite Hf.
    + rewrite Hg. unfold len. simpl List.length. lia.
Qed.

Section MoreClaims.
Context {enc : Encoding}.

(** What [chunk_text] fills in: the page, the section, a text that is
    not empty and has no white space around it. *)
Lemma chunks_of_windows_fields tokens pg sec :
  forall ws idx,
    Forall (fun c => page_number c = pg /\ section c = sec
                     /\ truthy (text c) = true /\ strip (text c) = text c
                     /\ exists w, In w ws /\
                          token_count c = len (slice tokens (fst w) (snd w)))
      (chunks_of_windows tokens pg sec idx ws).
Proof.
  induction ws as [|[s e] ws IH]; intros idx; cbn [chunks_of_windows];
    [constructor|].
  assert (Hrest : forall idx',
             Forall (fun c => page_number c = pg /\ section c = sec
                     /\ truthy (text c) = true /\ strip (text c) = text c
                     /\ exists w, In w ((s, e) :: ws) /\
                          token_count c = len (slice tokens (fst w) (snd w)))
               (chunks_of_windows tokens pg sec idx' ws)).
  { intros idx'. eapply Forall_impl; [|apply IH].
    intros c (H1 & H2 & H3 & H4 & w & Hw & H5).
    repeat split; try assumption. exists w. split; [now right | assumption]. }
  destruct (truthy (strip (decode (slice tokens s e)))) eqn:E; [|apply Hrest].
  constructor; [|apply Hrest].
  cbn. repeat split; try assumption; [apply strip_idempotent|].
  exists (s, e). split; [now left | reflexivity].
Qed.

Lemma chunk_text_fields t cs ov pg sec chunks :
  chunk_text t cs ov pg sec = Ok chunks ->
  Forall (fun c => page_number c = pg /\ section c = sec
                   /\ truthy (text c) = true /\ strip (text c) = text c)
    chunks.
Proof.
  unfold chunk_text, chunk_text_fuel.
  destruct (truthy (strip t)) eqn:Hne.
  - rewrite (strip_truthy _ Hne). cbn [negb orb].
    destruct (len (encode t) <=? cs).
    + intros [= <-]. constructor; [|constructor].
      cbn [page_number section text]. repeat split; try assumption.
      apply strip_idempotent.
    + rewrite chunk_loop_windows.
      destruct (windows _ _ cs ov 0) as [ws|]; [|discriminate].
      cbn [option_map app]. intros [= <-].
      eapply Forall_impl; [|apply chunks_of_windows_fields].
      intros c (H1 & H2 & H3 & H4 & _). auto.
  - rewrite orb_true_r. intros [= <-]. constructor.
Qed.

(** X4.  The text of every chunk that [chunk_text] returns is trimmed:
    stripping it again changes nothing. *)
Theorem chunk_text_trimmed t cs ov pg sec chunks :
  chunk_text t cs ov pg sec = Ok chunks ->
  Forall (fun c => strip (text c) = text c /\ truthy (text c) = true) chunks.
Proof.
  intros H. eapply Forall_impl; [|exact (chunk_text_fields _ _ _ _ _ _ H)].
  intros c (_ & _ & H3 & H4). auto.
Qed.

(** X5.  With [0 <= overlap < chunk_size], no chunk that [chunk_text]
    returns counts more than [chunk_size] tokens, and when the text has
    more tokens than [chunk_size] every chunk counts at least one. *)
Theorem chunk_token_count_bounded t cs ov pg sec chunks :
  0 <= ov < cs ->
  chunk_text t cs ov pg sec = Ok chunks ->
  Forall (fun c => token_count c <= cs
                   /\ (cs < len (encode t) -> 1 <= token_count c)) chunks.
Proof.
  intros Hov. unfold chunk_text, chunk_text_fuel.
  destruct (negb (truthy t) || negb (truthy (strip t)));
    [intros [= <-]; constructor|].
  destruct (len (encode t) <=? cs) eqn:EN.
  - apply Z.leb_le in EN. intros [= <-]. repeat constructor; cbn; lia.
  - rewrite chunk_loop_windows.
    destruct (windows _ _ cs ov 0) as [ws|] eqn:Ew; [|discriminate].
    cbn [option_map app]. intros [= <-].
    pose proof (windows_bounds _ _ _ Hov _ _ _ Ew (Z.le_refl 0)) as Hb.
    pose proof (windows_width _ _ _ _ _ _ Ew) as Hw.
    rewrite Forall_forall in Hb, Hw.
    eapply Forall_impl; [|apply chunks_of_windows_fields].
    intros c (_ & _ & _ & _ & w & Hin & Htc).
    specialize (Hb w Hin). specialize (Hw w Hin).
    rewrite Htc, slice_length by lia. lia.
Qed.

(** X6.  With [0 <= overlap < chunk_size], the windows that
    [chunk_text] cuts from a text of more than [chunk_size] tokens leave
    out no token: every token position lies in one of them.  So the
    only tokens that reach no chunk are those of windows that decode to
    a blank text. *)
Theorem chunk_windows_cover t cs ov pg sec :
  truthy (strip t) = true ->
  cs < len (encode t) ->
  0 <= ov < cs ->
  exists ws,
    windows (S (List.length (encode t))) (len (encode t)) cs ov 0 = Some ws /\
    chunk_text t cs ov pg sec
    = Ok (chunks_of_windows (encode t) pg sec 0 ws) /\
    forall i, 0 <= i < len (encode t) ->
              Exists (fun w => fst w <= i < snd w) ws.
Proof.
  intros Hne HN Hov.
  destruct (windows_terminate (len (encode t)) cs ov (proj2 Hov)
              (S (List.length (encode t))) 0) as [ws Hws].
  { unfold len. lia. }
  exists ws. split; [exact Hws|]. split.
  - unfold chunk_text, chunk_text_fuel.
    rewrite Hne, (strip_truthy _ Hne). cbn [negb orb].
    replace (len (encode t) <=? cs) with false
      by (symmetry; apply Z.leb_gt; lia).
    rewrite chunk_loop_windows, Hws. reflexivity.
  - intros i Hi. exact (windows_cover _ _ _ Hov _ _ _ Hws i Hi).
Qed.

Lemma chunk_pages_from_spec cs ov :
  ov < cs ->
  forall pages g,
    exists chunks,
      chunk_pages_from g pages cs ov = Ok chunks /\
      map index chunks
      = map (fun k => g + Z.of_nat k) (seq 0 (List.length chunks)) /\
      Forall (fun c => section c = None /\ truthy (text c) = true /\
                       exists pn t, In (pn, t) pages
                                    /\ page_number c = Some pn
                                    /\ truthy (strip t) = true) chunks.
Proof.
  intros Hov. induction pages as [|[pn t] pages IH]; intros g.
  - exists []. repeat split. constructor.
  - cbn [chunk_pages_from].
    destruct (chunk_text_fuel_enough t cs ov (Some pn) None Hov)
      as (page_chunks & Hrun & _).
    rewrite Hrun. cbn [bind].
    destruct (renumber_spec page_chunks g) as (Hi & Hf & Hg).
    destruct (renumber g page_chunks) as [cs' g'] eqn:E. cbn [fst snd] in *.
    destruct (IH g') as (rest & Hrest & Hri & Hrf).
    rewrite Hrest. cbn [bind].
    exists (cs' ++ rest). split; [reflexivity|]. split.
    + assert (Hlen : List.length cs' = List.length page_chunks).
      { rewrite <- (length_map index cs'), Hi, length_map, length_seq.
        reflexivity. }
      rewrite map_app, length_app, seq_app, map_app, Hi, Hri, Hlen.
      f_equal. cbn [Nat.add]. unfold len.
      rewrite (map_seq_from _ _ (List.length page_chunks)).
      apply map_ext. intros k. rewrite Hg. unfold len. lia.
    + apply Forall_app. split.
      * pose proof (chunk_text_fields _ _ _ _ _ _ Hrun) as Hfields.
        assert (Hblank : page_chunks <> [] -> truthy (strip t) = true).
        { intros Hnil. revert Hrun. unfold chunk_text, chunk_text_fuel.
          destruct (truthy (strip t)); [reflexivity|].
          rewrite orb_true_r. intros [= <-]. contradiction. }
        clear - Hf Hfields Hblank. revert cs' Hf.
        induction page_chunks as [|c l IHl]; intros [|c' l'] Hf;
          try discriminate; [constructor|].
        inversion Hfields as [|? ? (H1 & H2 & H3 & H4) Hl]; subst.
        cbn [map] in Hf. injection Hf as Ht Htc Hp Hs Hrest.
        constructor.
        -- rewrite Hs, H2, Ht, H3. repeat split.
           exists pn, t. split; [now left|]. split; [congruence|].
           apply Hblank. discriminate.
        -- assert (Hall : Forall (fun c => section c = None
                             /\ truthy (text c) = true
                             /\ exists pn0 t0, In (pn0, t0) ((pn, t) :: pages)
                                  /\ page_number c = Some pn0
                                  /\ truthy (strip t0) = true) l').
           { destruct l as [|c2 l2].
             - destruct l'; [constructor | discriminate].
             - apply IHl; [assumption | | assumption].
               intros _. apply Hblank. discriminate. }
           exact Hall.
      * eapply Forall_impl; [|exact Hrf].
        intros c (H1 & H2 & pn0 & t0 & Hin & H3 & H4).
        repeat split; try assumption. exists pn0, t0.
        split; [now right | auto].
Qed.

(** Pages that are all blank give no chunk. *)
Lemma chunk_pages_blank cs ov :
  forall pages g,
    Forall (fun p => truthy (strip (snd p)) = false) pages ->
    chunk_pages_from g pages cs ov = Ok [].
Proof.
  induction pages as [|[pn t] pages IH]; intros g H; [reflexivity|].
  inversion H as [|? ? Hb H']; subst. cbn [snd] in Hb.
  cbn [chunk_pages_from].
  assert (E : chunk_text t cs ov (Some pn) None = Ok []).
  { unfold chunk_text, chunk_text_fuel. rewrite Hb, orb_true_r. reflexivity. }
  rewrite E. cbn [bind renumber]. rewrite (IH g H'). reflexivity.
Qed.

(** X7.  With [overlap < chunk_size], [chunk_pages] returns for every
    list of pages; its chunks are numbered 0, 1, 2, ... across the
    pages, each carries the number of a page of the input whose text is
    not blank, none has a section, and none has an empty text. *)
Theorem chunk_pages_numbered pages cs ov :
  ov < cs ->
  exists chunks,
    chunk_pages pages cs ov = Ok chunks /\
    map index chunks = map Z.of_nat (seq 0 (List.length chunks)) /\
    Forall (fun c => section c = None /\ truthy (text c) = true /\
                     exists pn t, In (pn, t) pages
                                  /\ page_number c = Some pn
                                  /\ truthy (strip t) = true) chunks.
Proof.
  intros Hov.
  destruct (chunk_pages_from_spec cs ov Hov pages 0) as (chunks & H & Hi & Hf).
  exists chunks. split; [exact H|]. split; [|exact Hf].
  rewrite Hi. apply map_ext. intros k. lia.
Qed.
End MoreClaims.

Lemma chunk_text_trimmed_witness :
  Forall (fun c => strip (text c) = text c /\ truthy (text c) = true)
    [mkChunk "hello world" 14 (Some 1) None 0].
Proof.
  exact (chunk_text_trimmed (enc := char_encoding)
           "  hello world " 500 50 (Some 1) None _ eq_refl).
Defined.

Lemma chunk_token_count_bounded_witness :
  Forall (fun c => token_count c <= 4
                   /\ (4 < len (encode (Encoding := char_encoding)
                                  "abcdefghij") -> 1 <= token_count c))
    [mkChunk "abcd" 4 None None 0; mkChunk "defg" 4 None None 1;
     mkChunk "ghij" 4 None None 2].
Proof.
  exact (chunk_token_count_bounded (enc := char_encoding)
           "abcdefghij" 4 1 None None _ ltac:(lia) eq_refl).
Defined.

Lemma chunk_windows_cover_witness :
  exists ws,
    windows 11 10 4 1 0 = Some ws /\
    forall i, 0 <= i < 10 -> Exists (fun w => fst w <= i < snd w) ws.
Proof.
  destruct (chunk_windows_cover (enc := char_encoding)
              "abcdefghij" 4 1 None None)
    as (ws & Hw & _ & Hc); [reflexivity | reflexivity | lia |].
  exists ws. split; assumption.
Defined.

Lemma chunk_pages_numbered_witness :
  DEFAULT_CHUNK_OVERLAP < DEFAULT_CHUNK_SIZE /\
  exists chunks,
    chunk_pages (enc := char_encoding) [(1, "first page"%string); (2, "   "%string); (3, "third"%string)]
      DEFAULT_CHUNK_SIZE DEFAULT_CHUNK_OVERLAP = Ok chunks /\
    map index chunks = map Z.of_nat (seq 0 (List.length chunks)).
Proof.
  split; [reflexivity|].
  destruct (chunk_pages_numbered (enc := char_encoding)
              [(1, "first page"%string); (2, "   "%string); (3, "third"%string)]
              DEFAULT_CHUNK_SIZE DEFAULT_CHUNK_OVERLAP)
    as (chunks & H & Hi & _); [reflexivity|].
  exists chunks. split; assumption.
Defined.

End ChunkingProps.

(** ** The vector store *)

Module VectorDbProps.
Import VectorDb PyProps.
Local Open Scope Q_scope.

Lemma Qeqb_true (a b : Q) : Qeqb a b = true <-> a == b.
Proof. apply Qeq_bool_iff. Qed.

Lemma Qeqb_false (a b : Q) : Qeqb a b = false <-> ~ a == b.
Proof.
  unfold Qeqb. split.
  - intros H E. apply Qeq_bool_iff in E. congruence.
  - intros H. destruct (Qeq_bool a b) eqn:E; [|reflexivity].
    apply Qeq_bool_iff in E. contradiction.
Qed.

(** Dividing by a number that is not zero gives a result. *)
Lemma divide_ok (x y : Q) : ~ y == 0 -> divide x y = Ok (x / y).
Proof.
  intros H. unfold divide. apply Qeqb_false in H. now rewrite H.
Qed.

(** *** Arithmetic on floats *)


Lemma float32_zero : float32 0 = Num 0.
Proof. reflexivity. Qed.



Lemma fsub_one_not_nan (x : float) :
  is_nan x = false -> is_nan (fsub (Num 1) x) = false.
Proof. now destruct x. Qed.

Section WithNumeric.
Context {num : Numeric}.


(** [query_vectors] in closed form. *)
Lemma query_vectors_ok record q k s :
  query_vectors record q k s
  = Ok (take k (sort_lt hit_distance (map (hit_of q) (rows_of record s)))).
Proof.
  unfold query_vectors, rows_of.
  destruct (filter _ s) as [|r rows] eqn:E;
    [cbn [map sort_lt]; now rewrite take_nil | reflexivity].
Qed.

(** Every hit comes from a row of the collection asked for. *)
Lemma query_vectors_hit record q k s hits h :
  query_vectors record q k s = Ok hits -> In h hits ->
  exists r, In r s /\ record_id r = record /\ h = hit_of q r.
Proof.
  rewrite query_vectors_ok. intros [= <-] Hin.
  apply take_In in Hin. apply sort_lt_In in Hin.
  apply in_map_iff in Hin as (r & <- & Hr).
  apply filter_In in Hr as [Hr E]. apply String.eqb_eq in E.
  now exists r.
Qed.

Lemma no_nan_distance_hits record q s :
  no_nan_distance record q s ->
  Forall (fun h => is_nan (hit_distance h) = false)
    (map (hit_of q) (rows_of record s)).
Proof.
  unfold no_nan_distance. rewrite !Forall_forall. intros H h Hh.
  apply in_map_iff in Hh as (r & <- & Hr). now apply H.
Qed.

(** When no distance is NaN the hits are in ascending order of
    distance. *)
Lemma query_vectors_sorted record q k s hits :
  no_nan_distance record q s ->
  query_vectors record q k s = Ok hits ->
  StronglySorted (fun a b => fle (hit_distance a) (hit_distance b)) hits.
Proof.
  intros Hnan. rewrite query_vectors_ok. intros [= <-].
  apply take_sorted, sort_lt_sorted. now apply no_nan_distance_hits.
Qed.
End WithNumeric.

(** *** The primary key *)

Lemma insert_or_replace_unique r s :
  unique_ids s -> unique_ids (insert_or_replace r s).
Proof.
  unfold unique_ids, insert_or_replace. intros H.
  rewrite map_app. simpl. apply NoDup_app.
  - induction s as [|r' s IH]; simpl; [constructor|].
    inversion H as [|? ? Hnotin Hnd]; subst.
    destruct (negb (String.eqb (id r') (id r))); simpl; [|auto].
    constructor; [|auto].
    intros Hin. apply Hnotin. apply in_map_iff in Hin as (x & E & Hx).
    apply filter_In in Hx as [Hx _]. apply in_map_iff. now exists x.
  - repeat constructor. intros [].
  - intros x Hx [<-|[]].
    apply in_map_iff in Hx as (r' & E & Hr').
    apply filter_In in Hr' as [_ Hne].
    apply negb_true_iff, String.eqb_neq in Hne. congruence.
Qed.

Lemma add_loop_unique record :
  forall ids i embeddings documents metas s,
    unique_ids s ->
    unique_ids (snd (add_loop record i ids embeddings documents metas s)).
Proof.
  induction ids as [|vid ids IH]; intros i es ds ms s H; simpl; [assumption|].
  destruct (getitem es i); simpl; try assumption.
  destruct (getitem ms i); simpl; try assumption.
  apply IH. now apply insert_or_replace_unique.
Qed.

Lemma add_vectors_unique record ids embeddings documents metadatas s :
  unique_ids s ->
  unique_ids (snd (add_vectors record ids embeddings documents metadatas s)).
Proof.
  intros H. unfold add_vectors.
  destruct ids; [assumption|]. now apply add_loop_unique.
Qed.

Lemma NoDup_map_filter {A B} (keep : A -> bool) (proj : A -> B) :
  forall rows, NoDup (map proj rows) -> NoDup (map proj (filter keep rows)).
Proof.
  intros rows. induction rows as [|a rows IH]; simpl; intros H;
    [constructor|].
  inversion H as [|? ? Hnotin Hnd]; subst.
  destruct (keep a); simpl; [|auto].
  constructor; [|auto].
  intros Hin. apply Hnotin. apply in_map_iff in Hin as (x & E & Hx).
  apply filter_In in Hx as [Hx _]. apply in_map_iff. now exists x.
Qed.

Lemma delete_collection_unique record s :
  unique_ids s -> unique_ids (delete_collection record s).
Proof. apply NoDup_map_filter. Qed.

(** No operation of the module ever leaves two rows with one id. *)
Lemma reachable_unique s : reachable s -> unique_ids s.
Proof.
  induction 1.
  - constructor.
  - now apply add_vectors_unique.
  - now apply delete_collection_unique.
Qed.

(** Under the primary key, two rows with one id are one row. *)
Lemma unique_ids_inj s r r' :
  unique_ids s -> In r s -> In r' s -> id r = id r' -> r = r'.
Proof.
  unfold unique_ids. induction s as [|x s IH]; simpl; [contradiction|].
  intros H Hr Hr' E. inversion H as [|? ? Hnotin Hnd]; subst.
  destruct Hr as [->|Hr], Hr' as [->|Hr']; auto.
  - exfalso. apply Hnotin. rewrite E. now apply in_map.
  - exfalso. apply Hnotin. rewrite <- E. now apply in_map.
Qed.

(** Filtering by collection after removing the rows with one id. *)
Lemma filter_without_id (p : row -> bool) (r : row) :
  forall s, unique_ids s -> In r s ->
    List.length (filter p s)
    = (List.length
         (filter p (filter (fun r' => negb (String.eqb (id r') (id r))) s))
       + (if p r then 1 else 0))%nat.
Proof.
  unfold unique_ids.
  induction s as [|x s IH]; simpl; [contradiction|].
  intros H Hin. inversion H as [|? ? Hnotin Hnd]; subst.
  destruct Hin as [->|Hin].
  - rewrite String.eqb_refl. simpl.
    assert (E : filter (fun r' => negb (String.eqb (id r') (id r))) s = s).
    { apply forallb_filter_id. apply forallb_forall. intros y Hy.
      apply negb_true_iff, String.eqb_neq. intros E. apply Hnotin.
      rewrite <- E. now apply in_map. }
    rewrite E. destruct (p r); simpl; lia.
  - assert (Hne : String.eqb (id x) (id r) = false).
    { apply String.eqb_neq. intros E. apply Hnotin. rewrite E.
      now apply in_map. }
    rewrite Hne. simpl. destruct (p x); simpl; rewrite (IH Hnd Hin); lia.
Qed.

Lemma rows_of_delete_other record other s :
  other <> record ->
  rows_of other (delete_collection record s) = rows_of other s.
Proof.
  intros Hne. unfold rows_of, delete_collection.
  induction s as [|r s IH]; simpl; [reflexivity|].
  destruct (String.eqb (record_id r) record) eqn:E; simpl.
  - apply String.eqb_eq in E.
    replace (String.eqb (record_id r) other) with false; [exact IH|].
    symmetry. apply String.eqb_neq. congruence.
  - now rewrite IH.
Qed.

Lemma rows_of_delete_same record s :
  rows_of record (delete_collection record s) = [].
Proof.
  unfold rows_of, delete_collection.
  induction s as [|r s IH]; simpl; [reflexivity|].
  destruct (String.eqb (record_id r) record) eqn:E; simpl; [exact IH|].
  now rewrite E.
Qed.

(** A successful [add_vectors] of one id is one [INSERT OR REPLACE]. *)
Lemma add_vectors_single record i es ds ms s :
  fst (add_vectors record [i] es ds ms s) = Ok tt ->
  exists emb doc m,
    snd (add_vectors record [i] es ds ms s)
    = insert_or_replace (mkRow i record emb doc m) s.
Proof.
  unfold add_vectors. cbn [add_loop].
  destruct (getitem es 0) as [emb| |]; simpl; try discriminate.
  match goal with |- context [getitem ?l 0] => destruct (getitem l 0) as [m| |] end;
    simpl; try discriminate.
  intros _. now exists emb, (nth 0 ds EmptyString), m.
Qed.

Section Claims.
Context {num : Numeric}.

(** C2.  In a store that respects the primary key (in particular one
    holding rows of two or more collections), [query_vectors] for a
    collection returns only ids whose stored row belongs to that
    collection; [delete_collection] leaves no row of the collection,
    keeps every row of every other collection, in order, and so leaves
    the answers to their queries unchanged. *)
Theorem collection_isolation (s : store) (record : string)
    (q : list Q) (k : Z) :
  unique_ids s ->
  (exists hits,
      query_vectors record q k s = Ok hits /\
      forall h, In h hits ->
        (exists r, In r s /\ id r = hit_id h /\ record_id r = record) /\
        (forall r, In r s -> id r = hit_id h -> record_id r = record)) /\
  rows_of record (delete_collection record s) = [] /\
  (forall r, In r (delete_collection record s)
             <-> In r s /\ record_id r <> record) /\
  (forall other, other <> record ->
      rows_of other (delete_collection record s) = rows_of other s /\
      collection_count other (delete_collection record s)
      = collection_count other s /\
      forall q' k',
        query_vectors other q' k' (delete_collection record s)
        = query_vectors other q' k' s).
Proof.
  intros Huniq. repeat split.
  - eexists. split; [apply query_vectors_ok|].
    intros h Hin.
    destruct (query_vectors_hit record q k s _ h (query_vectors_ok _ _ _ _) Hin)
      as (r & Hr & Hrec & ->).
    split.
    + now exists r.
    + intros r' Hr' E. simpl in E.
      now rewrite (unique_ids_inj s r' r Huniq Hr' Hr E).
  - apply rows_of_delete_same.
  - unfold delete_collection in H. apply filter_In in H. tauto.
  - unfold delete_collection in H. apply filter_In in H as [_ H].
    now apply negb_true_iff, String.eqb_neq in H.
  - intros [Hin Hne]. unfold delete_collection. apply filter_In.
    split; [assumption|]. now apply negb_true_iff, String.eqb_neq.
  - now apply rows_of_delete_other.
  - unfold collection_count. fold (rows_of other (delete_collection record s)).
    fold (rows_of other s). now rewrite rows_of_delete_other.
  - intros q' k'. rewrite !query_vectors_ok.
    now rewrite rows_of_delete_other.
Qed.

(** C9.  No store built by the operations of the module holds two
    rows with one id.  When [add_vectors] succeeds for collection [B]
    with a single id that a row of collection [A] carries, the row is
    replaced: the id now belongs to [B] alone, no query for [A] returns
    it, and the vector count of [A] drops by one while that of [B]
    grows by one. *)
Theorem upsert_moves_row (s : store) (A B i : string)
    (es : list (list Q)) (ds : list string) (ms : option (list metadata)) :
  reachable s ->
  A <> B ->
  (exists r, In r s /\ id r = i /\ record_id r = A) ->
  fst (add_vectors B [i] es ds ms s) = Ok tt ->
  let s' := snd (add_vectors B [i] es ds ms s) in
  unique_ids s /\ unique_ids s' /\
  (exists r', In r' s' /\ id r' = i /\ record_id r' = B) /\
  (forall r', In r' s' -> id r' = i -> record_id r' = B) /\
  (forall q k hits,
      query_vectors A q k s' = Ok hits -> ~ In i (map hit_id hits)) /\
  (collection_count A s' = collection_count A s - 1)%Z /\
  (collection_count B s' = collection_count B s + 1)%Z.
Proof.
  intros Hreach Hne (r & Hr & Hid & Hrec) Hok s'.
  pose proof (reachable_unique s Hreach) as Huniq.
  destruct (add_vectors_single B i es ds ms s Hok) as (emb & doc & m & Hs').
  fold s' in Hs'.
  assert (Hrows : forall r', In r' s' ->
                    r' = mkRow i B emb doc m \/ (In r' s /\ id r' <> i)).
  { intros r' Hin. rewrite Hs' in Hin. unfold insert_or_replace in Hin.
    apply in_app_or in Hin as [Hin|[<-|[]]]; [|now left].
    apply filter_In in Hin as [Hin Hn]. right. split; [assumption|].
    now apply negb_true_iff, String.eqb_neq in Hn. }
  assert (HA : String.eqb B A = false) by (apply String.eqb_neq; congruence).
  assert (HrA : String.eqb (record_id r) A = true)
    by (apply String.eqb_eq; assumption).
  assert (HrB : String.eqb (record_id r) B = false)
    by (apply String.eqb_neq; congruence).
  repeat split.
  - exact Huniq.
  - unfold s'. now apply add_vectors_unique.
  - exists (mkRow i B emb doc m). rewrite Hs'. unfold insert_or_replace.
    split; [apply in_or_app; right; now left | split; reflexivity].
  - intros r' Hin E. destruct (Hrows r' Hin) as [->|[_ Hn]];
      [reflexivity | contradiction].
  - intros q k hits Hq Hin.
    apply in_map_iff in Hin as (h & Hh & Hin).
    destruct (query_vectors_hit A q k s' hits h Hq Hin)
      as (r' & Hr' & Hrec' & ->). simpl in Hh.
    destruct (Hrows r' Hr') as [->|[_ Hn]]; [simpl in Hrec'|]; congruence.
  - unfold collection_count, len. rewrite Hs'. unfold insert_or_replace.
    rewrite filter_app. simpl. rewrite HA, app_nil_r.
    rewrite (filter_without_id _ r s Huniq Hr). rewrite HrA, Hid. lia.
  - unfold collection_count, len. rewrite Hs'. unfold insert_or_replace.
    rewrite filter_app. simpl. rewrite String.eqb_refl, length_app. simpl.
    rewrite (filter_without_id (fun r0 => String.eqb (record_id r0) B)
               r s Huniq Hr).
    rewrite HrB, Hid. lia.
Qed.

(** X1.  Adding again, to its own collection, an id the collection
    already holds replaces the row and changes no vector count. *)
Theorem readd_keeps_counts (s : store) (A i : string)
    (es : list (list Q)) (ds : list string) (ms : option (list metadata)) :
  reachable s ->
  (exists r, In r s /\ id r = i /\ record_id r = A) ->
  fst (add_vectors A [i] es ds ms s) = Ok tt ->
  let s' := snd (add_vectors A [i] es ds ms s) in
  unique_ids s' /\
  (exists emb doc m,
      In (mkRow i A emb doc m) s' /\ nth_error es 0 = Some emb) /\
  forall B, collection_count B s' = collection_count B s.
Proof.
  intros Hreach (r & Hr & Hid & Hrec) Hok s'.
  pose proof (reachable_unique s Hreach) as Huniq.
  assert (Hemb : exists emb doc m,
             s' = insert_or_replace (mkRow i A emb doc m) s
             /\ nth_error es 0 = Some emb).
  { revert Hok. unfold s', add_vectors, getitem. cbn [add_loop].
    unfold getitem. destruct (nth_error es 0) as [emb|]; [|discriminate].
    match goal with
    | |- context [nth_error ?l 0] => destruct (nth_error l 0) as [m|]
    end; [|discriminate].
    intros _. now exists emb, (nth 0 ds EmptyString), m. }
  destruct Hemb as (emb & doc & m & Hs' & Hes).
  split; [unfold s'; now apply add_vectors_unique|]. split.
  - exists emb, doc, m. split; [|exact Hes].
    rewrite Hs'. unfold insert_or_replace. apply in_or_app. right. now left.
  - intros B. unfold collection_count, len. rewrite Hs'.
    unfold insert_or_replace. rewrite filter_app, length_app.
    rewrite (filter_without_id (fun r0 => String.eqb (record_id r0) B)
               r s Huniq Hr).
    rewrite Hid, Hrec. cbn [filter record_id].
    destruct (String.eqb A B); simpl; lia.
Qed.

End Claims.

(** *** The store on examples *)

Lemma example_store_unique : unique_ids example_store.
Proof.
  unfold unique_ids, example_store. simpl.
  repeat constructor; simpl; intuition discriminate.
Qed.

Lemma example_store_reachable : reachable example_store.
Proof.
  change example_store with
    (snd (add_vectors "rec_2" ["d1"] [[1; 1]] ["a chunk of another record"] None
      (snd (add_vectors "rec_1" ["c1"; "c2"] [[1; 0]; [0; 1]]
             ["the quick brown fox"; "jumps over lazy dog"] None []))))%string.
  repeat constructor.
Qed.

Lemma collection_isolation_witness :
  unique_ids example_store /\
  (exists hits,
      query_vectors (num := approx_numeric) "rec_1" [1; 0] 5 example_store
      = Ok hits /\
      forall h, In h hits ->
        (exists r, In r example_store /\ id r = hit_id h
                   /\ record_id r = "rec_1"%string) /\
        (forall r, In r example_store -> id r = hit_id h ->
                   record_id r = "rec_1"%string)) /\
  map id (delete_collection "rec_1" example_store) = ["d1"%string].
Proof.
  split; [exact example_store_unique|].
  split; [|reflexivity].
  exact (proj1 (collection_isolation (num := approx_numeric)
                  example_store "rec_1" [1; 0] 5 example_store_unique)).
Defined.

Lemma readd_keeps_counts_witness :
  collection_count "rec_1"
    (snd (add_vectors "rec_1" ["c1"%string] [[0; 1]] ["rewritten"%string] None
            example_store))
  = collection_count "rec_1" example_store.
Proof.
  refine (proj2 (proj2
    (readd_keeps_counts example_store "rec_1" "c1" [[0; 1]]
       ["rewritten"%string] None example_store_reachable _ _)) "rec_1"%string).
  - eexists. split; [left; reflexivity|]. split; reflexivity.
  - reflexivity.
Defined.

Lemma upsert_moves_row_witness :
  reachable example_store /\
  fst (add_vectors "rec_2" ["c1"%string] [[1; 1]] ["moved"%string] None
         example_store)
  = Ok tt /\
  collection_count "rec_1" example_store = 2%Z /\
  collection_count "rec_1"
    (snd (add_vectors "rec_2" ["c1"%string] [[1; 1]] ["moved"%string] None
            example_store))
  = (collection_count "rec_1" example_store - 1)%Z.
Proof.
  split; [exact example_store_reachable|].
  split; [reflexivity|]. split; [reflexivity|].
  refine (proj1 (proj2 (proj2 (proj2 (proj2 (proj2
    (upsert_moves_row (num := approx_numeric) example_store
       "rec_1" "rec_2" "c1" [[1; 1]] ["moved"%string] None
       example_store_reachable _ _ _))))))).
  - discriminate.
  - eexists. split; [left; reflexivity|]. split; reflexivity.
  - reflexivity.
Defined.



(** *** Writing several rows, and the order of the answers *)

Lemma getitem_nth {A} (l : list A) (i : nat) (d : A) :
  (i < List.length l)%nat -> getitem l i = Ok (nth i l d).
Proof.
  intros H. unfold getitem. now rewrite (nth_error_nth' l d H).
Qed.

Lemma getitem_out {A} (l : list A) (i : nat) :
  (List.length l <= i)%nat -> getitem l i = Raise IndexError.
Proof.
  intros H. unfold getitem.
  now rewrite (proj2 (nth_error_None l i) H).
Qed.

Lemma filter_keep_all {A} (l : list A) : filter (fun _ => true) l = l.
Proof. induction l as [|a l IH]; simpl; congruence. Qed.

(** The loop of [add_vectors] on ids that differ from one another, with
    an embedding and a metadata map for each. *)
Lemma add_loop_appends record es ds metas :
  forall ids i s,
    NoDup ids ->
    (i + List.length ids <= List.length es)%nat ->
    (i + List.length ids <= List.length metas)%nat ->
    add_loop record i ids es ds metas s
    = (Ok tt,
       filter (fun r => negb (existsb (String.eqb (id r)) ids)) s
       ++ new_rows record i ids es ds metas).
Proof.
  induction ids as [|vid ids IH]; intros i s Hnd He Hm.
  - cbn [add_loop new_rows existsb negb]. now rewrite filter_keep_all, app_nil_r.
  - cbn [List.length] in He, Hm. inversion Hnd as [|? ? Hnotin Hnd']; subst.
    cbn [add_loop new_rows].
    rewrite (getitem_nth es i []) by lia.
    rewrite (getitem_nth metas i []) by lia.
    rewrite IH by (assumption || lia).
    f_equal. unfold insert_or_replace. cbn [id].
    rewrite filter_app. cbn [filter id].
    replace (existsb (String.eqb vid) ids) with false.
    2:{ symmetry. apply not_true_is_false. intros E.
        now apply existsb_eqb_In in E. }
    cbn [negb]. rewrite <- app_assoc. cbn [app]. f_equal.
    clear. induction s as [|r s IHs]; [reflexivity|].
    cbn [filter existsb].
    destruct (String.eqb (id r) vid); cbn [negb orb filter]; [exact IHs|].
    destruct (existsb (String.eqb (id r)) ids); cbn [negb]; now rewrite IHs.
Qed.

(** The loop of [add_vectors] with fewer embeddings than ids. *)
Lemma add_loop_short record es ds metas metas' :
  (forall j, (j < List.length es)%nat ->
             exists m, getitem metas j = Ok m /\ getitem metas' j = Ok m) ->
  forall ids i s,
    (i <= List.length es)%nat ->
    (List.length es - i < List.length ids)%nat ->
    add_loop record i ids es ds metas s
    = (Raise IndexError,
       snd (add_loop record i (firstn (List.length es - i) ids)
              es ds metas' s)) /\
    fst (add_loop record i (firstn (List.length es - i) ids) es ds metas' s)
    = Ok tt.
Proof.
  intros Hmetas.
  induction ids as [|vid ids IH]; intros i s Hi Hlen;
    [cbn [List.length] in Hlen; lia|].
  cbn [List.length] in Hlen.
  destruct (Nat.eq_dec i (List.length es)) as [->|Hne].
  - rewrite Nat.sub_diag. cbn [firstn add_loop].
    rewrite getitem_out by lia. split; reflexivity.
  - replace (List.length es - i)%nat with (S (List.length es - S i)) by lia.
    cbn [firstn add_loop].
    rewrite (getitem_nth es i []) by lia.
    destruct (Hmetas i) as (m & -> & ->); [lia|].
    apply IH; lia.
Qed.

Lemma getitem_repeat {A} (a : A) (n j : nat) :
  (j < n)%nat -> getitem (repeat a n) j = Ok a.
Proof.
  intros H. rewrite (getitem_nth _ _ a) by now rewrite repeat_length.
  f_equal. apply nth_repeat_lt || apply nth_repeat. assumption.
Qed.

Lemma dot_zero (n : nat) :
  dot (repeat (Num 0) n) (repeat (Num 0) n) = Num 0.
Proof.
  induction n as [|n IH]; cbn [repeat dot]; [reflexivity|].
  rewrite IH. reflexivity.
Qed.

Lemma firstn_zeros (m : nat) :
  forall n, firstn m (repeat (Num 0) n) = repeat (Num 0) (Nat.min m n).
Proof.
  induction m as [|m IH]; intros [|n]; cbn [firstn repeat Nat.min];
    try reflexivity.
  now rewrite IH.
Qed.

Lemma to_float32_zeros (n : nat) :
  to_float32 (repeat 0 n) = repeat (Num 0) n.
Proof.
  unfold to_float32. induction n as [|n IH]; cbn [repeat map];
    [reflexivity|].
  now rewrite IH.
Qed.

Section MoreClaims.
Context {num : Numeric}.

(** [add_vectors] on ids that differ from one another. *)
Lemma add_vectors_spec record ids es ds metadatas s :
  NoDup ids ->
  (List.length ids <= List.length es)%nat ->
  (List.length ids
   <= List.length (metas_for metadatas (List.length ids)))%nat ->
  add_vectors record ids es ds metadatas s
  = (Ok tt,
     filter (fun r => negb (existsb (String.eqb (id r)) ids)) s
     ++ new_rows record 0 ids es ds (metas_for metadatas (List.length ids))).
Proof.
  intros Hnd He Hm. destruct ids as [|vid ids].
  - cbn [add_vectors new_rows existsb negb].
    now rewrite filter_keep_all, app_nil_r.
  - change (add_vectors record (vid :: ids) es ds metadatas s)
      with (add_loop record 0 (vid :: ids) es ds
              (metas_for metadatas (List.length (vid :: ids))) s).
    apply add_loop_appends; assumption.
Qed.

(** X8.  [add_vectors] for ids that differ from one another, with an
    embedding and a metadata map for each, succeeds; it leaves every
    row whose id is not among [ids] where it was, in order, removes the
    rows that held one of [ids] (of whatever collection) and appends
    one row per id, in the order of [ids], holding the embedding,
    document and metadata found at the position of the id. *)
Theorem add_vectors_appends record ids es ds metadatas s :
  NoDup ids ->
  (List.length ids <= List.length es)%nat ->
  (List.length ids
   <= List.length (metas_for metadatas (List.length ids)))%nat ->
  add_vectors record ids es ds metadatas s
  = (Ok tt,
     filter (fun r => negb (existsb (String.eqb (id r)) ids)) s
     ++ new_rows record 0 ids es ds (metas_for metadatas (List.length ids))).
Proof. apply add_vectors_spec. Qed.

(** X9.  [add_vectors] is not atomic: given fewer embeddings than ids
    (and no metadata) it raises [IndexError] at the first id without an
    embedding, and by then it has written the rows of the ids before
    that one: the store is the one that the successful call for those
    first ids leaves. *)
Theorem add_vectors_short_embeddings record ids es ds s :
  (List.length es < List.length ids)%nat ->
  add_vectors record ids es ds None s
  = (Raise IndexError,
     snd (add_vectors record (firstn (List.length es) ids) es ds None s)) /\
  fst (add_vectors record (firstn (List.length es) ids) es ds None s) = Ok tt.
Proof.
  intros Hlen.
  destruct ids as [|vid ids]; [cbn [List.length] in Hlen; lia|].
  destruct es as [|e es].
  - cbn [List.length firstn add_vectors add_loop]. split; reflexivity.
  - set (n := List.length (e :: es)) in *.
    assert (Hn : n = S (List.length es)) by reflexivity.
    destruct (add_loop_short record (e :: es) ds
                (repeat [] (List.length (vid :: ids)))
                (repeat [] (List.length (firstn n (vid :: ids)))))
      with (ids := vid :: ids) (i := 0%nat) (s := s) as [H1 H2].
    + intros j Hj. exists []. fold n in Hj.
      split; apply getitem_repeat; [lia|].
      rewrite length_firstn. lia.
    + lia.
    + fold n. lia.
    + fold n in H1, H2. rewrite Nat.sub_0_r in H1, H2.
      rewrite Hn in *. cbn [firstn] in *.
      split; [exact H1 | exact H2].
Qed.

(** X10.  For [top_k >= 0], and provided no row of the collection is
    at a NaN distance from the query, [query_vectors] returns
    [min top_k n] hits, [n] the number of rows of the collection, and
    they are the nearest ones: the hits of all the rows of the
    collection split into the answer and a rest, and no hit of the rest
    is nearer to the query than a hit of the answer. *)
Theorem query_vectors_nearest record q top_k s :
  (0 <= top_k)%Z ->
  no_nan_distance record q s ->
  exists hits rest,
    query_vectors record q top_k s = Ok hits /\
    len hits = Z.min top_k (collection_count record s) /\
    Permutation (hits ++ rest) (map (hit_of q) (rows_of record s)) /\
    forall h h', In h hits -> In h' rest ->
                 fle (hit_distance h) (hit_distance h').
Proof.
  intros Hk Hnan.
  set (sorted := sort_lt hit_distance (map (hit_of q) (rows_of record s))).
  exists (firstn (Z.to_nat top_k) sorted), (skipn (Z.to_nat top_k) sorted).
  split; [|split; [|split]].
  - rewrite query_vectors_ok, take_nonneg by assumption. reflexivity.
  - unfold len, collection_count. rewrite length_firstn.
    assert (Hl : List.length sorted = List.length (rows_of record s)).
    { unfold sorted.
      rewrite (Permutation_length (sort_lt_perm hit_distance _)).
      apply length_map. }
    rewrite Hl. unfold rows_of, len. lia.
  - rewrite firstn_skipn. apply sort_lt_perm.
  - apply (StronglySorted_app_le
             (fun a b => fle (hit_distance a) (hit_distance b))).
    rewrite firstn_skipn. apply sort_lt_sorted.
    now apply no_nan_distance_hits.
Qed.

(** X11.  A query embedding of zeros (what the embedding gateway gives
    when it has no API key or the request fails) matches nothing:
    provided the square root of 0 is 0, [query_vectors] gives every row
    the distance 1 and, its sort being stable, returns the first
    [top_k] rows of the collection in the order they were stored. *)
Theorem query_vectors_zero_embedding record n top_k s :
  np_sqrt 0 == 0 ->
  query_vectors record (repeat 0 n) top_k s
  = Ok (take top_k (map hit_at_distance_one (rows_of record s))).
Proof.
  intros Hsqrt.
  assert (Hsim : forall b, _cosine_similarity (repeat (Num 0) n) b = Num 0).
  { intros b. unfold _cosine_similarity.
    destruct (Nat.eqb _ 0); [reflexivity|].
    set (m := Nat.min _ _).
    unfold norm at 1. rewrite firstn_zeros, dot_zero.
    apply Qeqb_true in Hsqrt. cbn [fsqrt fzero].
    replace (Qltb 0 0) with false by reflexivity.
    cbn [fzero]. now rewrite Hsqrt. }
  assert (Hhit : forall r, hit_of (repeat 0 n) r = hit_at_distance_one r).
  { intros r. unfold hit_of, score_row.
    now rewrite to_float32_zeros, Hsim. }
  rewrite query_vectors_ok. do 2 f_equal.
  rewrite (map_ext _ _ Hhit).
  apply sort_lt_unordered. intros h h' Hh Hh'.
  apply in_map_iff in Hh as (r & <- & _).
  apply in_map_iff in Hh' as (r' & <- & _). reflexivity.
Qed.
End MoreClaims.

Lemma add_vectors_appends_witness :
  add_vectors "rec_2" ["c2"; "e1"]%string [[1; 1]; [0; 1]]
    ["moved"; "new"]%string None example_store
  = (Ok tt,
     [ mkRow "c1" "rec_1" [1; 0] "the quick brown fox" [];
       mkRow "d1" "rec_2" [1; 1] "a chunk of another record" [];
       mkRow "c2" "rec_2" [1; 1] "moved" [];
       mkRow "e1" "rec_2" [0; 1] "new" [] ]).
Proof.
  refine (add_vectors_appends
            "rec_2" ["c2"; "e1"]%string [[1; 1]; [0; 1]]
            ["moved"; "new"]%string None example_store _ _ _).
  - repeat constructor; simpl; intuition discriminate.
  - simpl. lia.
  - simpl. lia.
Defined.

Lemma add_vectors_short_embeddings_witness :
  add_vectors "rec_2" ["e1"; "e2"; "e3"]%string [[1; 1]; [0; 1]]
    ["one"; "two"; "three"]%string None example_store
  = (Raise IndexError,
     example_store
     ++ [ mkRow "e1" "rec_2" [1; 1] "one" [];
          mkRow "e2" "rec_2" [0; 1] "two" [] ]).
Proof.
  refine (proj1 (add_vectors_short_embeddings
            "rec_2" ["e1"; "e2"; "e3"]%string [[1; 1]; [0; 1]]
            ["one"; "two"; "three"]%string example_store _)).
  simpl. lia.
Defined.

Lemma query_vectors_nearest_witness :
  exists hits rest,
    query_vectors (num := approx_numeric) "rec_1" [1; 0] 1 example_store
    = Ok hits /\
    len hits = 1%Z /\
    Permutation (hits ++ rest)
      (map (hit_of (num := approx_numeric) [1; 0])
         (rows_of "rec_1" example_store)) /\
    forall h h', In h hits -> In h' rest ->
                 fle (hit_distance h) (hit_distance h').
Proof.
  refine (query_vectors_nearest (num := approx_numeric)
            "rec_1" [1; 0] 1 example_store _ _).
  - discriminate.
  - repeat constructor.
Defined.

Lemma query_vectors_zero_embedding_witness :
  query_vectors (num := approx_numeric) "rec_1" [0; 0] 5 example_store
  = Ok [ mkHit "c1" (Num 1) "the quick brown fox" [];
         mkHit "c2" (Num 1) "jumps over lazy dog" [] ].
Proof.
  refine (query_vectors_zero_embedding (num := approx_numeric)
            "rec_1" 2 5 example_store _).
  reflexivity.
Defined.

End VectorDbProps.

(** ** The hybrid retriever *)

Module RetrievalProps.
Import Retrieval PyProps VectorDbProps.
Local Open Scope Q_scope.

(** The similarity [max(0.0, 1.0 - distance)] of a hit. *)
Lemma similarity_Num (d : Q) :
  fmax (Num 0) (fsub (Num 1) (Num d))
  = if Qltb 0 (1 - d) then Num (1 - d) else Num 0.
Proof. reflexivity. Qed.

Lemma similarity_not_nan (d : float) :
  is_nan (fmax (Num 0) (fsub (Num 1) d)) = false.
Proof.
  destruct d as [q|[|]|]; try reflexivity.
  rewrite similarity_Num. now destruct (Qltb 0 (1 - q)).
Qed.

Lemma similarity_nonneg (d : float) :
  fle (Num 0) (fmax (Num 0) (fsub (Num 1) d)).
Proof.
  destruct d as [q|[|]|]; try reflexivity.
  rewrite similarity_Num. destruct (Qltb 0 (1 - q)) eqn:E; [|reflexivity].
  apply fle_Num. apply Qltb_true in E. lra.
Qed.

(** The nearer the hit, the greater its similarity. *)
Lemma similarity_antitone (d1 d2 : float) :
  fle d1 d2 ->
  fle (fmax (Num 0) (fsub (Num 1) d2)) (fmax (Num 0) (fsub (Num 1) d1)).
Proof.
  destruct d1 as [a|s|], d2 as [b|t|]; try discriminate.
  - intros H. apply fle_Num in H. rewrite !similarity_Num.
    destruct (Qltb 0 (1 - b)) eqn:E2, (Qltb 0 (1 - a)) eqn:E1;
      apply fle_Num;
      try apply Qltb_true in E1; try apply Qltb_true in E2;
      try apply Qltb_false in E1; try apply Qltb_false in E2; lra.
  - destruct t; [discriminate|]. intros _.
    apply (similarity_nonneg (Num a)).
  - destruct s; [|discriminate]. intros _.
    change (fmax (Num 0) (fsub (Num 1) (Inf true))) with (Inf false).
    rewrite similarity_Num. now destruct (Qltb 0 (1 - b)).
  - destruct s, t; try discriminate; reflexivity.
Qed.

Lemma chunk_of_hit_id dc h : chunk_id (chunk_of_hit dc h) = VectorDb.hit_id h.
Proof. unfold chunk_of_hit. now destruct (dict_get _ dc) as [[t m]|]. Qed.

Lemma chunk_of_hit_score dc h :
  vector_score (chunk_of_hit dc h)
  = fmax (Num 0) (fsub (Num 1) (VectorDb.hit_distance h)).
Proof. unfold chunk_of_hit. now destruct (dict_get _ dc) as [[t m]|]. Qed.

Section WithInterfaces.
Context {re : Regex} {num : VectorDb.Numeric}.

(** The vector channel in closed form. *)
Lemma vector_channel_ok s record qe dc vtk :
  vector_channel s record qe dc vtk
  = Ok (map (chunk_of_hit dc)
          (take vtk (sort_lt VectorDb.hit_distance
                       (map (VectorDb.hit_of qe) (VectorDb.rows_of record s))))).
Proof. unfold vector_channel. now rewrite query_vectors_ok. Qed.

(** When no distance is NaN the vector channel is in descending order
    of similarity. *)
Lemma vector_channel_sorted s record qe dc vtk vr :
  VectorDb.no_nan_distance record qe s ->
  vector_channel s record qe dc vtk = Ok vr ->
  StronglySorted (fun a b => fle (vector_score b) (vector_score a)) vr.
Proof.
  intros Hnan. rewrite vector_channel_ok. intros [= <-].
  apply StronglySorted_map.
  eapply StronglySorted_impl;
    [|apply take_sorted, (sort_lt_sorted VectorDb.hit_distance);
      now apply no_nan_distance_hits].
  intros a b Hab. simpl in Hab. rewrite !chunk_of_hit_score.
  now apply similarity_antitone.
Qed.

(** Under the primary key, no id comes twice in the vector channel. *)
Lemma vector_channel_NoDup s record qe dc vtk vr :
  VectorDb.unique_ids s ->
  vector_channel s record qe dc vtk = Ok vr ->
  NoDup (map chunk_id vr).
Proof.
  intros Huniq. rewrite vector_channel_ok. intros [= <-].
  rewrite map_map.
  rewrite (map_ext _ VectorDb.hit_id) by (intros; apply chunk_of_hit_id).
  rewrite <- take_map. apply take_NoDup.
  apply (Permutation_NoDup
           (l := map VectorDb.hit_id
                   (map (VectorDb.hit_of qe) (VectorDb.rows_of record s)))).
  - apply Permutation_map. symmetry. apply sort_lt_perm.
  - rewrite map_map. simpl. now apply NoDup_map_filter.
Qed.

Lemma scored_chunk_ids patterns entry :
  map chunk_id (scored_chunk patterns entry) = []
  \/ map chunk_id (scored_chunk patterns entry) = [fst entry].
Proof.
  destruct entry as [cid [t m]]. unfold scored_chunk.
  destruct (_score_chunk_regex t patterns) as [score hl].
  destruct (Qltb 0 score); simpl; auto.
Qed.

Lemma flat_map_scored_NoDup patterns dc :
  NoDup (dict_keys dc) ->
  NoDup (map chunk_id (flat_map (scored_chunk patterns) dc)) /\
  forall cid, In cid (map chunk_id (flat_map (scored_chunk patterns) dc)) ->
              In cid (dict_keys dc).
Proof.
  induction dc as [|entry dc IH]; simpl; intros H.
  - split; [constructor | intros ? []].
  - inversion H as [|? ? Hnotin Hnd]; subst.
    destruct (IH Hnd) as [IH1 IH2]. rewrite map_app.
    destruct (scored_chunk_ids patterns entry) as [E|E]; rewrite E; simpl.
    + split; [assumption | auto].
    + split.
      * constructor; [|assumption]. intros Hin. apply Hnotin. auto.
      * intros cid [<-|Hin]; auto.
Qed.

(** No key of the dictionary comes twice in the keyword channel. *)
Lemma keyword_channel_NoDup query dc vtk :
  NoDup (dict_keys dc) -> NoDup (map chunk_id (keyword_channel query dc vtk)).
Proof.
  intros H. unfold keyword_channel.
  destruct (_extract_query_terms query) as [phrases keywords].
  destruct (_build_regex_patterns phrases keywords) as [|p ps];
    [constructor|].
  rewrite <- take_map. apply take_NoDup.
  eapply Permutation_NoDup;
    [apply Permutation_map; symmetry; apply sort_desc_perm|].
  now apply flat_map_scored_NoDup.
Qed.
End WithInterfaces.

(** *** Reciprocal rank fusion *)

Lemma rank_from_ge cid : forall l rank r,
  rank_from rank cid l = Some r -> (rank <= r)%Z.
Proof.
  induction l as [|c l IH]; simpl; intros rank r H; [discriminate|].
  destruct (String.eqb (chunk_id c) cid); [injection H as <-; lia|].
  apply IH in H. lia.
Qed.

Lemma rank_from_None cid : forall l rank,
  rank_from rank cid l = None <-> ~ In cid (map chunk_id l).
Proof.
  induction l as [|c l IH]; simpl; intros rank; [tauto|].
  destruct (String.eqb (chunk_id c) cid) eqn:E.
  - apply String.eqb_eq in E. split; [discriminate | tauto].
  - apply String.eqb_neq in E. rewrite IH. tauto.
Qed.

Lemma find_chunk_None cid l :
  find_chunk cid l = None <-> ~ In cid (map chunk_id l).
Proof.
  unfold find_chunk. induction l as [|c l IH]; simpl; [tauto|].
  destruct (String.eqb (chunk_id c) cid) eqn:E.
  - apply String.eqb_eq in E. split; [discriminate | tauto].
  - apply String.eqb_neq in E. rewrite IH. tauto.
Qed.

Lemma find_chunk_Some cid l c :
  find_chunk cid l = Some c -> In c l /\ chunk_id c = cid.
Proof.
  unfold find_chunk. intros H. apply find_some in H as [H E].
  now apply String.eqb_eq in E.
Qed.

(** In a list without repeated ids, a chunk is the one found under its
    id. *)
Lemma find_chunk_In l c :
  NoDup (map chunk_id l) -> In c l -> find_chunk (chunk_id c) l = Some c.
Proof.
  unfold find_chunk. induction l as [|x l IH]; simpl; [contradiction|].
  intros H Hin. inversion H as [|? ? Hnotin Hnd]; subst.
  destruct Hin as [->|Hin]; [now rewrite String.eqb_refl|].
  destruct (String.eqb (chunk_id x) (chunk_id c)) eqn:E; [|auto].
  apply String.eqb_eq in E. exfalso. apply Hnotin. rewrite E.
  now apply in_map.
Qed.

Lemma inject_Z_nonzero (n : Z) : (0 < n)%Z -> ~ inject_Z n == 0.
Proof.
  intros H E. unfold Qeq in E. simpl in E. lia.
Qed.

Lemma reciprocal_pos (n : Z) : (0 < n)%Z -> 0 < 1 / inject_Z n.
Proof.
  intros H. apply Qlt_shift_div_l.
  - unfold Qlt. simpl. lia.
  - rewrite Qmult_0_l. reflexivity.
Qed.

(** What the first loop of [_rrf_merge] leaves in its two
    dictionaries. *)
Lemma vector_pass_spec k : forall l rank scores cmap,
  (0 < k + rank)%Z ->
  NoDup (map chunk_id l) ->
  exists scores' cmap',
    vector_pass k rank l scores cmap = Ok (scores', cmap') /\
    (forall cid,
        dict_get cid scores'
        = match rank_from rank cid l with
          | Some r => Some (dict_get_or cid scores 0
                            + 1 / inject_Z (k + r))
          | None => dict_get cid scores
          end) /\
    (forall cid,
        dict_get cid cmap'
        = match find_chunk cid l with
          | Some c => Some c
          | None => dict_get cid cmap
          end) /\
    (NoDup (dict_keys scores) -> NoDup (dict_keys scores')).
Proof.
  induction l as [|c l IH]; intros rank scores cmap Hk Hnd.
  - exists scores, cmap. simpl. auto.
  - inversion Hnd as [|? ? Hnotin Hnd']; subst.
    cbn [vector_pass].
    rewrite (divide_ok 1 (inject_Z (k + rank)))
      by now apply inject_Z_nonzero.
    cbn [bind].
    edestruct (IH (rank + 1)%Z) as (scores' & cmap' & Hrun & Hs & Hc & Hn);
      [lia | exact Hnd' | ].
    exists scores', cmap'. split; [exact Hrun|]. split; [|split].
    + intros cid. rewrite Hs. cbn [rank_from]. unfold dict_get_or.
      destruct (String.eqb (chunk_id c) cid) eqn:E.
      * apply String.eqb_eq in E. subst cid.
        apply (rank_from_None (chunk_id c) l (rank + 1)%Z) in Hnotin.
        rewrite Hnotin, dict_get_set_same. reflexivity.
      * apply String.eqb_neq in E.
        rewrite dict_get_set_other by congruence. reflexivity.
    + intros cid. rewrite Hc. unfold find_chunk. cbn [find].
      fold (find_chunk cid l).
      destruct (String.eqb (chunk_id c) cid) eqn:E.
      * apply String.eqb_eq in E. subst cid.
        apply find_chunk_None in Hnotin.
        rewrite Hnotin, dict_get_set_same. reflexivity.
      * apply String.eqb_neq in E.
        rewrite dict_get_set_other by congruence. reflexivity.
    + intros H. apply Hn. now apply dict_keys_set_NoDup.
Qed.

(** What the second loop of [_rrf_merge] leaves. *)
Lemma keyword_pass_spec k : forall l rank scores cmap,
  (0 < k + rank)%Z ->
  NoDup (map chunk_id l) ->
  exists scores' cmap',
    keyword_pass k rank l scores cmap = Ok (scores', cmap') /\
    (forall cid,
        dict_get cid scores'
        = match rank_from rank cid l with
          | Some r => Some (dict_get_or cid scores 0
                            + 1 / inject_Z (k + r))
          | None => dict_get cid scores
          end) /\
    (forall cid,
        dict_get cid cmap'
        = match find_chunk cid l with
          | Some kw =>
              Some match dict_get cid cmap with
                   | Some c => set_keyword_info c (keyword_score kw)
                                 (match_highlights kw)
                   | None => kw
                   end
          | None => dict_get cid cmap
          end) /\
    (NoDup (dict_keys scores) -> NoDup (dict_keys scores')).
Proof.
  induction l as [|c l IH]; intros rank scores cmap Hk Hnd.
  - exists scores, cmap. simpl. auto.
  - inversion Hnd as [|? ? Hnotin Hnd']; subst.
    cbn [keyword_pass].
    rewrite (divide_ok 1 (inject_Z (k + rank)))
      by now apply inject_Z_nonzero.
    cbn [bind].
    edestruct (IH (rank + 1)%Z) as (scores' & cmap' & Hrun & Hs & Hc & Hn);
      [lia | exact Hnd' | ].
    exists scores', cmap'. split; [exact Hrun|]. split; [|split].
    + intros cid. rewrite Hs. cbn [rank_from]. unfold dict_get_or.
      destruct (String.eqb (chunk_id c) cid) eqn:E.
      * apply String.eqb_eq in E. subst cid.
        apply (rank_from_None (chunk_id c) l (rank + 1)%Z) in Hnotin.
        rewrite Hnotin, dict_get_set_same. reflexivity.
      * apply String.eqb_neq in E.
        rewrite dict_get_set_other by congruence. reflexivity.
    + intros cid. rewrite Hc. unfold find_chunk. cbn [find].
      fold (find_chunk cid l).
      destruct (String.eqb (chunk_id c) cid) eqn:E.
      * apply String.eqb_eq in E. subst cid.
        apply find_chunk_None in Hnotin. rewrite Hnotin.
        destruct (dict_get (chunk_id c) cmap);
          now rewrite dict_get_set_same.
      * apply String.eqb_neq in E.
        destruct (dict_get (chunk_id c) cmap);
          rewrite dict_get_set_other by congruence; reflexivity.
    + intros H. apply Hn. now apply dict_keys_set_NoDup.
Qed.

(** The last loop of [_rrf_merge] finds every key it looks up. *)
Lemma assign_scores_spec cmap : forall scores,
  (forall cid, In cid (dict_keys scores) -> dict_get cid cmap <> None) ->
  exists result,
    assign_scores scores cmap = Ok result /\
    forall c, In c result <->
      exists cid rrf c0,
        In (cid, rrf) scores /\ dict_get cid cmap = Some c0 /\
        c = set_rrf_score c0 (Num rrf).
Proof.
  induction scores as [|[cid rrf] scores IH]; intros H.
  - exists []. split; [reflexivity|]. intros c. split; [intros []|].
    intros (? & ? & ? & [] & _).
  - destruct IH as (result & Hrun & Hres).
    { intros cid' Hin. apply H. now right. }
    cbn [assign_scores].
    destruct (dict_get cid cmap) as [c0|] eqn:E.
    2:{ exfalso. apply (H cid); [now left | assumption]. }
    cbn [bind]. rewrite Hrun. cbn [bind].
    exists (set_rrf_score c0 (Num rrf) :: result). split; [reflexivity|].
    intros c. split.
    + intros [<-|Hin].
      * exists cid, rrf, c0. split; [now left | auto].
      * apply Hres in Hin as (cid' & rrf' & c0' & Hin & Hget & ->).
        exists cid', rrf', c0'. split; [now right | auto].
    + intros (cid' & rrf' & c0' & [Heq|Hin] & Hget & ->).
      * injection Heq as <- <-. left. congruence.
      * right. apply Hres. now exists cid', rrf', c0'.
Qed.

Section MergeTotal.
Variable P : RetrievedChunk -> Prop.
Hypothesis P_keyword_info :
  forall c score hl, P c -> P (set_keyword_info c score hl).

Lemma dict_get_or_nonneg (scores : dict Q) (cid : string) :
  (forall cid v, In (cid, v) scores -> 0 < v) ->
  0 <= dict_get_or cid scores 0.
Proof.
  intros H. unfold dict_get_or.
  destruct (dict_get cid scores) as [v|] eqn:E; [|lra].
  apply dict_get_Some_In, H in E. lra.
Qed.

(** One iteration of either loop of [_rrf_merge]. *)
Lemma merge_step scores cmap cid c term :
  0 < term -> chunk_id c = cid -> P c ->
  merge_invariant P scores cmap ->
  merge_invariant P
    (dict_set cid (dict_get_or cid scores 0 + term) scores)
    (dict_set cid c cmap).
Proof.
  intros Hterm Hid Hc (Hkeys & Hnd & Hval & Hpos).
  split; [|split; [|split]].
  - now rewrite !dict_keys_set, Hkeys.
  - now apply dict_keys_set_NoDup.
  - intros cid' c' Hin. apply dict_set_In in Hin as [[-> ->]|Hin]; auto.
  - intros cid' v Hin. apply dict_set_In in Hin as [[-> ->]|Hin].
    + pose proof (dict_get_or_nonneg scores cid Hpos). lra.
    + eapply Hpos, Hin.
Qed.

Lemma vector_pass_total k : forall l rank scores cmap,
  (0 < k + rank)%Z -> Forall P l ->
  merge_invariant P scores cmap ->
  exists scores' cmap',
    vector_pass k rank l scores cmap = Ok (scores', cmap') /\
    merge_invariant P scores' cmap' /\
    forall cid, In cid (dict_keys scores')
                <-> In cid (dict_keys scores) \/ In cid (map chunk_id l).
Proof.
  induction l as [|c l IH]; intros rank scores cmap Hk HP Hinv.
  - exists scores, cmap. cbn. split; [reflexivity|]. split; [assumption|].
    tauto.
  - inversion HP as [|? ? Hc HP']; subst.
    cbn [vector_pass].
    rewrite (divide_ok 1 (inject_Z (k + rank)))
      by now apply inject_Z_nonzero.
    cbn [bind].
    match goal with
    | |- context [vector_pass k (rank + 1)%Z l ?s ?m] =>
        destruct (IH (rank + 1)%Z s m) as (scores' & cmap' & Hrun & Hinv' & Hmem)
    end;
      [lia | exact HP' | apply (merge_step scores cmap (chunk_id c) c);
                         [apply reciprocal_pos; lia | reflexivity
                          | exact Hc | exact Hinv] |].
    exists scores', cmap'. split; [exact Hrun|]. split; [exact Hinv'|].
    intros cid. rewrite Hmem, dict_keys_set_In. cbn [map In].
    split; [intros [[->|H]|H] | intros [H|[<-|H]]]; auto.
Qed.

Lemma keyword_pass_total k : forall l rank scores cmap,
  (0 < k + rank)%Z -> Forall P l ->
  merge_invariant P scores cmap ->
  exists scores' cmap',
    keyword_pass k rank l scores cmap = Ok (scores', cmap') /\
    merge_invariant P scores' cmap' /\
    forall cid, In cid (dict_keys scores')
                <-> In cid (dict_keys scores) \/ In cid (map chunk_id l).
Proof.
  induction l as [|c l IH]; intros rank scores cmap Hk HP Hinv.
  - exists scores, cmap. cbn. split; [reflexivity|]. split; [assumption|].
    tauto.
  - inversion HP as [|? ? Hc HP']; subst.
    cbn [keyword_pass].
    rewrite (divide_ok 1 (inject_Z (k + rank)))
      by now apply inject_Z_nonzero.
    cbn [bind].
    assert (Hterm : 0 < 1 / inject_Z (k + rank))
      by (apply reciprocal_pos; lia).
    assert (Hnext : merge_invariant P
              (dict_set (chunk_id c)
                 (dict_get_or (chunk_id c) scores 0 + 1 / inject_Z (k + rank))
                 scores)
              match dict_get (chunk_id c) cmap with
              | Some c0 =>
                  dict_set (chunk_id c)
                    (set_keyword_info c0 (keyword_score c)
                       (match_highlights c)) cmap
              | None => dict_set (chunk_id c) c cmap
              end).
    { destruct (dict_get (chunk_id c) cmap) as [c0|] eqn:E.
      - apply dict_get_Some_In in E.
        destruct (proj1 (proj2 (proj2 Hinv)) _ _ E) as [Hid HP0].
        apply merge_step; auto.
      - now apply merge_step. }
    edestruct (IH (rank + 1)%Z) as (scores' & cmap' & Hrun & Hinv' & Hmem);
      [lia | exact HP' | exact Hnext |].
    exists scores', cmap'. split; [exact Hrun|]. split; [exact Hinv'|].
    intros cid. rewrite Hmem, dict_keys_set_In. cbn [map In].
    split; [intros [[->|H]|H] | intros [H|[<-|H]]]; auto.
Qed.

(** The last loop of [_rrf_merge] never misses a key. *)
Lemma assign_scores_total cmap : forall scores,
  (forall cid c, In (cid, c) cmap -> chunk_id c = cid /\ P c) ->
  (forall cid v, In (cid, v) scores ->
                 In cid (dict_keys cmap) /\ 0 < v) ->
  exists result,
    assign_scores scores cmap = Ok result /\
    map chunk_id result = dict_keys scores /\
    Forall (fun c => (exists q, rrf_score c = Num q /\ 0 < q) /\
                     exists c0, P c0 /\ same_content c0 c) result.
Proof.
  intros scores Hval.
  induction scores as [|[cid rrf] scores IH]; intros Hs.
  - exists []. repeat split. constructor.
  - destruct IH as (result & Hrun & Hids & Hall).
    { intros cid' v Hin. apply Hs. now right. }
    destruct (Hs cid rrf) as [Hin Hpos]; [now left|].
    cbn [assign_scores].
    destruct (dict_get cid cmap) as [c0|] eqn:E.
    2:{ apply dict_get_None in E. contradiction. }
    cbn [bind]. rewrite Hrun. cbn [bind].
    apply dict_get_Some_In, Hval in E as [Hid HP0].
    exists (set_rrf_score c0 (Num rrf) :: result).
    split; [reflexivity|]. split.
    + cbn [map dict_keys fst chunk_id set_rrf_score].
      unfold dict_keys in Hids. now rewrite Hids, Hid.
    + constructor; [|exact Hall]. split; [now exists rrf|].
      exists c0. split; [exact HP0|]. repeat split.
Qed.
End MergeTotal.

(** [_rrf_merge] on any two ranked lists and any [k >= 0]. *)
Lemma rrf_merge_general (vr kr : list RetrievedChunk) (k : Z) :
  (0 <= k)%Z ->
  exists merged,
    _rrf_merge vr kr k = Ok merged /\
    NoDup (map chunk_id merged) /\
    (forall cid, In cid (map chunk_id merged)
                 <-> In cid (map chunk_id vr) \/ In cid (map chunk_id kr)) /\
    StronglySorted (fun a b => fle (rrf_score b) (rrf_score a)) merged /\
    Forall (fun c => (exists q, rrf_score c = Num q /\ 0 < q) /\
                     exists c0, In c0 (vr ++ kr) /\ same_content c0 c) merged.
Proof.
  intros Hk.
  set (P := fun c => exists c0, In c0 (vr ++ kr) /\ same_content c0 c).
  assert (HPkw : forall c score hl, P c -> P (set_keyword_info c score hl)).
  { intros c score hl (c0 & Hin & Hsame). exists c0. split; [exact Hin|].
    exact Hsame. }
  assert (HPin : forall l, (forall c, In c l -> In c (vr ++ kr)) -> Forall P l).
  { intros l Hl. apply Forall_forall. intros c Hc. exists c.
    split; [now apply Hl | repeat split]. }
  assert (Hinv0 : merge_invariant P [] []).
  { split; [reflexivity|]. split; [constructor|]. split; intros ? ? []. }
  destruct (vector_pass_total P k vr 1 [] [])
    as (s1 & m1 & Hrun1 & Hinv1 & Hmem1);
    [lia | apply HPin; intros; apply in_or_app; now left | exact Hinv0 |].
  destruct (keyword_pass_total P HPkw k kr 1 s1 m1)
    as (s2 & m2 & Hrun2 & Hinv2 & Hmem2);
    [lia | apply HPin; intros; apply in_or_app; now right | exact Hinv1 |].
  destruct Hinv2 as (Hkeys & Hnd & Hval & Hpos).
  destruct (assign_scores_total P m2 s2 Hval) as (result & Hrun3 & Hids & Hall).
  { intros cid v Hin. split; [|eapply Hpos, Hin].
    rewrite Hkeys. apply in_map_iff. now exists (cid, v). }
  unfold _rrf_merge. rewrite Hrun1. cbn [bind fst snd].
  rewrite Hrun2. cbn [bind fst snd]. rewrite Hrun3. cbn [bind].
  exists (sort_gt rrf_score result).
  assert (Hperm : Permutation (map chunk_id (sort_gt rrf_score result))
                    (dict_keys s2)).
  { rewrite <- Hids. apply Permutation_map, sort_gt_perm. }
  split; [reflexivity|]. split; [|split; [|split]].
  - apply (Permutation_NoDup (Permutation_sym Hperm) Hnd).
  - intros cid. split.
    + intros H. apply (Permutation_in _ Hperm), Hmem2 in H as [H|H]; [|auto].
      apply Hmem1 in H as [[]|H]. auto.
    + intros H. apply (Permutation_in _ (Permutation_sym Hperm)), Hmem2.
      destruct H as [H|H]; [left; apply Hmem1; now right | now right].
  - apply sort_gt_sorted. eapply Forall_impl; [|exact Hall].
    intros c [(q & -> & _) _]. reflexivity.
  - apply Forall_forall. intros c Hc. apply sort_gt_In in Hc.
    rewrite Forall_forall in Hall.
    destruct (Hall c Hc) as (Hpos' & c0 & (c1 & Hin & H1 & H2 & H3)
                             & H4 & H5 & H6).
    split; [exact Hpos'|]. exists c1. split; [exact Hin|].
    repeat split; congruence.
Qed.

(** The ids that [_rrf_merge] returns: those of either list, each
    once. *)
Lemma rrf_merge_ids (vr kr : list RetrievedChunk) (merged : list RetrievedChunk) :
  _rrf_merge vr kr RRF_K = Ok merged ->
  NoDup (map chunk_id merged) /\
  forall cid, In cid (map chunk_id merged)
              <-> In cid (map chunk_id vr) \/ In cid (map chunk_id kr).
Proof.
  intros Hrun.
  destruct (rrf_merge_general vr kr RRF_K)
    as (merged' & Hrun' & Hnd & Hmem & _); [unfold RRF_K; lia|].
  assert (E : merged' = merged) by congruence. subst merged'. now split.
Qed.

(** [_rrf_merge] on two lists without repeated ids: it returns, and
    each chunk returned carries the sum of the terms of the lists that
    hold its id. *)
Lemma rrf_merge_spec (vr kr : list RetrievedChunk) :
  NoDup (map chunk_id vr) -> NoDup (map chunk_id kr) ->
  exists merged,
    _rrf_merge vr kr RRF_K = Ok merged /\
    StronglySorted (fun a b => fle (rrf_score b) (rrf_score a)) merged /\
    (forall c, In c merged ->
       (In (chunk_id c) (map chunk_id vr) \/ In (chunk_id c) (map chunk_id kr)) /\
       exists q, rrf_score c = Num q /\
                 q == rrf_term (chunk_id c) vr + rrf_term (chunk_id c) kr) /\
    (forall v kw, In v vr -> In kw kr -> chunk_id v = chunk_id kw ->
       exists rrf,
         In (mkRetrievedChunk (chunk_id v) (document v) (metadata v)
               (vector_score v) (keyword_score kw) (Num rrf)
               (match_highlights kw))
            merged /\
         rrf_term (chunk_id v) vr < rrf /\
         rrf_term (chunk_id v) kr < rrf).
Proof.
  intros Hvr Hkr. unfold _rrf_merge.
  destruct (vector_pass_spec RRF_K vr 1 [] [])
    as (s1 & m1 & Hrun1 & Hs1 & Hm1 & Hn1); [reflexivity | assumption |].
  destruct (keyword_pass_spec RRF_K kr 1 s1 m1)
    as (s2 & m2 & Hrun2 & Hs2 & Hm2 & Hn2); [reflexivity | assumption |].
  rewrite Hrun1. cbn [bind fst snd]. rewrite Hrun2. cbn [bind fst snd].
  assert (Hkeys : forall cid, In cid (dict_keys s2) -> dict_get cid m2 <> None).
  { intros cid Hin Hnone. apply (proj1 (dict_get_None cid s2)); [|exact Hin].
    rewrite Hs2, Hs1. rewrite Hm2, Hm1 in Hnone. cbn [dict_get] in *.
    destruct (find_chunk cid kr) eqn:Ek; [discriminate|].
    destruct (find_chunk cid vr) eqn:Ev; [discriminate|].
    apply find_chunk_None in Ek, Ev.
    apply (rank_from_None cid kr 1%Z) in Ek.
    apply (rank_from_None cid vr 1%Z) in Ev.
    now rewrite Ek, Ev. }
  destruct (assign_scores_spec m2 s2 Hkeys) as (result & Hrun3 & Hres).
  rewrite Hrun3. cbn [bind].
  exists (sort_gt rrf_score result).
  assert (Hnd2 : NoDup (dict_keys s2)) by (apply Hn2, Hn1; constructor).
  split; [reflexivity|]. split.
  { apply sort_gt_sorted. apply Forall_forall. intros c Hc.
    apply Hres in Hc as (cid & rrf & c0 & _ & _ & ->). reflexivity. }
  split.
  - intros c Hin. apply sort_gt_In, Hres in Hin
      as (cid & rrf & c0 & Hin & Hget & ->).
    apply (dict_get_In cid rrf s2 Hnd2) in Hin.
    assert (Hid : chunk_id c0 = cid).
    { rewrite Hm2, Hm1 in Hget. cbn [dict_get] in Hget.
      destruct (find_chunk cid kr) as [kw|] eqn:Ek.
      - apply find_chunk_Some in Ek as [_ Ek].
        destruct (find_chunk cid vr) as [v|] eqn:Ev.
        + apply find_chunk_Some in Ev as [_ Ev].
          injection Hget as <-. exact Ev.
        + injection Hget as <-. exact Ek.
      - destruct (find_chunk cid vr) as [v|] eqn:Ev; [|discriminate].
        apply find_chunk_Some in Ev as [_ Ev]. injection Hget as <-.
        exact Ev. }
    cbn [chunk_id rrf_score set_rrf_score]. rewrite Hid.
    rewrite Hs2 in Hin. unfold dict_get_or in Hin. rewrite Hs1 in Hin.
    unfold dict_get_or in Hin. cbn [dict_get] in Hin.
    unfold rrf_term, rank_in.
    destruct (rank_from 1 cid kr) as [r2|] eqn:E2;
      destruct (rank_from 1 cid vr) as [r1|] eqn:E1;
      cbv beta iota in Hin; try discriminate;
      (assert (Hrrf : forall x : Q, Some x = Some rrf -> x = rrf)
         by (intros; congruence));
      apply Hrrf in Hin; clear Hrrf; subst rrf.
    + split; [left | eexists; split; [reflexivity | ring]].
      destruct (in_dec string_dec cid (map chunk_id vr)) as [H|H];
        [assumption|].
      apply (rank_from_None cid vr 1%Z) in H. congruence.
    + split; [right | eexists; split; [reflexivity | ring]].
      destruct (in_dec string_dec cid (map chunk_id kr)) as [H|H];
        [assumption|].
      apply (rank_from_None cid kr 1%Z) in H. congruence.
    + split; [left | eexists; split; [reflexivity | ring]].
      destruct (in_dec string_dec cid (map chunk_id vr)) as [H|H];
        [assumption|].
      apply (rank_from_None cid vr 1%Z) in H. congruence.
  - intros v kw Hv Hkw Eid.
    pose proof (find_chunk_In vr v Hvr Hv) as Fv.
    pose proof (find_chunk_In kr kw Hkr Hkw) as Fk.
    rewrite <- Eid in Fk.
    set (cid := chunk_id v) in *.
    destruct (rank_from 1 cid vr) as [r1|] eqn:E1.
    2:{ apply rank_from_None in E1. exfalso. apply E1. now apply in_map. }
    destruct (rank_from 1 cid kr) as [r2|] eqn:E2.
    2:{ apply rank_from_None in E2. exfalso. apply E2.
        rewrite Eid. now apply in_map. }
    pose proof (rank_from_ge _ _ _ _ E1) as G1.
    pose proof (rank_from_ge _ _ _ _ E2) as G2.
    assert (Hget_s : dict_get cid s2
                     = Some (0 + 1 / inject_Z (RRF_K + r1)
                             + 1 / inject_Z (RRF_K + r2))).
    { rewrite Hs2, E2. unfold dict_get_or. rewrite Hs1, E1.
      unfold dict_get_or. reflexivity. }
    assert (Hget_m : dict_get cid m2
                     = Some (set_keyword_info v (keyword_score kw)
                               (match_highlights kw))).
    { rewrite Hm2, Fk, Hm1, Fv. reflexivity. }
    exists (0 + 1 / inject_Z (RRF_K + r1) + 1 / inject_Z (RRF_K + r2)).
    split.
    + apply sort_gt_In, Hres.
      eexists cid, _, _. split; [apply dict_get_Some_In, Hget_s|].
      split; [exact Hget_m | reflexivity].
    + unfold rrf_term, rank_in. rewrite E1, E2.
      pose proof (reciprocal_pos (RRF_K + r1)) as P1.
      pose proof (reciprocal_pos (RRF_K + r2)) as P2.
      unfold RRF_K in *.
      specialize (P1 ltac:(lia)). specialize (P2 ltac:(lia)).
      split.
      * rewrite Qplus_0_l.
        rewrite <- (Qplus_0_r (1 / inject_Z (60 + r1))) at 1.
        now apply Qplus_lt_r.
      * rewrite Qplus_0_l.
        rewrite <- (Qplus_0_l (1 / inject_Z (60 + r2))) at 1.
        now apply Qplus_lt_l.
Qed.

Section Claims.
Context {re : Regex} {num : VectorDb.Numeric}.

(** C8 (as amended).  When the keyword channel ranks no chunk,
    [hybrid_retrieve] returns the first [top_k] chunks of the vector
    channel, which are
    the first [top_k] hits of [query_vectors] in its order, each with
    the similarity [max(0.0, 1.0 - distance)] of its hit as
    [vector_score] and as [rrf_score]; there are at most [top_k] of
    them.  When no vector of the record is at a NaN distance from the
    query, the hits are in ascending order of distance and the chunks
    returned in descending order of vector similarity.  ([top_k] is a
    count: the request model admits 1 to 20.) *)
Theorem vector_only_retrieval (s : VectorDb.store) (record query : string)
    (qe : list Q) (dc : dict (string * VectorDb.metadata))
    (top_k : Z) (vector_top_k : option Z) :
  (0 <= top_k)%Z ->
  keyword_channel query dc (vtk_of top_k vector_top_k) = [] ->
  exists hits vr result,
    VectorDb.query_vectors record qe (vtk_of top_k vector_top_k) s = Ok hits /\
    vector_channel s record qe dc (vtk_of top_k vector_top_k) = Ok vr /\
    hybrid_retrieve s record query qe dc top_k vector_top_k = Ok result /\
    result = take top_k (map (fun c => set_rrf_score c (vector_score c)) vr) /\
    map chunk_id result = map VectorDb.hit_id (take top_k hits) /\
    map vector_score result
    = map (fun h => fmax (Num 0) (fsub (Num 1) (VectorDb.hit_distance h)))
        (take top_k hits) /\
    (forall c, In c result -> rrf_score c = vector_score c) /\
    (len result <= top_k)%Z /\
    (VectorDb.no_nan_distance record qe s ->
     StronglySorted
       (fun a b => fle (VectorDb.hit_distance a) (VectorDb.hit_distance b))
       hits /\
     StronglySorted (fun a b => fle (vector_score b) (vector_score a)) result).
Proof.
  intros Hk Hkw.
  destruct (VectorDb.query_vectors record qe (vtk_of top_k vector_top_k) s)
    as [hits| |] eqn:Hq;
    try (rewrite query_vectors_ok in Hq; discriminate).
  assert (Hv : vector_channel s record qe dc (vtk_of top_k vector_top_k)
               = Ok (map (chunk_of_hit dc) hits)).
  { unfold vector_channel. now rewrite Hq. }
  exists hits, (map (chunk_of_hit dc) hits),
    (take top_k (map (fun c => set_rrf_score c (vector_score c))
                   (map (chunk_of_hit dc) hits))).
  split; [reflexivity|]. split; [exact Hv|].
  split; [|split; [reflexivity|split; [|split; [|split; [|split]]]]].
  - unfold hybrid_retrieve. rewrite Hv. cbn [bind]. rewrite Hkw.
    reflexivity.
  - rewrite <- !take_map, !map_map. f_equal. apply map_ext. intros h.
    cbn [chunk_id set_rrf_score]. apply chunk_of_hit_id.
  - rewrite <- !take_map, !map_map. f_equal. apply map_ext. intros h.
    cbn [vector_score set_rrf_score]. apply chunk_of_hit_score.
  - intros c Hin. apply take_In, in_map_iff in Hin as (c0 & <- & _).
    reflexivity.
  - now apply take_length.
  - intros Hnan. split; [exact (query_vectors_sorted _ _ _ _ _ Hnan Hq)|].
    apply take_sorted.
    apply (StronglySorted_map
             (fun a b => fle (vector_score b) (vector_score a))
             (fun c => set_rrf_score c (vector_score c))).
    exact (vector_channel_sorted _ _ _ _ _ _ Hnan Hv).
Qed.

(** X3.  Whatever the channels hold, a list returned by
    [hybrid_retrieve] has at most [top_k] chunks. *)
Theorem hybrid_retrieve_at_most_top_k (s : VectorDb.store)
    (record query : string) (qe : list Q)
    (dc : dict (string * VectorDb.metadata))
    (top_k : Z) (vector_top_k : option Z) (result : list RetrievedChunk) :
  (0 <= top_k)%Z ->
  hybrid_retrieve s record query qe dc top_k vector_top_k = Ok result ->
  (len result <= top_k)%Z.
Proof.
  intros Hk. unfold hybrid_retrieve. rewrite vector_channel_ok. cbn [bind].
  unfold fuse.
  destruct (keyword_channel query dc (vtk_of top_k vector_top_k)) as [|k0 kr].
  - intros [= <-]. now apply take_length.
  - destruct (map _ _) as [|v0 vr].
    + intros [= <-]. now apply take_length.
    + destruct (_rrf_merge (v0 :: vr) (k0 :: kr) RRF_K) as [merged| |];
        try discriminate.
      intros [= <-]. now apply take_length.
Qed.

(** C1.  When both channels rank at least one chunk, [hybrid_retrieve]
    returns the first [top_k] chunks of [_rrf_merge].  The merged list
    holds every id of either ranked list exactly once, in descending
    order of fused score.  The fused score of every merged chunk is
    the sum of [1 / (60 + rank)] over the ranked lists that hold its
    id (ranks from 1).  For an id held by both lists the merged chunk
    is the chunk of the vector list with the keyword score and the
    highlights of the chunk of the keyword list, and its fused score
    is strictly above either term.  The ids of a channel are distinct
    because ids are the primary key of the store and the keys of the
    dictionary of decrypted chunks. *)
Theorem rrf_fusion (s : VectorDb.store) (record query : string)
    (qe : list Q) (dc : dict (string * VectorDb.metadata))
    (top_k : Z) (vector_top_k : option Z)
    (vr kr : list RetrievedChunk) :
  VectorDb.unique_ids s ->
  NoDup (dict_keys dc) ->
  vector_channel s record qe dc (vtk_of top_k vector_top_k) = Ok vr ->
  keyword_channel query dc (vtk_of top_k vector_top_k) = kr ->
  vr <> [] -> kr <> [] ->
  exists merged,
    _rrf_merge vr kr RRF_K = Ok merged /\
    hybrid_retrieve s record query qe dc top_k vector_top_k
    = Ok (take top_k merged) /\
    (forall c, In c (take top_k merged) -> In c merged) /\
    NoDup (map chunk_id merged) /\
    (forall cid, In cid (map chunk_id merged)
                 <-> In cid (map chunk_id vr) \/ In cid (map chunk_id kr)) /\
    StronglySorted (fun a b => fle (rrf_score b) (rrf_score a)) merged /\
    (forall c, In c merged ->
       (In (chunk_id c) (map chunk_id vr)
        \/ In (chunk_id c) (map chunk_id kr)) /\
       exists q, rrf_score c = Num q /\
                 q == rrf_term (chunk_id c) vr + rrf_term (chunk_id c) kr) /\
    (forall v kw, In v vr -> In kw kr -> chunk_id v = chunk_id kw ->
       exists rrf,
         In (mkRetrievedChunk (chunk_id v) (document v) (metadata v)
               (vector_score v) (keyword_score kw) (Num rrf)
               (match_highlights kw))
            merged /\
         rrf_term (chunk_id v) vr < rrf /\
         rrf_term (chunk_id v) kr < rrf).
Proof.
  intros Huniq Hdc Hv Hk Hvne Hkne.
  pose proof (vector_channel_NoDup _ _ _ _ _ _ Huniq Hv) as Hnv.
  pose proof (keyword_channel_NoDup query dc (vtk_of top_k vector_top_k) Hdc)
    as Hnk.
  rewrite Hk in Hnk.
  destruct (rrf_merge_spec vr kr Hnv Hnk)
    as (merged & Hrun & Hsorted & Hscore & Hboth).
  destruct (rrf_merge_ids vr kr merged Hrun) as [Hnd Hmem].
  exists merged. split; [exact Hrun|].
  split; [|split; [intros c; apply take_In | auto 10]].
  unfold hybrid_retrieve. rewrite Hv. cbn [bind]. rewrite Hk.
  unfold fuse. destruct kr as [|k0 kr]; [contradiction|].
  destruct vr as [|v0 vr]; [contradiction|].
  rewrite Hrun. reflexivity.
Qed.
End Claims.

(** *** The retriever on the example of the specification *)

Lemma example_chunks_NoDup : NoDup (dict_keys example_chunks).
Proof.
  unfold dict_keys, example_chunks. simpl.
  repeat constructor; simpl; intuition discriminate.
Qed.

(** [c1] matches the phrase and the word and is nearest to the query
    vector: it comes first; [c2] follows. *)
Example hybrid_retrieve_example :
  exists result,
    hybrid_retrieve (re := ascii_regex) (num := VectorDb.approx_numeric)
      VectorDb.example_store "rec_1" example_query [1; 0] example_chunks 5 None
    = Ok result /\
    map chunk_id result = ["c1"; "c2"]%string /\
    Forall2 fsame (map rrf_score result)
      [Num ((1 # 61) + (1 # 61)); Num (1 # 62)].
Proof.
  eexists. split; [vm_compute; reflexivity|].
  split; [reflexivity|].
  repeat constructor; reflexivity.
Qed.

Lemma hybrid_retrieve_at_most_top_k_witness :
  exists result,
    hybrid_retrieve (re := ascii_regex) (num := VectorDb.approx_numeric)
      VectorDb.example_store "rec_1" example_query [1; 0] example_chunks 1 None
    = Ok result /\ (len result <= 1)%Z.
Proof.
  eexists.
  assert (H : hybrid_retrieve (re := ascii_regex)
                (num := VectorDb.approx_numeric) VectorDb.example_store
                "rec_1" example_query [1; 0] example_chunks 1 None = Ok _)
    by (vm_compute; reflexivity).
  split; [exact H|].
  exact (hybrid_retrieve_at_most_top_k (re := ascii_regex)
           (num := VectorDb.approx_numeric) _ _ _ _ _ 1 None _
           ltac:(lia) H).
Defined.

Lemma vector_only_retrieval_witness :
  keyword_channel (re := ascii_regex) "zebra" example_chunks (vtk_of 5 None)
  = [] /\
  VectorDb.no_nan_distance (num := VectorDb.approx_numeric) "rec_1" [1; 0]
    VectorDb.example_store /\
  exists result,
    hybrid_retrieve (re := ascii_regex) (num := VectorDb.approx_numeric)
      VectorDb.example_store "rec_1" "zebra" [1; 0] example_chunks 5 None
    = Ok result /\
    map chunk_id result = ["c1"; "c2"]%string /\
    (forall c, In c result -> rrf_score c = vector_score c) /\
    (len result <= 5)%Z /\
    StronglySorted (fun a b => fle (vector_score b) (vector_score a)) result.
Proof.
  assert (Hnan : VectorDb.no_nan_distance (num := VectorDb.approx_numeric)
                   "rec_1" [1; 0] VectorDb.example_store)
    by (repeat constructor).
  split; [reflexivity|]. split; [exact Hnan|].
  destruct (vector_only_retrieval (re := ascii_regex)
              (num := VectorDb.approx_numeric) VectorDb.example_store
              "rec_1" "zebra" [1; 0] example_chunks 5 None)
    as (hits & vr & result & Hq & Hv & Hr & Heq & Hids & _ & Hscore & Hlen
        & Hsorted);
    [lia | reflexivity |].
  exists result. split; [exact Hr|]. split; [|split; [exact Hscore|split]].
  - rewrite Hids. rewrite query_vectors_ok in Hq. injection Hq as <-.
    reflexivity.
  - exact Hlen.
  - exact (proj2 (Hsorted Hnan)).
Defined.

(** C8, the claim as worded fails.  A vector of the record whose
    square overflows float32 is at a NaN distance from the query.  The sort of [query_vectors] leaves it in
    front, it gets similarity 0.0, and the chunk after it has a greater
    vector score. *)
Lemma vector_only_retrieval_unordered :
  keyword_channel (re := ascii_regex) "zebra" overflow_chunks (vtk_of 5 None)
  = [] /\
  exists result,
    hybrid_retrieve (re := ascii_regex) (num := VectorDb.approx_numeric)
      VectorDb.overflow_store "rec_9" "zebra" [VectorDb.two_to_40; 0]
      overflow_chunks 5 None
    = Ok result /\
    map chunk_id result = ["n1"; "n2"; "n3"]%string /\
    Forall2 fsame (map vector_score result) [Num 0; Num 1; Num 0] /\
    ~ StronglySorted (fun a b => fle (vector_score b) (vector_score a)) result.
Proof.
  split; [reflexivity|].
  eexists. split; [vm_compute; reflexivity|].
  split; [reflexivity|]. split; [repeat constructor; reflexivity|].
  intros H. inversion H as [|? ? _ Hall]; subst.
  inversion Hall as [|? ? Hle _]; subst.
  vm_compute in Hle. discriminate.
Qed.

Lemma rrf_fusion_witness :
  exists vr kr merged,
    vector_channel (num := VectorDb.approx_numeric) VectorDb.example_store
      "rec_1" [1; 0] example_chunks (vtk_of 5 None) = Ok vr /\
    keyword_channel (re := ascii_regex) example_query example_chunks
      (vtk_of 5 None) = kr /\
    vr <> [] /\ kr <> [] /\
    _rrf_merge vr kr RRF_K = Ok merged /\
    hybrid_retrieve (re := ascii_regex) (num := VectorDb.approx_numeric)
      VectorDb.example_store "rec_1" example_query [1; 0] example_chunks 5 None
    = Ok (take 5 merged).
Proof.
  eexists. eexists.
  assert (Hv : vector_channel (num := VectorDb.approx_numeric)
                 VectorDb.example_store "rec_1" [1; 0] example_chunks
                 (vtk_of 5 None) = Ok _)
    by (vm_compute; reflexivity).
  assert (Hk : keyword_channel (re := ascii_regex) example_query
                 example_chunks (vtk_of 5 None) = _)
    by (vm_compute; reflexivity).
  destruct (rrf_fusion (re := ascii_regex) (num := VectorDb.approx_numeric)
              VectorDb.example_store "rec_1" example_query [1; 0]
              example_chunks 5 None _ _
              VectorDbProps.example_store_unique example_chunks_NoDup Hv Hk)
    as (merged & Hm & Hr & _); [discriminate | discriminate |].
  exists merged. repeat split; try assumption; discriminate.
Defined.

(** *** The keyword channel *)

Lemma Qltb_0_min_1 (x : Q) : Qltb 0 (min_ x 1) = Qltb 0 x.
Proof.
  unfold min_. destruct (Qltb 1 x) eqn:E; [|reflexivity].
  apply Qltb_true in E. symmetry. apply Qltb_true. lra.
Qed.

Section MoreClaims.
Context {re : Regex} {num : VectorDb.Numeric}.

(** The loop of [_score_chunk_regex] over patterns of positive weight:
    the total stays between 0 and the largest total possible, and is
    positive as soon as one pattern matches. *)
Lemma score_loop_spec t : forall patterns total maxp hl,
  Forall (fun pw => 0 < snd pw) patterns ->
  0 <= total <= maxp ->
  exists total' maxp' hl',
    score_loop t patterns (total, maxp, hl) = (total', maxp', hl') /\
    0 <= total' <= maxp' /\
    (patterns <> [] -> 0 < maxp') /\ maxp <= maxp' /\
    (0 < total' <->
     0 < total \/ exists pw, In pw patterns /\ findall (fst pw) t <> []) /\
    (List.length hl' <= List.length hl + List.length patterns)%nat.
Proof.
  induction patterns as [|[pat w] rest IH]; intros total maxp hl Hw Hb.
  - exists total, maxp, hl. cbn [score_loop List.length].
    repeat split; try tauto; try lra; try lia.
    + intros [H|(pw & [] & _)]; exact H.
  - inversion Hw as [|? ? Hw0 Hw']; subst. cbn [snd] in Hw0.
    cbn [score_loop].
    set (matches := findall pat t).
    set (count := Z.min (len matches) 3).
    assert (Hc : 0 <= inject_Z count <= 3).
    { split.
      - change 0 with (inject_Z 0). rewrite <- Zle_Qle. unfold count, len. lia.
      - change 3 with (inject_Z 3). rewrite <- Zle_Qle. unfold count. lia. }
    assert (Hcpos : 0 < inject_Z count <-> matches <> []).
    { change 0 with (inject_Z 0). rewrite <- Zlt_Qlt. unfold count, len.
      destruct matches; cbn [List.length]; split; intros H;
        try lia; try discriminate; congruence. }
    assert (Hprod : 0 <= w * inject_Z count <= w * 3) by nra.
    assert (Hprod' : 0 < w * inject_Z count <-> matches <> []).
    { rewrite <- Hcpos. split; intros H; nra. }
    match goal with
    | |- context [score_loop t rest (?a, ?b, ?c)] =>
        destruct (IH a b c Hw') as (total' & maxp' & hl' & Hrun & Hb' & Hpos
                                    & Hmono & Hiff & Hlen); [lra|]
    end.
    exists total', maxp', hl'. split; [exact Hrun|].
    split; [exact Hb'|]. split; [intros _; nra|]. split; [nra|]. split.
    + rewrite Hiff. split.
      * intros [H|(pw & Hin & Hm)].
        -- destruct (Qlt_le_dec 0 total) as [Ht|Ht]; [now left|].
           right. exists (pat, w). split; [now left|]. cbn [fst].
           apply Hprod'. lra.
        -- right. exists pw. split; [now right | exact Hm].
      * intros [H|(pw & [<-|Hin] & Hm)].
        -- left. lra.
        -- left. cbn [fst] in Hm. apply Hprod' in Hm. lra.
        -- right. now exists pw.
    + etransitivity; [exact Hlen|]. cbn [List.length].
      destruct matches; [lia|].
      destruct (search pat t); [rewrite length_app; cbn [List.length]|]; lia.
Qed.

Lemma compile_all_weight (w : Q) (words : list string) :
  Forall (fun pw => snd pw = w) (compile_all w words).
Proof.
  unfold compile_all. induction words as [|x words IH]; cbn [flat_map];
    [constructor|].
  destruct (compile_word x); cbn [app]; [constructor|]; auto.
Qed.

(** [_build_regex_patterns] gives weights 1 and 1/2. *)
Lemma build_regex_patterns_weights phrases keywords :
  Forall (fun pw => 0 < snd pw) (_build_regex_patterns phrases keywords).
Proof.
  unfold _build_regex_patterns. apply Forall_app. split.
  - eapply Forall_impl; [|apply compile_all_weight].
    intros pw ->. reflexivity.
  - eapply Forall_impl; [|apply compile_all_weight].
    intros pw ->. reflexivity.
Qed.

Lemma score_chunk_regex_spec t patterns :
  Forall (fun pw => 0 < snd pw) patterns ->
  0 <= fst (_score_chunk_regex t patterns) <= 1 /\
  (0 < fst (_score_chunk_regex t patterns) <->
   exists pw, In pw patterns /\ findall (fst pw) t <> []) /\
  (List.length (snd (_score_chunk_regex t patterns))
   <= List.length patterns)%nat.
Proof.
  intros Hw. destruct patterns as [|p ps].
  - cbn [_score_chunk_regex fst snd List.length]. split; [lra|]. split; [|lia].
    split; [intros H; lra | intros (pw & [] & _)].
  - destruct (score_loop_spec t (p :: ps) 0 0 [] Hw)
      as (total & maxp & hl & Hrun & Hb & Hpos & _ & Hiff & Hlen); [lra|].
    specialize (Hpos ltac:(discriminate)).
    unfold _score_chunk_regex. rewrite Hrun.
    replace (Qltb 0 maxp) with true by (symmetry; now apply Qltb_true).
    cbn [fst snd].
    assert (Hs0 : 0 <= total / maxp).
    { apply Qle_shift_div_l; [assumption | lra]. }
    assert (Hs1 : total / maxp <= 1).
    { apply Qle_shift_div_r; [assumption | lra]. }
    assert (Hmin : min_ (total / maxp) 1 = total / maxp).
    { unfold min_. destruct (Qltb 1 (total / maxp)) eqn:E; [|reflexivity].
      apply Qltb_true in E. lra. }
    rewrite Hmin. split; [split; assumption|]. split; [|exact Hlen].
    split.
    + intros H.
      assert (Ht : 0 < total).
      { destruct (Qlt_le_dec 0 total) as [Ht|Ht]; [exact Ht|].
        exfalso. apply (Qlt_not_le _ _ H).
        apply Qle_shift_div_r; [assumption | lra]. }
      apply Hiff in Ht as [Hz|Hex]; [lra | exact Hex].
    + intros Hex.
      assert (Ht : 0 < total) by (apply Hiff; now right).
      apply Qlt_shift_div_l; [assumption | lra].
Qed.
End MoreClaims.

Section KeywordChannel.
Context {re : Regex} {num : VectorDb.Numeric}.

(** A chunk that the loop over [decrypted_chunks.items()] appends. *)
Lemma scored_chunk_In patterns (dc : dict (string * VectorDb.metadata)) c :
  In c (flat_map (scored_chunk patterns) dc) ->
  In (chunk_id c, (document c, metadata c)) dc /\
  vector_score c = Num 0 /\
  keyword_score c = fst (_score_chunk_regex (document c) patterns) /\
  0 < keyword_score c.
Proof.
  intros H. apply in_flat_map in H as ([cid [t m]] & Hin & Hc).
  unfold scored_chunk in Hc.
  destruct (_score_chunk_regex t patterns) as [score hl] eqn:E.
  destruct (Qltb 0 score) eqn:Hs; [|contradiction].
  destruct Hc as [<-|[]]. cbn. rewrite E. cbn [fst].
  repeat split; try assumption. now apply Qltb_true.
Qed.

(** X12.  The keyword score that [_score_chunk_regex] gives a text for
    the patterns of [_build_regex_patterns] lies between 0 and 1; it is
    positive exactly when one of the patterns matches somewhere in the
    text; and there is at most one highlight per pattern. *)
Theorem score_chunk_regex_bounds (t : string) (phrases keywords : list string) :
  0 <= fst (_score_chunk_regex t (_build_regex_patterns phrases keywords)) <= 1
  /\
  (0 < fst (_score_chunk_regex t (_build_regex_patterns phrases keywords)) <->
   exists pw, In pw (_build_regex_patterns phrases keywords)
              /\ findall (fst pw) t <> []) /\
  (List.length
     (snd (_score_chunk_regex t (_build_regex_patterns phrases keywords)))
   <= List.length phrases + List.length keywords)%nat.
Proof.
  destruct (score_chunk_regex_spec t _
              (build_regex_patterns_weights phrases keywords))
    as (Hb & Hiff & Hlen).
  split; [exact Hb|]. split; [exact Hiff|].
  etransitivity; [exact Hlen|].
  unfold _build_regex_patterns. rewrite length_app.
  assert (H : forall w l, (List.length (compile_all w l) <= List.length l)%nat).
  { intros w l. unfold compile_all.
    induction l as [|x l IH]; cbn [flat_map List.length]; [lia|].
    rewrite length_app. destruct (compile_word x); cbn [List.length]; lia. }
  pose proof (H 1 phrases). pose proof (H (1 # 2) keywords). lia.
Qed.

(** The keyword channel: its order, its length, where its chunks come
    from. *)
Lemma keyword_channel_spec (query : string)
    (dc : dict (string * VectorDb.metadata)) (vtk : Z) :
  StronglySorted (fun a b => keyword_score b <= keyword_score a)
    (keyword_channel query dc vtk) /\
  ((0 <= vtk)%Z -> (len (keyword_channel query dc vtk) <= vtk)%Z) /\
  Forall (fun c =>
            In (chunk_id c, (document c, metadata c)) dc /\
            0 < keyword_score c <= 1 /\ vector_score c = Num 0 /\
            exists pw,
              In pw (_build_regex_patterns
                       (fst (_extract_query_terms query))
                       (snd (_extract_query_terms query))) /\
              findall (fst pw) (document c) <> [])
    (keyword_channel query dc vtk).
Proof.
  unfold keyword_channel.
  destruct (_extract_query_terms query) as [phrases keywords]. cbn [fst snd].
  pose proof (build_regex_patterns_weights phrases keywords) as Hw.
  destruct (_build_regex_patterns phrases keywords) as [|p ps] eqn:Ep.
  - split; [constructor|]. split; [intros; unfold len; simpl; lia|]. constructor.
  - split; [apply take_sorted, sort_desc_sorted|].
    split; [apply take_length|].
    apply Forall_forall. intros c Hc.
    apply take_In, sort_desc_In, scored_chunk_In in Hc as (Hin & Hv & Hk & Hpos).
    destruct (score_chunk_regex_spec (document c) (p :: ps) Hw)
      as (Hb & Hiff & _).
    rewrite <- Hk in Hb, Hiff.
    repeat split; try assumption; try apply Hb. now apply Hiff.
Qed.

(** X13.  The keyword channel of [hybrid_retrieve] is in descending
    order of keyword score and, for [vtk >= 0], holds at most [vtk]
    chunks.  Each of its chunks is an entry of [decrypted_chunks] (its
    id, text and metadata), in whose text a pattern of the query
    matches; its keyword score is positive and at most 1, its vector
    score 0. *)
Theorem keyword_channel_matches (query : string)
    (dc : dict (string * VectorDb.metadata)) (vtk : Z) :
  StronglySorted (fun a b => keyword_score b <= keyword_score a)
    (keyword_channel query dc vtk) /\
  ((0 <= vtk)%Z -> (len (keyword_channel query dc vtk) <= vtk)%Z) /\
  Forall (fun c =>
            In (chunk_id c, (document c, metadata c)) dc /\
            0 < keyword_score c <= 1 /\ vector_score c = Num 0 /\
            exists pw,
              In pw (_build_regex_patterns
                       (fst (_extract_query_terms query))
                       (snd (_extract_query_terms query))) /\
              findall (fst pw) (document c) <> [])
    (keyword_channel query dc vtk).
Proof. apply keyword_channel_spec. Qed.

(** X14.  When the collection of the record holds no vector,
    [hybrid_retrieve] returns the first [top_k] chunks of the keyword
    channel: in descending order of keyword score, each with
    [rrf_score] equal to its [keyword_score], which is positive. *)
Theorem keyword_only_retrieval (s : VectorDb.store) (record query : string)
    (qe : list Q) (dc : dict (string * VectorDb.metadata))
    (top_k : Z) (vector_top_k : option Z) :
  VectorDb.rows_of record s = [] ->
  exists result,
    hybrid_retrieve s record query qe dc top_k vector_top_k = Ok result /\
    result
    = take top_k
        (map (fun c => set_rrf_score c (Num (keyword_score c)))
           (keyword_channel query dc (vtk_of top_k vector_top_k))) /\
    StronglySorted (fun a b => fle (rrf_score b) (rrf_score a)) result /\
    forall c, In c result ->
      rrf_score c = Num (keyword_score c) /\ 0 < keyword_score c /\
      In (chunk_id c) (dict_keys dc).
Proof.
  intros Hrows. eexists. split; [|split; [reflexivity|split]].
  - unfold hybrid_retrieve. rewrite vector_channel_ok, Hrows.
    cbn [map sort_lt]. rewrite take_nil. cbn [map bind]. unfold fuse.
    destruct (keyword_channel query dc (vtk_of top_k vector_top_k));
      [cbn [map]; now rewrite take_nil | reflexivity].
  - apply take_sorted.
    apply (StronglySorted_map (fun a b => fle (rrf_score b) (rrf_score a))
             (fun c => set_rrf_score c (Num (keyword_score c)))).
    eapply StronglySorted_impl;
      [|apply (proj1 (keyword_channel_spec query dc
                        (vtk_of top_k vector_top_k)))].
    intros a b H. apply fle_Num. exact H.
  - intros c Hc. apply take_In, in_map_iff in Hc as (c0 & <- & Hc0).
    cbn [rrf_score keyword_score set_rrf_score chunk_id].
    pose proof (proj2 (proj2 (keyword_channel_spec query dc
                               (vtk_of top_k vector_top_k)))) as Hall.
    rewrite Forall_forall in Hall.
    destruct (Hall c0 Hc0) as (Hin & [Hpos _] & _).
    split; [reflexivity|]. split; [exact Hpos|].
    apply in_map_iff. now exists (chunk_id c0, (document c0, metadata c0)).
Qed.
End KeywordChannel.

(** *** The fusion on any two lists *)

(** X15.  [_rrf_merge] never fails, whatever the two ranked lists hold
    (ids repeated or not) and for any [k >= 0]: no key is missing from
    its chunk map and no divisor is 0.  It returns every id of either
    list exactly once, in descending order of fused score; every fused
    score is positive, and every chunk returned shows the id, text and
    metadata of a chunk of one of the lists. *)
Theorem rrf_merge_total (vr kr : list RetrievedChunk) (k : Z) :
  (0 <= k)%Z ->
  exists merged,
    _rrf_merge vr kr k = Ok merged /\
    NoDup (map chunk_id merged) /\
    (forall cid, In cid (map chunk_id merged)
                 <-> In cid (map chunk_id vr) \/ In cid (map chunk_id kr)) /\
    StronglySorted (fun a b => fle (rrf_score b) (rrf_score a)) merged /\
    Forall (fun c => (exists q, rrf_score c = Num q /\ 0 < q) /\
                     exists c0, In c0 (vr ++ kr) /\ same_content c0 c) merged.
Proof. exact (rrf_merge_general vr kr k). Qed.

Lemma text_source_same_content s record dc c0 c :
  same_content c0 c -> text_source s record dc c0 -> text_source s record dc c.
Proof.
  intros (H1 & H2 & H3). unfold text_source. now rewrite H1, H2, H3.
Qed.

Section WholeRetrieval.
Context {re : Regex} {num : VectorDb.Numeric}.

Lemma vector_channel_source s record qe dc vtk vr :
  vector_channel s record qe dc vtk = Ok vr ->
  Forall (text_source s record dc) vr.
Proof.
  rewrite vector_channel_ok. intros [= <-].
  apply Forall_forall. intros c Hc.
  apply in_map_iff in Hc as (h & <- & Hh).
  apply take_In in Hh. apply sort_lt_In in Hh.
  apply in_map_iff in Hh as (r & <- & Hr).
  unfold text_source, chunk_of_hit, VectorDb.hit_of, VectorDb.score_row.
  cbn [VectorDb.hit_id VectorDb.hit_document VectorDb.hit_metadata].
  destruct (dict_get (VectorDb.id r) dc) as [[t m]|] eqn:E;
    cbn [chunk_id document metadata]; rewrite E; [reflexivity|].
  now exists r.
Qed.

Lemma keyword_channel_source s record query dc vtk :
  NoDup (dict_keys dc) ->
  Forall (text_source s record dc) (keyword_channel query dc vtk).
Proof.
  intros Hnd.
  eapply Forall_impl; [|apply (proj2 (proj2 (keyword_channel_spec query dc vtk)))].
  intros c (Hin & _). unfold text_source.
  now rewrite (dict_get_In _ _ _ Hnd Hin).
Qed.

(** [hybrid_retrieve] as a whole. *)
Lemma hybrid_retrieve_spec (s : VectorDb.store) (record query : string)
    (qe : list Q) (dc : dict (string * VectorDb.metadata))
    (top_k : Z) (vector_top_k : option Z) :
  NoDup (dict_keys dc) ->
  exists result,
    hybrid_retrieve s record query qe dc top_k vector_top_k = Ok result /\
    (VectorDb.unique_ids s -> NoDup (map chunk_id result)) /\
    Forall (text_source s record dc) result.
Proof.
  intros Hnd. unfold hybrid_retrieve.
  destruct (vector_channel s record qe dc (vtk_of top_k vector_top_k))
    as [vr| |] eqn:Hv;
    try (rewrite vector_channel_ok in Hv; discriminate).
  cbn [bind].
  pose proof (vector_channel_source _ _ _ _ _ _ Hv) as Hvs.
  pose proof (keyword_channel_source s record query dc
                (vtk_of top_k vector_top_k) Hnd) as Hks.
  pose proof (keyword_channel_NoDup query dc (vtk_of top_k vector_top_k) Hnd)
    as Hkn.
  assert (Hset : forall (f : RetrievedChunk -> float) l,
             map chunk_id (map (fun c => set_rrf_score c (f c)) l)
             = map chunk_id l).
  { intros f l. rewrite map_map. reflexivity. }
  assert (Hsrc : forall (f : RetrievedChunk -> float) l,
             Forall (text_source s record dc) l ->
             Forall (text_source s record dc)
               (take top_k (map (fun c => set_rrf_score c (f c)) l))).
  { intros f l Hl. rewrite Forall_forall in *. intros c Hc.
    apply take_In, in_map_iff in Hc as (c0 & <- & Hc0).
    apply (text_source_same_content _ _ _ c0); [repeat split | auto]. }
  unfold fuse.
  destruct (keyword_channel query dc (vtk_of top_k vector_top_k))
    as [|k0 kr] eqn:Ek.
  - eexists. split; [reflexivity|]. split; [|now apply Hsrc].
    intros Hu. rewrite <- take_map, Hset. apply take_NoDup.
    exact (vector_channel_NoDup _ _ _ _ _ _ Hu Hv).
  - destruct vr as [|v0 vr].
    + eexists. split; [reflexivity|].
      split; [|now apply (Hsrc (fun c => Num (keyword_score c)))].
      intros _.
      rewrite <- take_map, (Hset (fun c => Num (keyword_score c))).
      now apply take_NoDup.
    + destruct (rrf_merge_general (v0 :: vr) (k0 :: kr) RRF_K)
        as (merged & Hrun & Hmn & _ & _ & Hall); [unfold RRF_K; lia|].
      rewrite Hrun. cbn [bind]. eexists. split; [reflexivity|]. split.
      * intros _. rewrite <- take_map. now apply take_NoDup.
      * rewrite Forall_forall in *. intros c Hc. apply take_In in Hc.
        destruct (Hall c Hc) as (_ & c0 & Hin & Hsame).
        apply (text_source_same_content _ _ _ c0); [exact Hsame|].
        apply in_app_or in Hin as [Hin|Hin]; auto.
Qed.

(** X16.  [hybrid_retrieve] never fails, whatever the store, the query
    and the dictionary of decrypted chunks (its keys distinct, as a
    dictionary's are) hold.  Every chunk it returns carries the text
    and metadata that the dictionary holds under its id; only when the
    dictionary has no such key does it fall back on the document
    stored with a vector of the record asked for.  Under the primary
    key of the store no id is returned twice. *)
Theorem hybrid_retrieve_total (s : VectorDb.store) (record query : string)
    (qe : list Q) (dc : dict (string * VectorDb.metadata))
    (top_k : Z) (vector_top_k : option Z) :
  NoDup (dict_keys dc) ->
  exists result,
    hybrid_retrieve s record query qe dc top_k vector_top_k = Ok result /\
    (VectorDb.unique_ids s -> NoDup (map chunk_id result)) /\
    Forall (text_source s record dc) result.
Proof. apply hybrid_retrieve_spec. Qed.
End WholeRetrieval.

(** *** The added properties on the examples *)

Lemma keyword_only_retrieval_witness :
  VectorDb.rows_of "rec_3" VectorDb.example_store = [] /\
  exists result,
    hybrid_retrieve (re := ascii_regex) (num := VectorDb.approx_numeric)
      VectorDb.example_store "rec_3" example_query [1; 0] example_chunks 5 None
    = Ok result /\
    map chunk_id result = ["c1"%string] /\
    forall c, In c result ->
      rrf_score c = Num (keyword_score c) /\ 0 < keyword_score c /\
      In (chunk_id c) (dict_keys example_chunks).
Proof.
  split; [reflexivity|].
  destruct (keyword_only_retrieval (re := ascii_regex)
              (num := VectorDb.approx_numeric) VectorDb.example_store
              "rec_3" example_query [1; 0] example_chunks 5 None eq_refl)
    as (result & Hrun & Heq & _ & Hall).
  exists result. split; [exact Hrun|]. split; [|exact Hall].
  rewrite Heq. reflexivity.
Defined.

Lemma rrf_merge_total_witness :
  exists merged,
    _rrf_merge
      [ mkRetrievedChunk "c1" "first" [] (Num 1) 0 (Num 0) [];
        mkRetrievedChunk "c1" "again" [] (Num (1 # 2)) 0 (Num 0) [] ]
      [ mkRetrievedChunk "c2" "second" [] (Num 0) 1 (Num 0) [];
        mkRetrievedChunk "c1" "first" [] (Num 0) (1 # 2) (Num 0) [] ] RRF_K
    = Ok merged /\
    NoDup (map chunk_id merged) /\
    (forall cid, In cid (map chunk_id merged)
                 <-> In cid ["c1"; "c1"]%string \/ In cid ["c2"; "c1"]%string).
Proof.
  destruct (rrf_merge_total
              [ mkRetrievedChunk "c1" "first" [] (Num 1) 0 (Num 0) [];
                mkRetrievedChunk "c1" "again" [] (Num (1 # 2)) 0 (Num 0) [] ]
              [ mkRetrievedChunk "c2" "second" [] (Num 0) 1 (Num 0) [];
                mkRetrievedChunk "c1" "first" [] (Num 0) (1 # 2) (Num 0) [] ]
              RRF_K)
    as (merged & Hrun & Hnd & Hmem & _); [unfold RRF_K; lia|].
  exists merged. split; [exact Hrun|]. split; [exact Hnd | exact Hmem].
Defined.

Lemma hybrid_retrieve_total_witness :
  NoDup (dict_keys example_chunks) /\
  exists result,
    hybrid_retrieve (re := ascii_regex) (num := VectorDb.approx_numeric)
      VectorDb.example_store "rec_1" example_query [1; 0] example_chunks 5 None
    = Ok result /\
    Forall (text_source VectorDb.example_store "rec_1" example_chunks) result.
Proof.
  split; [exact example_chunks_NoDup|].
  destruct (hybrid_retrieve_total (re := ascii_regex)
              (num := VectorDb.approx_numeric) VectorDb.example_store
              "rec_1" example_query [1; 0] example_chunks 5 None
              example_chunks_NoDup)
    as (result & Hrun & _ & Hall).
  exists result. split; [exact Hrun | exact Hall].
Defined.

Lemma keyword_channel_matches_witness :
  StronglySorted (fun a b => keyword_score b <= keyword_score a)
    (keyword_channel (re := ascii_regex) example_query example_chunks 15) /\
  (len (keyword_channel (re := ascii_regex) example_query example_chunks 15)
   <= 15)%Z /\
  map chunk_id
    (keyword_channel (re := ascii_regex) example_query example_chunks 15)
  = ["c1"%string].
Proof.
  destruct (keyword_channel_matches (re := ascii_regex) example_query
              example_chunks 15) as (Hsorted & Hlen & _).
  split; [exact Hsorted|]. split; [apply Hlen; discriminate | reflexivity].
Defined.

End RetrievalProps.

(** ** The ingestion task *)

Module DocumentsProps.
Import Documents.

Lemma prefix_length (n : nat) (s : string) :
  (String.length (prefix n s) <= n)%nat.
Proof.
  unfold prefix. revert s. induction n as [|n IH]; intros [|c s]; simpl;
    try lia.
  specialize (IH s). lia.
Qed.

(** *** What the task leaves of the table [documents] *)

Lemma leaves_ret {A} (a : A) : leaves_documents (ret a).
Proof. intros w r w' [= <- <-]. reflexivity. Qed.

Lemma leaves_lift {A} (o : outcome A) : leaves_documents (lift o).
Proof. intros w r w' [= <- <-]. reflexivity. Qed.

Lemma leaves_bind {A B} (m : M A) (k : A -> M B) :
  leaves_documents m -> (forall a, leaves_documents (k a)) ->
  leaves_documents (bindM m k).
Proof.
  intros Hm Hk w r w' H. unfold bindM in H.
  destruct (m w) as [[a|e|] w1] eqn:E.
  - rewrite (Hk a _ _ _ H). exact (Hm _ _ _ E).
  - injection H as <- <-. exact (Hm _ _ _ E).
  - injection H as <- <-. exact (Hm _ _ _ E).
Qed.

Lemma leaves_with_db_cursor {A} (body : M A) :
  leaves_documents body -> leaves_documents (with_db_cursor body).
Proof.
  intros Hb w r w' H. unfold with_db_cursor in H.
  set (w0 := mkWorld _ _ _ _ _) in H.
  assert (Hbody : match body w0 with
                  | (Raise e, w1) =>
                      (Raise e, set_tables (documents w0) (chunks w0) w1)
                  | r => r
                  end = (r, w') ->
                  documents w' = documents w).
  { destruct (body w0) as [[a|e|] w1] eqn:E; intros [= <- <-].
    - exact (Hb _ _ _ E).
    - reflexivity.
    - exact (Hb _ _ _ E). }
  destruct (db_faults w) as [|[e|] rest]; auto.
  injection H as <- <-. reflexivity.
Qed.

(** A block that raises has written nothing. *)
Lemma with_db_cursor_on_raise {A} (body : M A) :
  leaves_documents_on_raise (with_db_cursor body).
Proof.
  intros w e w' H. unfold with_db_cursor in H.
  set (w0 := mkWorld _ _ _ _ _) in H.
  assert (Hbody : match body w0 with
                  | (Raise e, w1) =>
                      (Raise e, set_tables (documents w0) (chunks w0) w1)
                  | r => r
                  end = (Raise e, w') ->
                  documents w' = documents w).
  { destruct (body w0) as [[a|e0|] w1] eqn:E; intros H'; try discriminate.
    injection H' as _ <-. reflexivity. }
  destruct (db_faults w) as [|[e0|] rest]; auto.
  injection H as <- <-. reflexivity.
Qed.

Lemma on_raise_bind {A B} (m : M A) (k : A -> M B) :
  leaves_documents m -> (forall a, leaves_documents_on_raise (k a)) ->
  leaves_documents_on_raise (bindM m k).
Proof.
  intros Hm Hk w e w' H. unfold bindM in H.
  destruct (m w) as [[a|e0|] w1] eqn:E.
  - rewrite (Hk a _ _ _ H). exact (Hm _ _ _ E).
  - injection H as <- <-. exact (Hm _ _ _ E).
  - discriminate.
Qed.

(** An insert into [chunks], accepted or refused, writes nothing to
    [documents]. *)
Lemma leaves_insert_chunk (r : chunk_row) : leaves_documents (insert_chunk r).
Proof.
  intros w o w' H. unfold insert_chunk in H.
  destruct (existsb _ (chunks w)); [now injection H as <- <-|].
  destruct (existsb _ (documents w)); now injection H as <- <-.
Qed.

Section WithCollaborators.
Context {enc : Chunking.Encoding} {ext : Collaborators}.

Lemma leaves_store_chunks user_key document_id :
  forall cs ids texts,
    leaves_documents (store_chunks user_key document_id cs ids texts).
Proof.
  induction cs as [|c cs IH]; intros ids texts; cbn [store_chunks].
  - apply leaves_ret.
  - apply leaves_bind; [intros w r w' [= <- <-]; reflexivity|]. intros hex.
    apply leaves_bind; [apply leaves_lift|]. intros encrypted.
    apply leaves_bind; [apply leaves_insert_chunk|]. intros _.
    apply IH.
Qed.

Lemma leaves_add_vectors record ids es ds ms :
  leaves_documents (add_vectors record ids es ds ms).
Proof.
  intros w r w' H. unfold add_vectors in H.
  destruct (VectorDb.add_vectors record ids es ds ms (vectors w)).
  injection H as <- <-. reflexivity.
Qed.

(** The [try] block writes to the table [documents] only in the block
    it ends with: when it raises, the table is as it was. *)
Lemma process_steps_on_raise document_id record user_id raw_bytes extension
    filename encrypted_master_key :
  leaves_documents_on_raise
    (process_steps document_id record user_id raw_bytes extension filename
       encrypted_master_key).
Proof.
  unfold process_steps.
  apply on_raise_bind; [apply leaves_lift|]. intros user_key.
  apply on_raise_bind; [apply leaves_lift|]. intros pages.
  destruct pages as [|p pages]; [apply with_db_cursor_on_raise|].
  apply on_raise_bind; [apply leaves_lift|]. intros cs.
  destruct cs as [|c cs]; [apply with_db_cursor_on_raise|].
  apply on_raise_bind; [apply leaves_with_db_cursor, leaves_store_chunks|].
  intros [chunk_ids chunk_texts].
  apply on_raise_bind; [apply leaves_lift|]. intros embeddings.
  apply on_raise_bind; [apply leaves_add_vectors|]. intros _.
  apply with_db_cursor_on_raise.
Qed.

(** An exception of any of the collaborators leaves the [try] block
    as it is. *)
Lemma process_steps_raises_at_unwrap document_id record user_id raw_bytes
    extension filename encrypted_master_key e w :
  decrypt_master_key encrypted_master_key = Raise e ->
  process_steps document_id record user_id raw_bytes extension filename
    encrypted_master_key w = (Raise e, w).
Proof.
  intros H. unfold process_steps, bindM, lift. now rewrite H.
Qed.

Lemma process_steps_raises_at_extraction document_id record user_id
    raw_bytes extension filename encrypted_master_key key e w :
  decrypt_master_key encrypted_master_key = Ok key ->
  extract_text raw_bytes extension = Raise e ->
  process_steps document_id record user_id raw_bytes extension filename
    encrypted_master_key w = (Raise e, w).
Proof.
  intros H1 H2. unfold process_steps, bindM, lift. now rewrite H1, H2.
Qed.
End WithCollaborators.

Lemma find_map_with_error document_id error docs d :
  find (fun d => String.eqb (doc_id d) document_id)
    (map (fun d => if String.eqb (doc_id d) document_id
                   then with_error error d else d) docs) = Some d ->
  doc_status d = "error"%string /\ doc_error_message d = Some error.
Proof.
  induction docs as [|x docs IH]; simpl; [discriminate|].
  destruct (String.eqb (doc_id x) document_id) eqn:E; simpl; rewrite E.
  - intros [= <-]. split; reflexivity.
  - exact IH.
Qed.

Lemma find_is_some {A} (p : A -> bool) (l : list A) :
  find p l <> None <-> exists x, In x l /\ p x = true.
Proof.
  induction l as [|a l IH]; simpl.
  - split; [congruence | intros (? & [] & _)].
  - destruct (p a) eqn:E.
    + split; [|congruence]. intros _. exists a. auto.
    + rewrite IH. split.
      * intros (x & Hx & Hp). exists x. auto.
      * intros (x & [->|Hx] & Hp); [congruence|]. exists x. auto.
Qed.

Lemma find_map_with_error_some document_id error docs :
  find (fun d => String.eqb (doc_id d) document_id) docs <> None ->
  find (fun d => String.eqb (doc_id d) document_id)
    (map (fun d => if String.eqb (doc_id d) document_id
                   then with_error error d else d) docs) <> None.
Proof.
  intros H. apply find_is_some in H as (d & Hd & E).
  apply find_is_some.
  exists (with_error error d). split; [|exact E].
  apply in_map_iff. exists d. now rewrite E.
Qed.

Section Claims.
Context {enc : Chunking.Encoding} {ext : Collaborators}.

(** C7 (as amended).  Let the [try] block of the ingestion task raise
    an exception.  When it is an instance of [Exception] and the
    database does not fail the status update of the handler, the task
    returns normally: nothing propagates; the row of the document, and
    no other, is rewritten to status [error] with the text of the
    exception cut to at most 500 characters.  When it is not an
    instance of [Exception], the handler does not run: the exception
    leaves the task and the table [documents] is as it was before the
    task. *)
Theorem process_document_records_error
    (document_id record user_id raw_bytes extension filename
       encrypted_master_key : string)
    (w w1 : world) (e : py_exception) :
  process_steps document_id record user_id raw_bytes extension filename
    encrypted_master_key w = (Raise e, w1) ->
  (is_Exception e = true ->
   hd None (db_faults w1) = None ->
   exists w2,
     _process_document document_id record user_id raw_bytes extension
       filename encrypted_master_key w = (Ok tt, w2) /\
     documents w2
     = map (fun d => if String.eqb (doc_id d) document_id
                     then with_error (prefix 500 (str_of e)) d else d)
         (documents w) /\
     (forall d, find_document document_id w2 = Some d ->
        doc_status d = "error"%string /\
        doc_error_message d = Some (prefix 500 (str_of e))) /\
     (find_document document_id w <> None ->
      find_document document_id w2 <> None) /\
     (String.length (prefix 500 (str_of e)) <= 500)%nat) /\
  (is_Exception e = false ->
   _process_document document_id record user_id raw_bytes extension
     filename encrypted_master_key w = (Raise e, w1) /\
   documents w1 = documents w).
Proof.
  intros Hsteps.
  pose proof (process_steps_on_raise _ _ _ _ _ _ _ _ _ _ Hsteps) as Hsame.
  split.
  - intros Hexc Hdb.
    assert (Hrun : exists w2,
               _process_document document_id record user_id raw_bytes
                 extension filename encrypted_master_key w = (Ok tt, w2) /\
               documents w2
               = map (fun d => if String.eqb (doc_id d) document_id
                               then with_error (prefix 500 (str_of e)) d
                               else d)
                   (documents w)).
    { unfold _process_document, try_except_Exception.
      rewrite Hsteps, Hexc.
      unfold _set_document_error, with_db_cursor, update_document.
      rewrite <- Hsame.
      destruct (db_faults w1) as [|[x|] rest]; simpl in Hdb;
        try discriminate; eexists; split; reflexivity. }
    destruct Hrun as (w2 & Hrun & Hdocs).
    exists w2. split; [exact Hrun|]. split; [exact Hdocs|].
    unfold find_document. rewrite Hdocs.
    split; [|split; [|apply prefix_length]].
    + intros d Hd. exact (find_map_with_error _ _ _ _ Hd).
    + apply find_map_with_error_some.
  - intros Hexc. split; [|exact Hsame].
    unfold _process_document, try_except_Exception.
    now rewrite Hsteps, Hexc.
Qed.
End Claims.

(** *** The task on examples *)

Lemma process_document_records_error_witness :
  process_steps (enc := Chunking.char_encoding) (ext := failing_extraction)
    "doc_1" "rec_1" "user_1" "bytes" ".pdf" "a.pdf" "wrapped" example_world
  = (Raise (Exc "ValueError" "cannot open document"), example_world) /\
  exists w2,
    _process_document (enc := Chunking.char_encoding)
      (ext := failing_extraction)
      "doc_1" "rec_1" "user_1" "bytes" ".pdf" "a.pdf" "wrapped" example_world
    = (Ok tt, w2) /\
    documents w2
    = [mkDocument "doc_1" "error" 0 0 (Some "cannot open document"%string)].
Proof.
  split; [reflexivity|].
  destruct (proj1 (process_document_records_error
                     (enc := Chunking.char_encoding)
                     (ext := failing_extraction)
                     "doc_1" "rec_1" "user_1" "bytes" ".pdf" "a.pdf" "wrapped"
                     example_world example_world
                     (Exc "ValueError" "cannot open document") eq_refl)
              eq_refl eq_refl)
    as (w2 & Hrun & Hdocs & _).
  exists w2. split; [exact Hrun|]. rewrite Hdocs. reflexivity.
Defined.

(** C7, the claim as worded fails.  First: the embedding gateway is
    cancelled while the task awaits it; [CancelledError] is no
    [Exception], so the handler does not run, the exception leaves the
    task and the document stays in state [processing].  Second: the
    extraction raises an ordinary exception while the database is
    locked; the handler runs, its update raises, and that exception
    leaves the task with the document still in state [processing]. *)
Lemma process_document_error_escapes :
  (exists w2,
      _process_document (enc := Chunking.char_encoding)
        (ext := cancelled_gateway)
        "doc_1" "rec_1" "user_1" "bytes" ".pdf" "a.pdf" "wrapped"
        example_world
      = (Raise CancelledError, w2) /\
      option_map doc_status (find_document "doc_1" w2)
      = Some "processing"%string) /\
  (exists w2,
      _process_document (enc := Chunking.char_encoding)
        (ext := failing_extraction)
        "doc_1" "rec_1" "user_1" "bytes" ".pdf" "a.pdf" "wrapped"
        locked_world
      = (Raise (Exc "OperationalError" "database is locked"), w2) /\
      option_map doc_status (find_document "doc_1" w2)
      = Some "processing"%string).
Proof.
  split; eexists; (split; [vm_compute; reflexivity | reflexivity]).
Qed.

(** *** The task step by step *)

Section Steps.
Context {enc : Chunking.Encoding} {ext : Collaborators}.

(** The two constraints of the table [chunks] on an insert. *)
Lemma insert_chunk_ok (r : chunk_row) (w : world) :
  ~ In (row_id r) (map row_id (chunks w)) ->
  In (row_document_id r) (map doc_id (documents w)) ->
  insert_chunk r w = (Ok tt, set_tables (documents w) (chunks w ++ [r]) w).
Proof.
  intros Hnew Hdoc. unfold insert_chunk.
  replace (existsb _ (chunks w)) with false.
  2:{ symmetry. apply not_true_is_false. intros E.
      apply existsb_exists in E as (c & Hc & E). apply String.eqb_eq in E.
      apply Hnew. rewrite <- E. now apply in_map. }
  replace (existsb _ (documents w)) with true; [reflexivity|].
  symmetry. apply existsb_exists.
  apply in_map_iff in Hdoc as (d & E & Hd). exists d.
  split; [exact Hd | now apply String.eqb_eq].
Qed.

Lemma insert_chunk_no_document (r : chunk_row) (w : world) :
  ~ In (row_id r) (map row_id (chunks w)) ->
  ~ In (row_document_id r) (map doc_id (documents w)) ->
  insert_chunk r w
  = (Raise (IntegrityError "FOREIGN KEY constraint failed"), w).
Proof.
  intros Hnew Hdoc. unfold insert_chunk.
  replace (existsb _ (chunks w)) with false.
  2:{ symmetry. apply not_true_is_false. intros E.
      apply existsb_exists in E as (c & Hc & E). apply String.eqb_eq in E.
      apply Hnew. rewrite <- E. now apply in_map. }
  replace (existsb _ (documents w)) with false; [reflexivity|].
  symmetry. apply not_true_is_false. intros E.
  apply existsb_exists in E as (d & Hd & E). apply String.eqb_eq in E.
  apply Hdoc. rewrite <- E. now apply in_map.
Qed.

(** An id that comes once in a table and the rows to follow is not in
    the table yet. *)
Lemma fresh_head (table : list chunk_row) (r : chunk_row) rest :
  NoDup (map row_id (table ++ r :: rest)) ->
  ~ In (row_id r) (map row_id table) /\
  NoDup (map row_id ((table ++ [r]) ++ rest)).
Proof.
  intros H. split.
  - rewrite map_app in H. cbn [map] in H.
    apply NoDup_remove_2 in H. intros Hin. apply H, in_or_app. now left.
  - now rewrite <- app_assoc.
Qed.

(** Step 3 when every chunk is encrypted, the ids drawn are new to the
    table and the row of the document exists: one row per chunk, under
    consecutive uuids. *)
Lemma store_chunks_ok user_key document_id :
  forall cs ids texts w,
    Forall (fun c => exists e,
                encrypt_text_with_user_key user_key (Chunking.text c) = Ok e)
      cs ->
    In document_id (map doc_id (documents w)) ->
    NoDup (map row_id
             (chunks w ++ chunk_rows_from user_key document_id (uuids w) cs)) ->
    store_chunks user_key document_id cs ids texts w
    = (Ok (ids ++ map row_id
                    (chunk_rows_from user_key document_id (uuids w) cs),
           texts ++ map Chunking.text cs),
       mkWorld (documents w)
         (chunks w ++ chunk_rows_from user_key document_id (uuids w) cs)
         (vectors w) (uuids w + List.length cs) (db_faults w)).
Proof.
  induction cs as [|c cs IH]; intros ids texts w H Hdoc Hfresh.
  - cbn [store_chunks chunk_rows_from map List.length ret].
    rewrite !app_nil_r, Nat.add_0_r. now destruct w.
  - inversion H as [|? ? [e He] H']; subst.
    cbn [chunk_rows_from] in Hfresh. unfold ciphertext_of in Hfresh.
    rewrite He in Hfresh. apply fresh_head in Hfresh as [Hnew Hfresh].
    cbn [store_chunks]. unfold bindM at 1. cbn [fresh_uuid].
    unfold bindM at 1. unfold lift at 1. rewrite He.
    unfold bindM at 1.
    rewrite insert_chunk_ok by assumption.
    cbn [set_tables documents chunks vectors uuids db_faults].
    rewrite IH by assumption.
    cbn [set_tables documents chunks vectors uuids db_faults
         chunk_rows_from map List.length row_id].
    unfold ciphertext_of. rewrite He.
    rewrite <- !app_assoc. cbn [app].
    do 2 f_equal. lia.
Qed.

(** Step 3 when the encryption of a chunk raises and the ids drawn are
    new to the table: an exception leaves the loop, which has touched
    neither the documents nor the vectors.  It is the exception of the
    encryption, unless the table [documents] has no row for the
    document: then the first insert may be refused before. *)
Lemma store_chunks_raises user_key document_id e :
  forall cs ids texts w,
    Exists (fun c => encrypt_text_with_user_key user_key (Chunking.text c)
                     = Raise e) cs ->
    Forall (fun c =>
              encrypt_text_with_user_key user_key (Chunking.text c) = Raise e
              \/ exists x,
                   encrypt_text_with_user_key user_key (Chunking.text c)
                   = Ok x) cs ->
    NoDup (map row_id
             (chunks w ++ chunk_rows_from user_key document_id (uuids w) cs)) ->
    exists e' w',
      store_chunks user_key document_id cs ids texts w = (Raise e', w') /\
      documents w' = documents w /\ vectors w' = vectors w /\
      db_faults w' = db_faults w /\
      (e' = e \/
       e' = IntegrityError "FOREIGN KEY constraint failed" /\
       ~ In document_id (map doc_id (documents w))).
Proof.
  induction cs as [|c cs IH]; intros ids texts w Hex Hall Hfresh;
    [inversion Hex|].
  inversion Hall as [|? ? Hcase Hall']; subst.
  cbn [store_chunks]. unfold bindM at 1. cbn [fresh_uuid].
  unfold bindM at 1. unfold lift at 1.
  destruct Hcase as [He|[x He]]; rewrite He.
  - eexists _, _. split; [reflexivity|]. repeat split. now left.
  - cbn [chunk_rows_from] in Hfresh. unfold ciphertext_of in Hfresh.
    rewrite He in Hfresh. apply fresh_head in Hfresh as [Hnew Hfresh].
    unfold bindM at 1.
    destruct (in_dec string_dec document_id (map doc_id (documents w)))
      as [Hdoc|Hdoc].
    + rewrite insert_chunk_ok by assumption.
      inversion Hex as [? ? Hhere|? ? Hlater]; subst; [congruence|].
      match goal with
      | |- context [store_chunks _ _ cs ?i ?t ?w0] =>
          destruct (IH i t w0 Hlater Hall' Hfresh)
            as (e' & w' & Hrun & Hd & Hv & Hf & He')
      end.
      exists e', w'. split; [exact Hrun|]. repeat split; assumption.
    + rewrite insert_chunk_no_document by assumption.
      eexists _, _. split; [reflexivity|]. repeat split. now right.
Qed.

(** An update for an id that the table does not hold changes
    nothing. *)
Lemma update_where_absent document_id f docs :
  ~ In document_id (map doc_id docs) -> update_where document_id f docs = docs.
Proof.
  unfold update_where. induction docs as [|d docs IH]; intros H;
    [reflexivity|].
  cbn [map] in *. rewrite IH by (intros Hin; apply H; now right).
  replace (String.eqb (doc_id d) document_id) with false; [reflexivity|].
  symmetry. apply String.eqb_neq. intros E. apply H. now left.
Qed.
End Steps.

Section MoreClaims.
Context {enc : Chunking.Encoding} {ext : Collaborators}.

(** X17.  A file without text is not an ingestion failure but an
    error status: when the extraction returns no page, or only pages
    whose text is blank, and the database works, the task returns
    normally, the document gets status [error] with the message of
    the step that found nothing, and neither a chunk nor a vector is
    written. *)
Theorem process_document_without_text
    (document_id record user_id raw_bytes extension filename
       encrypted_master_key user_key : string)
    (pages : list (Z * string)) (w : world) :
  decrypt_master_key encrypted_master_key = Ok user_key ->
  extract_text raw_bytes extension = Ok pages ->
  Forall (fun p => truthy (strip (snd p)) = false) pages ->
  db_faults w = [] ->
  exists w',
    _process_document document_id record user_id raw_bytes extension
      filename encrypted_master_key w = (Ok tt, w') /\
    documents w'
    = update_where document_id
        (with_error match pages with
                    | [] => "No extractable text found in file"
                    | _ => "Failed to create text chunks"
                    end) (documents w) /\
    chunks w' = chunks w /\ vectors w' = vectors w.
Proof.
  intros Hkey Hpages Hblank Hdb.
  unfold _process_document, try_except_Exception, process_steps.
  unfold bindM at 1. unfold lift at 1. rewrite Hkey.
  unfold bindM at 1. unfold lift at 1. rewrite Hpages.
  destruct pages as [|p pages].
  - unfold _set_document_error, with_db_cursor, update_document.
    rewrite Hdb. eexists. split; [reflexivity|]. repeat split.
  - unfold bindM at 1. unfold lift at 1. unfold Chunking.chunk_pages.
    rewrite (ChunkingProps.chunk_pages_blank _ _ _ _ Hblank).
    unfold _set_document_error, with_db_cursor, update_document.
    rewrite Hdb. eexists. split; [reflexivity|]. repeat split.
Qed.
Lemma chunk_rows_from_length user_key document_id :
  forall cs n,
    List.length (chunk_rows_from user_key document_id n cs) = List.length cs.
Proof.
  induction cs as [|c cs IH]; intros n; cbn [chunk_rows_from List.length];
    [reflexivity|].
  now rewrite IH.
Qed.

(** The task up to the end of step 3, when every chunk is encrypted
    and the database works. *)
Lemma process_steps_after_store
    (document_id record user_id raw_bytes extension filename
       encrypted_master_key user_key : string)
    (pages : list (Z * string)) (cs : list Chunking.Chunk) (w : world) :
  decrypt_master_key encrypted_master_key = Ok user_key ->
  extract_text raw_bytes extension = Ok pages ->
  Chunking.chunk_pages pages Chunking.DEFAULT_CHUNK_SIZE
    Chunking.DEFAULT_CHUNK_OVERLAP = Ok cs ->
  cs <> [] ->
  Forall (fun c => exists e,
              encrypt_text_with_user_key user_key (Chunking.text c) = Ok e)
    cs ->
  In document_id (map doc_id (documents w)) ->
  NoDup (map row_id
           (chunks w ++ chunk_rows_from user_key document_id (uuids w) cs)) ->
  db_faults w = [] ->
  process_steps document_id record user_id raw_bytes extension filename
    encrypted_master_key w
  = (embeddings <~ lift (get_embeddings (map Chunking.text cs)) ;;
     _ <~ add_vectors record
            (map row_id (chunk_rows_from user_key document_id (uuids w) cs))
            embeddings (map Chunking.text cs)
            (Some (map (chunk_metadata document_id filename) cs)) ;;
     with_db_cursor
       (update_document document_id
          (as_indexed (len pages)
             (Chunking.count_tokens (join newline (map snd pages))))))
      (mkWorld (documents w)
         (chunks w ++ chunk_rows_from user_key document_id (uuids w) cs)
         (vectors w) (uuids w + List.length cs) []).
Proof.
  intros Hkey Hpages Hchunks Hcs Henc Hdoc Hfresh Hdb.
  unfold process_steps.
  unfold bindM at 1. unfold lift at 1. rewrite Hkey.
  unfold bindM at 1. unfold lift at 1. rewrite Hpages.
  destruct pages as [|p pages].
  { cbn in Hchunks. injection Hchunks as <-. contradiction. }
  unfold bindM at 1. unfold lift at 1. rewrite Hchunks.
  destruct cs as [|c cs]; [contradiction|].
  unfold bindM at 1. unfold with_db_cursor at 1. rewrite Hdb.
  cbn [tl]. rewrite store_chunks_ok by assumption.
  cbn [uuids documents chunks vectors db_faults app]. reflexivity.
Qed.

(** X18.  The ingestion of a file as it is meant to go: the key is
    unwrapped, the extraction gives pages, the chunker gives chunks,
    every chunk is encrypted, the gateway returns an embedding for
    each chunk, the table [documents] holds the row of the document
    (the foreign key of [chunks]), the uuids drawn give ids new to the
    table [chunks] (its primary key), the database works.  Then the
    task returns normally; the document gets status [indexed] with the
    number of pages and the number of tokens of the pages joined by
    line breaks; the table [chunks] gains one row per chunk, in order,
    holding the encrypted text; and the vector store gains one row per
    chunk under the record, with the id of that row of [chunks], its
    embedding, the chunk text in the clear as the document, and the
    metadata of the chunk.  Rows of the store with other ids stay. *)
Theorem process_document_indexes
    (document_id record user_id raw_bytes extension filename
       encrypted_master_key user_key : string)
    (pages : list (Z * string)) (cs : list Chunking.Chunk)
    (embeddings : list (list Q)) (w : world) :
  decrypt_master_key encrypted_master_key = Ok user_key ->
  extract_text raw_bytes extension = Ok pages ->
  Chunking.chunk_pages pages Chunking.DEFAULT_CHUNK_SIZE
    Chunking.DEFAULT_CHUNK_OVERLAP = Ok cs ->
  cs <> [] ->
  Forall (fun c => exists e,
              encrypt_text_with_user_key user_key (Chunking.text c) = Ok e)
    cs ->
  get_embeddings (map Chunking.text cs) = Ok embeddings ->
  (List.length cs <= List.length embeddings)%nat ->
  In document_id (map doc_id (documents w)) ->
  NoDup (map row_id
           (chunks w ++ chunk_rows_from user_key document_id (uuids w) cs)) ->
  db_faults w = [] ->
  exists w',
    _process_document document_id record user_id raw_bytes extension
      filename encrypted_master_key w = (Ok tt, w') /\
    documents w'
    = update_where document_id
        (as_indexed (len pages)
           (Chunking.count_tokens (join newline (map snd pages))))
        (documents w) /\
    chunks w'
    = chunks w ++ chunk_rows_from user_key document_id (uuids w) cs /\
    vectors w'
    = filter (fun r =>
                negb (existsb (String.eqb (VectorDb.id r))
                        (map row_id
                           (chunk_rows_from user_key document_id
                              (uuids w) cs))))
        (vectors w)
      ++ VectorDb.new_rows record 0
           (map row_id (chunk_rows_from user_key document_id (uuids w) cs))
           embeddings (map Chunking.text cs)
           (map (chunk_metadata document_id filename) cs).
Proof.
  intros Hkey Hpages Hchunks Hcs Henc Hemb Hlen Hdoc Hfresh Hdb.
  assert (Hnd : NoDup (map row_id
                        (chunk_rows_from user_key document_id (uuids w) cs))).
  { rewrite map_app in Hfresh. exact (NoDup_app_remove_l _ _ Hfresh). }
  unfold _process_document, try_except_Exception.
  rewrite (process_steps_after_store _ record user_id _ _ filename _ _ _ _ _
             Hkey Hpages Hchunks Hcs Henc Hdoc Hfresh Hdb).
  unfold bindM at 1. unfold lift at 1. rewrite Hemb.
  unfold bindM at 1. unfold add_vectors at 1.
  cbn [vectors documents chunks uuids db_faults].
  rewrite VectorDbProps.add_vectors_spec.
  - unfold with_db_cursor, update_document.
    cbn [db_faults documents chunks vectors uuids tl set_tables].
    eexists. split; [reflexivity|].
    cbn [documents chunks vectors].
    destruct cs as [|c cs]; [contradiction|]. repeat split.
  - exact Hnd.
  - now rewrite length_map, chunk_rows_from_length.
  - rewrite length_map, chunk_rows_from_length.
    destruct cs as [|c cs]; [contradiction|].
    cbn [VectorDb.metas_for map]. cbn [List.length].
    rewrite length_map. lia.
Qed.

(** X19.  Step 3 is all or nothing: when the encryption of a chunk
    raises an exception (an instance of [Exception]), the uuids drawn
    give ids new to the table [chunks] and the database works, the
    rows already inserted for the chunks before it are
    rolled back with the block; the task returns normally, the
    document gets status [error] with the text of the exception, and
    the table [chunks] and the vector store are as they were. *)
Theorem process_document_encryption_fails
    (document_id record user_id raw_bytes extension filename
       encrypted_master_key user_key : string)
    (pages : list (Z * string)) (cs : list Chunking.Chunk)
    (e : py_exception) (w : world) :
  decrypt_master_key encrypted_master_key = Ok user_key ->
  extract_text raw_bytes extension = Ok pages ->
  Chunking.chunk_pages pages Chunking.DEFAULT_CHUNK_SIZE
    Chunking.DEFAULT_CHUNK_OVERLAP = Ok cs ->
  Exists (fun c => encrypt_text_with_user_key user_key (Chunking.text c)
                   = Raise e) cs ->
  Forall (fun c =>
            encrypt_text_with_user_key user_key (Chunking.text c) = Raise e
            \/ exists x,
                 encrypt_text_with_user_key user_key (Chunking.text c)
                 = Ok x) cs ->
  NoDup (map row_id
           (chunks w ++ chunk_rows_from user_key document_id (uuids w) cs)) ->
  is_Exception e = true ->
  db_faults w = [] ->
  exists w',
    _process_document document_id record user_id raw_bytes extension
      filename encrypted_master_key w = (Ok tt, w') /\
    documents w'
    = update_where document_id (with_error (prefix 500 (str_of e)))
        (documents w) /\
    chunks w' = chunks w /\ vectors w' = vectors w.
Proof.
  intros Hkey Hpages Hchunks Hex Hall Hfresh Hexc Hdb.
  unfold _process_document, try_except_Exception, process_steps.
  unfold bindM at 1. unfold lift at 1. rewrite Hkey.
  unfold bindM at 1. unfold lift at 1. rewrite Hpages.
  destruct pages as [|p pages].
  { cbn in Hchunks. injection Hchunks as <-. inversion Hex. }
  unfold bindM at 1. unfold lift at 1. rewrite Hchunks.
  destruct cs as [|c cs]; [inversion Hex|].
  unfold bindM at 1. unfold with_db_cursor at 1. rewrite Hdb. cbn [tl].
  match goal with
  | |- context [store_chunks user_key document_id (c :: cs) [] [] ?w0] =>
      destruct (store_chunks_raises user_key document_id e (c :: cs) [] [] w0
                  Hex Hall Hfresh) as (e' & w1 & Hrun & Hd & Hv & Hf & He')
  end.
  rewrite Hrun.
  assert (Hexc' : is_Exception e' = true).
  { destruct He' as [->|[-> _]]; [exact Hexc | reflexivity]. }
  rewrite Hexc'.
  unfold _set_document_error, with_db_cursor, update_document.
  cbn [set_tables db_faults documents chunks vectors uuids] in *.
  rewrite Hf. cbn [tl].
  eexists. split; [reflexivity|].
  cbn [set_tables documents chunks vectors]. rewrite Hv.
  split; [|split; reflexivity].
  destruct He' as [->|[-> Hdoc]]; [reflexivity|].
  fold (update_where document_id
          (with_error (prefix 500
             (str_of (IntegrityError "FOREIGN KEY constraint failed"))))
          (documents w)).
  now rewrite !update_where_absent.
Qed.

(** X20.  The table [chunks] and the vector store are not written
    together: when the embedding gateway raises an exception (an
    instance of [Exception]) after step 3 has committed (the table
    [documents] holding the row of the document and the uuids drawn
    giving ids new to the table [chunks]), the task
    returns normally and the document gets status [error] with the
    text of the exception, but the rows of its chunks stay in the
    table [chunks], and the vector store has none of them. *)
Theorem process_document_embedding_fails
    (document_id record user_id raw_bytes extension filename
       encrypted_master_key user_key : string)
    (pages : list (Z * string)) (cs : list Chunking.Chunk)
    (e : py_exception) (w : world) :
  decrypt_master_key encrypted_master_key = Ok user_key ->
  extract_text raw_bytes extension = Ok pages ->
  Chunking.chunk_pages pages Chunking.DEFAULT_CHUNK_SIZE
    Chunking.DEFAULT_CHUNK_OVERLAP = Ok cs ->
  cs <> [] ->
  Forall (fun c => exists x,
              encrypt_text_with_user_key user_key (Chunking.text c) = Ok x)
    cs ->
  get_embeddings (map Chunking.text cs) = Raise e ->
  is_Exception e = true ->
  In document_id (map doc_id (documents w)) ->
  NoDup (map row_id
           (chunks w ++ chunk_rows_from user_key document_id (uuids w) cs)) ->
  db_faults w = [] ->
  exists w',
    _process_document document_id record user_id raw_bytes extension
      filename encrypted_master_key w = (Ok tt, w') /\
    documents w'
    = update_where document_id (with_error (prefix 500 (str_of e)))
        (documents w) /\
    chunks w'
    = chunks w ++ chunk_rows_from user_key document_id (uuids w) cs /\
    vectors w' = vectors w.
Proof.
  intros Hkey Hpages Hchunks Hcs Henc Hemb Hexc Hdoc Hfresh Hdb.
  unfold _process_document, try_except_Exception.
  rewrite (process_steps_after_store _ record user_id _ _ filename _ _ _ _ _
             Hkey Hpages Hchunks Hcs Henc Hdoc Hfresh Hdb).
  unfold bindM at 1. unfold lift at 1. rewrite Hemb, Hexc.
  unfold _set_document_error, with_db_cursor, update_document.
  cbn [db_faults documents chunks vectors uuids tl set_tables].
  eexists. split; [reflexivity|]. repeat split.
Qed.
End MoreClaims.

(** *** The added properties on the examples *)

Lemma process_document_without_text_witness :
  exists w',
    _process_document (enc := Chunking.char_encoding)
      (ext := blank_extraction)
      "doc_1" "rec_1" "user_1" "bytes" ".txt" "a.txt" "wrapped" example_world
    = (Ok tt, w') /\
    documents w'
    = [mkDocument "doc_1" "error" 0 0
         (Some "Failed to create text chunks"%string)] /\
    chunks w' = [] /\ vectors w' = [].
Proof.
  refine (process_document_without_text (enc := Chunking.char_encoding)
            (ext := blank_extraction)
            "doc_1" "rec_1" "user_1" "bytes" ".txt" "a.txt" "wrapped" "key"
            [(1%Z, "   "%string)] example_world eq_refl eq_refl _ eq_refl).
  repeat constructor.
Defined.

Lemma process_document_indexes_witness :
  exists w',
    _process_document (enc := Chunking.char_encoding)
      (ext := working_collaborators)
      "doc_1" "rec_1" "user_1" "bytes" ".pdf" "a.pdf" "wrapped" example_world
    = (Ok tt, w') /\
    documents w' = [mkDocument "doc_1" "indexed" 2 23 None] /\
    map row_encrypted_text (chunks w')
    = ["enc:hello world"; "enc:second page"]%string /\
    map VectorDb.document (vectors w')
    = ["hello world"; "second page"]%string.
Proof.
  destruct (process_document_indexes (enc := Chunking.char_encoding)
              (ext := working_collaborators)
              "doc_1" "rec_1" "user_1" "bytes" ".pdf" "a.pdf" "wrapped" "key"
              [(1%Z, "hello world"%string); (2%Z, "second page"%string)]
              [Chunking.mkChunk "hello world" 11 (Some 1%Z) None 0;
               Chunking.mkChunk "second page" 11 (Some 2%Z) None 1]
              [[1%Q]; [1%Q]] example_world)
    as (w' & Hrun & Hdocs & Hchunks & Hvectors);
    try reflexivity.
  - discriminate.
  - repeat constructor; eexists; reflexivity.
  - now left.
  - repeat constructor; simpl; intuition discriminate.
  - exists w'. split; [exact Hrun|].
    rewrite Hdocs, Hchunks, Hvectors. repeat split.
Defined.

Lemma process_document_encryption_fails_witness :
  exists w',
    _process_document (enc := Chunking.char_encoding)
      (ext := failing_encryption)
      "doc_1" "rec_1" "user_1" "bytes" ".pdf" "a.pdf" "wrapped" example_world
    = (Ok tt, w') /\
    documents w'
    = [mkDocument "doc_1" "error" 0 0 (Some "bad key"%string)] /\
    chunks w' = [] /\ vectors w' = [].
Proof.
  refine (process_document_encryption_fails (enc := Chunking.char_encoding)
            (ext := failing_encryption)
            "doc_1" "rec_1" "user_1" "bytes" ".pdf" "a.pdf" "wrapped" "key"
            [(1%Z, "hello world"%string); (2%Z, "second page"%string)]
            [Chunking.mkChunk "hello world" 11 (Some 1%Z) None 0;
             Chunking.mkChunk "second page" 11 (Some 2%Z) None 1]
            (Exc "TypeError" "bad key") example_world
            eq_refl eq_refl eq_refl _ _ _ eq_refl eq_refl).
  - apply Exists_cons_tl, Exists_cons_hd. reflexivity.
  - constructor; [right; eexists; reflexivity|].
    constructor; [left; reflexivity | constructor].
  - repeat constructor; simpl; intuition discriminate.
Defined.

Lemma process_document_embedding_fails_witness :
  exists w',
    _process_document (enc := Chunking.char_encoding)
      (ext := failing_gateway)
      "doc_1" "rec_1" "user_1" "bytes" ".pdf" "a.pdf" "wrapped" example_world
    = (Ok tt, w') /\
    documents w'
    = [mkDocument "doc_1" "error" 0 0 (Some "gateway unreachable"%string)] /\
    map row_encrypted_text (chunks w')
    = ["enc:hello world"; "enc:second page"]%string /\
    vectors w' = [].
Proof.
  destruct (process_document_embedding_fails (enc := Chunking.char_encoding)
              (ext := failing_gateway)
              "doc_1" "rec_1" "user_1" "bytes" ".pdf" "a.pdf" "wrapped" "key"
              [(1%Z, "hello world"%string); (2%Z, "second page"%string)]
              [Chunking.mkChunk "hello world" 11 (Some 1%Z) None 0;
               Chunking.mkChunk "second page" 11 (Some 2%Z) None 1]
              (Exc "ConnectError" "gateway unreachable") example_world)
    as (w' & Hrun & Hdocs & Hchunks & Hvectors);
    try reflexivity.
  - discriminate.
  - repeat constructor; eexists; reflexivity.
  - now left.
  - repeat constructor; simpl; intuition discriminate.
  - exists w'. split; [exact Hrun|].
    rewrite Hdocs, Hchunks, Hvectors. repeat split.
Defined.

End DocumentsProps.

(** ** The embedding gateway *)

Module OpenrouterProps.
Import Openrouter PyProps.

Lemma slice_length_clamped {A} (l : list A) (s e : Z) :
  0 <= s <= len l -> s <= e -> len (slice l s e) = Z.min e (len l) - s.
Proof.
  intros Hs He. unfold slice, clamp_index, len in *.
  replace (s <? 0) with false by (symmetry; apply Z.ltb_ge; lia).
  replace (e <? 0) with false by (symmetry; apply Z.ltb_ge; lia).
  rewrite length_firstn, length_skipn. lia.
Qed.

(** The batches cover the texts: the number of batches times the batch
    size reaches the number of texts, and every batch but the last is
    full. *)
Lemma batch_count_bounds (n : Z) :
  0 <= n ->
  n <= EMBED_BATCH_SIZE * Chunking.ceil_div n EMBED_BATCH_SIZE /\
  EMBED_BATCH_SIZE * (Chunking.ceil_div n EMBED_BATCH_SIZE - 1) < n /\
  0 <= Chunking.ceil_div n EMBED_BATCH_SIZE.
Proof.
  intros Hn. unfold Chunking.ceil_div, EMBED_BATCH_SIZE.
  pose proof (Z.div_mod (n + 32 - 1) 32 ltac:(lia)).
  pose proof (Z.mod_pos_bound (n + 32 - 1) 32 ltac:(lia)).
  lia.
Qed.

Section WithGateway.
Context {gw : Gateway}.
Variable P : list Q -> Prop.
Hypothesis P_zero : P zero_vector.

(** The loop on answers that are failures or hold one embedding per
    input. *)
Lemma embed_batches_aligned (texts : list string) :
  (forall batch, exists resp,
      post_embeddings batch = Ok resp /\
      (status_code resp <> 200 \/
       (List.length (data resp) = List.length batch /\
        Forall (fun x => P (item_embedding x)) (data resp)))) ->
  forall m k acc,
    Z.of_nat (k + m) = Chunking.ceil_div (len texts) EMBED_BATCH_SIZE ->
    len acc = Z.min (EMBED_BATCH_SIZE * Z.of_nat k) (len texts) ->
    Forall P acc ->
    exists embs,
      embed_batches texts
        (map (fun j => EMBED_BATCH_SIZE * Z.of_nat j) (seq k m)) acc
      = Ok embs /\
      len embs = len texts /\ Forall P embs.
Proof.
  intros Hpost.
  assert (HN : 0 <= len texts) by (unfold len; lia).
  destruct (batch_count_bounds (len texts) HN) as (Hup & Hlow & Hc).
  induction m as [|m IH]; intros k acc Hk Hlen Hacc.
  - exists acc. cbn [seq map embed_batches]. split; [reflexivity|].
    split; [|exact Hacc]. rewrite Hlen. rewrite Nat.add_0_r in Hk. lia.
  - cbn [seq map embed_batches].
    set (i := EMBED_BATCH_SIZE * Z.of_nat k) in *.
    assert (Hi : 0 <= i < len texts).
    { unfold i, EMBED_BATCH_SIZE in *. lia. }
    set (batch := slice texts i (i + EMBED_BATCH_SIZE)).
    assert (Hb : len batch = Z.min (i + EMBED_BATCH_SIZE) (len texts) - i).
    { unfold batch. apply slice_length_clamped; unfold EMBED_BATCH_SIZE; lia. }
    destruct (Hpost batch) as (resp & -> & Hresp). cbn [bind].
    assert (Hnext : forall new,
               len new = len batch -> Forall P new ->
               exists embs,
                 embed_batches texts
                   (map (fun j => EMBED_BATCH_SIZE * Z.of_nat j) (seq (S k) m))
                   (acc ++ new) = Ok embs /\
                 len embs = len texts /\ Forall P embs).
    { intros new Hnew HP. apply IH.
      - rewrite <- Hk. f_equal. lia.
      - unfold len in *. rewrite length_app.
        unfold i, EMBED_BATCH_SIZE in *. lia.
      - apply Forall_app. split; assumption. }
    destruct (status_code resp =? 200) eqn:E; cbn [negb].
    + apply Z.eqb_eq in E. destruct Hresp as [Hne|[Hl HP]]; [contradiction|].
      apply Hnext.
      * unfold len. rewrite length_map.
        rewrite (Permutation_length (sort_asc_perm _ (data resp))).
        now rewrite Hl.
      * apply Forall_forall. intros e He.
        apply in_map_iff in He as (x & <- & Hx).
        apply sort_asc_In in Hx. rewrite Forall_forall in HP. auto.
    + apply Hnext.
      * unfold len. now rewrite length_map.
      * apply Forall_forall. intros e He.
        apply in_map_iff in He as (x & <- & _). exact P_zero.
Qed.

Lemma get_embeddings_spec (texts : list string) :
  (forall batch, exists resp,
      post_embeddings batch = Ok resp /\
      (status_code resp <> 200 \/
       (List.length (data resp) = List.length batch /\
        Forall (fun x => P (item_embedding x)) (data resp)))) ->
  exists embs,
    get_embeddings texts = Ok embs /\
    List.length embs = List.length texts /\ Forall P embs.
Proof.
  intros Hpost. unfold get_embeddings.
  destruct (truthy openrouter_api_key); cbn [negb].
  - assert (Hc : 0 <= Chunking.ceil_div (len texts) EMBED_BATCH_SIZE).
    { apply batch_count_bounds. unfold len. lia. }
    destruct (embed_batches_aligned texts Hpost
                (Z.to_nat (Chunking.ceil_div (len texts) EMBED_BATCH_SIZE))
                0%nat []) as (embs & Hrun & Hlen & HP).
    + cbn [Nat.add]. now rewrite Z2Nat.id.
    + unfold len. cbn. lia.
    + constructor.
    + exists embs. unfold range_by. split; [exact Hrun|].
      split; [|exact HP]. unfold len in Hlen. lia.
  - eexists. split; [reflexivity|]. split; [apply length_map|].
    apply Forall_forall. intros e He.
    apply in_map_iff in He as (x & <- & _). exact P_zero.
Qed.
End WithGateway.

Lemma Forall_eq_repeat {A} (a : A) (l : list A) :
  Forall (eq a) l -> l = repeat a (List.length l).
Proof.
  induction 1 as [|x l <- _ IH]; cbn [List.length repeat]; [reflexivity|].
  now rewrite <- IH.
Qed.

(** *** Which vector stands where *)

(** Position [r] of [l[s:e]] is position [s + r] of [l]. *)
Lemma slice_nth_error {A} (l : list A) (s e : Z) (r : nat) :
  0 <= s -> Z.of_nat r < Z.min e (len l) - s ->
  nth_error (slice l s e) r = nth_error l (Z.to_nat s + r).
Proof.
  intros Hs Hr. unfold slice, clamp_index, len in *.
  replace (s <? 0) with false by (symmetry; apply Z.ltb_ge; lia).
  replace (e <? 0) with false by (symmetry; apply Z.ltb_ge; lia).
  rewrite nth_error_firstn, nth_error_skipn.
  replace (Nat.ltb r _) with true; [f_equal; lia|].
  symmetry. apply Nat.ltb_lt. lia.
Qed.

(** In a concatenation of blocks of which the first [q] have [n]
    elements each, position [q * n + r] is position [r] of block
    [q]. *)
Lemma nth_error_blocks {A} (f : nat -> list A) (n : nat) :
  forall count k q r,
    (q < count)%nat ->
    (forall j, (j < q)%nat -> List.length (f (k + j)%nat) = n) ->
    (r < List.length (f (k + q)%nat))%nat ->
    nth_error (List.concat (map f (seq k count))) (q * n + r)
    = nth_error (f (k + q)%nat) r.
Proof.
  induction count as [|count IH]; intros k q r Hq Hfull Hr; [lia|].
  cbn [seq map List.concat]. destruct q as [|q].
  - rewrite Nat.add_0_r in *. cbn [Nat.mul Nat.add].
    now apply nth_error_app1.
  - pose proof (Hfull 0%nat ltac:(lia)) as H0. rewrite Nat.add_0_r in H0.
    rewrite nth_error_app2 by (rewrite H0; cbn [Nat.mul]; lia).
    rewrite H0.
    replace (S q * n + r - n)%nat with (q * n + r)%nat by (cbn [Nat.mul]; lia).
    replace (k + S q)%nat with (S k + q)%nat in * by lia.
    apply IH; [lia | | exact Hr].
    intros j Hj. replace (S k + j)%nat with (k + S j)%nat by lia.
    apply Hfull. lia.
Qed.

(** Two ascending lists of integers with the same elements are one
    list. *)
Lemma ascending_unique (u : list Z) :
  forall v, StronglySorted Z.le u -> StronglySorted Z.le v ->
            Permutation u v -> u = v.
Proof.
  induction u as [|x u IH]; intros v Hu Hv Hp.
  - apply Permutation_nil in Hp. now subst.
  - destruct v as [|y v];
      [apply Permutation_sym, Permutation_nil in Hp; discriminate|].
    inversion Hu as [|? ? Hu' Hxu]; subst.
    inversion Hv as [|? ? Hv' Hyv]; subst.
    rewrite Forall_forall in Hxu, Hyv.
    assert (Hxy : x = y).
    { assert (Hx : In x (y :: v))
        by (apply (Permutation_in _ Hp); now left).
      assert (Hy : In y (x :: u))
        by (apply (Permutation_in _ (Permutation_sym Hp)); now left).
      destruct Hx as [->|Hx]; [reflexivity|].
      destruct Hy as [->|Hy]; [reflexivity|].
      apply Hxu in Hy. apply Hyv in Hx. lia. }
    subst y. f_equal. apply IH; try assumption.
    now apply Permutation_cons_inv in Hp.
Qed.

Lemma seq_ascending (n : nat) :
  forall k, StronglySorted Z.le (map Z.of_nat (seq k n)).
Proof.
  induction n as [|n IH]; intros k; cbn [seq map]; constructor;
    [apply IH|].
  apply Forall_forall. intros z Hz.
  apply in_map_iff in Hz as (j & <- & Hj). apply in_seq in Hj. lia.
Qed.

(** Items numbered from 0 without gap come out of the sort in the
    order of their numbers. *)
Lemma sorted_by_index (items : list item) (n : nat) :
  Permutation (map item_index items) (map Z.of_nat (seq 0 n)) ->
  map item_index (sort_asc (fun x => inject_Z (item_index x)) items)
  = map Z.of_nat (seq 0 n).
Proof.
  intros Hp. apply ascending_unique.
  - apply StronglySorted_map.
    eapply StronglySorted_impl;
      [|apply (sort_asc_sorted (fun x => inject_Z (item_index x)))].
    intros x y H. cbv beta in H. now rewrite Zle_Qle.
  - apply seq_ascending.
  - etransitivity; [|exact Hp].
    apply Permutation_map, sort_asc_perm.
Qed.

(** The item numbered [r] is at position [r] after the sort. *)
Lemma sorted_item_at (items : list item) (n r : nat) (x : item) :
  Permutation (map item_index items) (map Z.of_nat (seq 0 n)) ->
  In x items -> item_index x = Z.of_nat r ->
  nth_error (sort_asc (fun y => inject_Z (item_index y)) items) r = Some x.
Proof.
  intros Hp Hx Hr.
  pose proof (sorted_by_index items n Hp) as Hs.
  assert (Hrn : (r < n)%nat).
  { assert (H : In (item_index x) (map Z.of_nat (seq 0 n)))
      by (apply (Permutation_in _ Hp); now apply in_map).
    apply in_map_iff in H as (j & E & Hj). apply in_seq in Hj. lia. }
  assert (Hat : nth_error
                  (map item_index
                     (sort_asc (fun y => inject_Z (item_index y)) items)) r
                = Some (Z.of_nat r)).
  { rewrite Hs, nth_error_map, nth_error_seq.
    replace (Nat.ltb r n) with true by (symmetry; now apply Nat.ltb_lt).
    reflexivity. }
  rewrite nth_error_map in Hat.
  destruct (nth_error (sort_asc _ items) r) as [x'|] eqn:E; [|discriminate].
  injection Hat as Hx'. f_equal.
  assert (Hin' : In x' items).
  { apply nth_error_In in E. now apply sort_asc_In in E. }
  assert (Hnd : NoDup (map item_index items)).
  { apply (Permutation_NoDup (Permutation_sym Hp)).
    apply Finite.Injective_map_NoDup; [|apply seq_NoDup].
    intros i j H. lia. }
  clear - Hx Hin' Hnd Hr Hx'.
  induction items as [|y items IH]; [contradiction|].
  cbn [map] in Hnd. inversion Hnd as [|? ? Hnotin Hnd']; subst.
  destruct Hx as [->|Hx], Hin' as [->|Hin']; auto.
  - exfalso. apply Hnotin. rewrite Hr, <- Hx'. now apply in_map.
  - exfalso. apply Hnotin. rewrite Hx', <- Hr. now apply in_map.
Qed.

Section Rounds.
Context {gw : Gateway}.

(** The loop as the concatenation of what its rounds append. *)
Lemma embed_batches_rounds (texts : list string) :
  (forall batch, exists resp, post_embeddings batch = Ok resp) ->
  forall m k acc,
    embed_batches texts
      (map (fun j => EMBED_BATCH_SIZE * Z.of_nat j) (seq k m)) acc
    = Ok (acc ++ List.concat (map (round_embeddings texts) (seq k m))).
Proof.
  intros Hpost. induction m as [|m IH]; intros k acc.
  - cbn [seq map List.concat embed_batches]. now rewrite app_nil_r.
  - cbn [seq map List.concat embed_batches].
    unfold round_embeddings at 1. fold (batch_at texts k).
    destruct (Hpost (batch_at texts k)) as (resp & ->). cbn [bind].
    destruct (negb (status_code resp =? 200)); rewrite IH;
      now rewrite app_assoc.
Qed.

(** The batch of round [j]: its length, and its texts. *)
Lemma batch_at_length (texts : list string) (j : nat) :
  32 * Z.of_nat j <= len texts ->
  len (batch_at texts j) = Z.min (32 * Z.of_nat j + 32) (len texts)
                           - 32 * Z.of_nat j.
Proof.
  intros H. unfold batch_at, EMBED_BATCH_SIZE.
  apply slice_length_clamped; unfold len in *; lia.
Qed.

Lemma batch_at_nth_error (texts : list string) (p : nat) :
  (p < List.length texts)%nat ->
  nth_error (batch_at texts (p / 32)) (p mod 32) = nth_error texts p.
Proof.
  intros Hp. unfold batch_at, EMBED_BATCH_SIZE.
  pose proof (Nat.div_mod_eq p 32) as Hdm.
  pose proof (Nat.mod_upper_bound p 32 ltac:(lia)) as Hm.
  rewrite slice_nth_error by (unfold len; lia).
  f_equal. lia.
Qed.
End Rounds.

Section Claims.
Context {gw : Gateway}.

(** X21.  [get_embeddings] keeps the embeddings aligned with the
    texts as long as every batch is answered either with a failure
    status or with one embedding per input: it then returns exactly
    one vector per text, whatever the number of texts and of batches.
    Without an API key every vector is the zero vector.  With one,
    the text at position [p] is input [p mod 32] of batch [p / 32],
    and the vector at position [p] is the zero vector when that batch
    was answered with a failure status, and otherwise the embedding
    at position [p mod 32] of the answer sorted by index: when the
    answer numbers its items from 0 without gap, the embedding of the
    item numbered [p mod 32]. *)
Theorem get_embeddings_aligned (texts : list string) :
  (forall batch, exists resp,
      post_embeddings batch = Ok resp /\
      (status_code resp <> 200 \/
       List.length (data resp) = List.length batch)) ->
  exists embs,
    get_embeddings texts = Ok embs /\
    List.length embs = List.length texts /\
    (truthy openrouter_api_key = false ->
     embs = map (fun _ => zero_vector) texts) /\
    (truthy openrouter_api_key = true ->
     forall p t, nth_error texts p = Some t ->
       nth_error (batch_at texts (p / 32)) (p mod 32) = Some t /\
       exists resp,
         post_embeddings (batch_at texts (p / 32)) = Ok resp /\
         (status_code resp <> 200 -> nth_error embs p = Some zero_vector) /\
         (status_code resp = 200 ->
          nth_error embs p
          = option_map item_embedding
              (nth_error
                 (sort_asc (fun x => inject_Z (item_index x)) (data resp))
                 (p mod 32)) /\
          (Permutation (map item_index (data resp))
             (map Z.of_nat
                (seq 0 (List.length (batch_at texts (p / 32))))) ->
           forall x, In x (data resp) ->
                     item_index x = Z.of_nat (p mod 32) ->
                     nth_error embs p = Some (item_embedding x)))).
Proof.
  intros Hpost.
  destruct (get_embeddings_spec (fun _ => True) I texts)
    as (embs & Hrun & Hlen & _).
  { intros batch. destruct (Hpost batch) as (resp & Hr & Hcase).
    exists resp. split; [exact Hr|].
    destruct Hcase as [H|H]; [now left | right].
    split; [exact H|]. apply Forall_forall. intros; exact I. }
  exists embs. split; [exact Hrun|]. split; [exact Hlen|]. split.
  { intros Hkey. unfold get_embeddings in Hrun. rewrite Hkey in Hrun.
    cbn [negb] in Hrun. congruence. }
  intros Hkey p t Ht.
  assert (Hp : (p < List.length texts)%nat)
    by (apply nth_error_Some; congruence).
  split; [now rewrite batch_at_nth_error|].
  set (count := Z.to_nat (Chunking.ceil_div (len texts) EMBED_BATCH_SIZE)).
  assert (Hembs : embs = List.concat (map (round_embeddings texts) (seq 0 count))).
  { unfold get_embeddings in Hrun. rewrite Hkey in Hrun. cbn [negb] in Hrun.
    unfold range_by in Hrun. fold count in Hrun.
    rewrite embed_batches_rounds in Hrun.
    - cbn [app] in Hrun. congruence.
    - intros batch. destruct (Hpost batch) as (resp & Hr & _). now exists resp. }
  assert (HN : 0 <= len texts) by (unfold len; lia).
  destruct (batch_count_bounds (len texts) HN) as (Hup & Hlow & Hc).
  unfold EMBED_BATCH_SIZE in Hup, Hlow.
  pose proof (Nat.div_mod_eq p 32) as Hdm.
  pose proof (Nat.mod_upper_bound p 32 ltac:(lia)) as Hm.
  set (q := (p / 32)%nat) in *. set (r := (p mod 32)%nat) in *.
  assert (Hround : forall j, (32 * Z.of_nat j <= len texts) ->
             len (round_embeddings texts j) = len (batch_at texts j)).
  { intros j Hj. unfold round_embeddings.
    destruct (Hpost (batch_at texts j)) as (resp & -> & Hcase).
    destruct (status_code resp =? 200) eqn:E; cbn [negb]; unfold len;
      rewrite length_map; [|reflexivity].
    apply Z.eqb_eq in E. destruct Hcase as [Hne|Hl]; [contradiction|].
    rewrite (Permutation_length (sort_asc_perm _ (data resp))).
    now rewrite Hl. }
  assert (Hqlen : len (batch_at texts q)
                  = Z.min (32 * Z.of_nat q + 32) (len texts) - 32 * Z.of_nat q).
  { apply batch_at_length. unfold len. lia. }
  assert (Hat : nth_error embs p = nth_error (round_embeddings texts q) r).
  { rewrite Hembs.
    replace p with (q * 32 + r)%nat at 1 by lia.
    apply (nth_error_blocks (round_embeddings texts) 32 count 0 q r).
    - unfold count, len, EMBED_BATCH_SIZE in *. lia.
    - intros j Hj. cbn [Nat.add].
      assert (H32 : 32 * Z.of_nat j <= len texts) by (unfold len; lia).
      pose proof (Hround j H32) as Hrj.
      rewrite (batch_at_length texts j H32) in Hrj. unfold len in *. lia.
    - cbn [Nat.add].
      assert (H32 : 32 * Z.of_nat q <= len texts) by (unfold len; lia).
      pose proof (Hround q H32) as Hrq. rewrite Hqlen in Hrq.
      unfold len in *. lia. }
  destruct (Hpost (batch_at texts q)) as (resp & Hr & Hcase).
  exists resp. split; [exact Hr|]. split.
  - intros Hne. rewrite Hat. unfold round_embeddings. rewrite Hr.
    replace (status_code resp =? 200) with false
      by (symmetry; now apply Z.eqb_neq).
    cbn [negb]. rewrite nth_error_map.
    replace (nth_error (batch_at texts q) r) with (Some t); [reflexivity|].
    symmetry. fold q r in Ht. unfold q, r.
    now rewrite batch_at_nth_error.
  - intros H200.
    assert (Hsorted : nth_error embs p
                      = option_map item_embedding
                          (nth_error
                             (sort_asc (fun x => inject_Z (item_index x))
                                (data resp)) r)).
    { rewrite Hat. unfold round_embeddings. rewrite Hr, H200.
      cbn [Z.eqb Pos.eqb negb]. apply nth_error_map. }
    split; [exact Hsorted|].
    intros Hperm x Hx Hidx. rewrite Hsorted.
    now rewrite (sorted_item_at _ _ r x Hperm Hx Hidx).
Qed.

(** X22.  Without an API key, or when the gateway answers every batch
    with a failure status, [get_embeddings] raises nothing: it returns
    one vector of [EMBED_DIMENSIONS] zeros per text. *)
Theorem get_embeddings_degraded (texts : list string) :
  truthy openrouter_api_key = false \/
  (forall batch, exists resp,
      post_embeddings batch = Ok resp /\ status_code resp <> 200) ->
  get_embeddings texts = Ok (repeat zero_vector (List.length texts)).
Proof.
  intros [Hkey|Hpost].
  - unfold get_embeddings. rewrite Hkey. cbn [negb]. f_equal.
    induction texts as [|t texts IH]; cbn [map List.length repeat];
      [reflexivity|].
    now rewrite IH.
  - destruct (get_embeddings_spec (eq zero_vector) eq_refl texts)
      as (embs & Hrun & Hlen & HP).
    + intros batch. destruct (Hpost batch) as (resp & Hr & Hne).
      exists resp. split; [exact Hr | now left].
    + rewrite Hrun, <- Hlen. f_equal. now apply Forall_eq_repeat.
Qed.
End Claims.

Lemma get_embeddings_aligned_witness :
  exists embs,
    get_embeddings (gw := gateway_up) ["one"; "two"; "three"]%string
    = Ok embs /\
    List.length embs = 3%nat /\
    nth_error embs 2 = Some [inject_Z 2].
Proof.
  destruct (get_embeddings_aligned (gw := gateway_up)
              ["one"; "two"; "three"]%string)
    as (embs & Hrun & Hlen & _ & Hpos).
  - intros batch. eexists. split; [reflexivity|]. right.
    cbn [data]. unfold numbered_items.
    now rewrite length_rev, length_map, length_seq.
  - exists embs. split; [exact Hrun|]. split; [exact Hlen|].
    destruct (Hpos eq_refl 2%nat "three"%string eq_refl)
      as (_ & resp & Hr & _ & H200).
    injection Hr as <-.
    refine (proj2 (H200 eq_refl) _ (mkItem 2 [inject_Z 2]) _ eq_refl).
    + vm_compute. apply perm_swap || (apply Permutation_rev).
    + vm_compute. auto.
Defined.

Lemma get_embeddings_degraded_witness :
  get_embeddings (gw := gateway_down) ["one"; "two"; "three"]%string
  = Ok (repeat zero_vector 3).
Proof.
  refine (get_embeddings_degraded (gw := gateway_down)
            ["one"; "two"; "three"]%string _).
  right. intros batch. eexists. split; [reflexivity|]. discriminate.
Defined.

End OpenrouterProps.

(** ** The chunks read back for a query *)

Module RagProps.
Import Rag PyProps.

Lemma replace_newlines_length (s : string) :
  String.length (replace_newlines s) = String.length s.
Proof. induction s as [|c s IH]; cbn; congruence. Qed.

Lemma is_space_replaced (c : ascii) :
  is_space (if Ascii.eqb c (ascii_of_nat 10) then " "%char else c)
  = is_space c.
Proof.
  destruct (Ascii.eqb c (ascii_of_nat 10)) eqn:E; [|reflexivity].
  apply Ascii.eqb_eq in E. subst c. reflexivity.
Qed.

Lemma lstrip_replace_newlines (s : string) :
  lstrip (replace_newlines s) = replace_newlines (lstrip s).
Proof.
  induction s as [|c s IH]; [reflexivity|].
  cbn [replace_newlines lstrip]. rewrite is_space_replaced.
  destruct (is_space c); [exact IH | reflexivity].
Qed.

Lemma rstrip_replace_newlines (s : string) :
  rstrip (replace_newlines s) = replace_newlines (rstrip s).
Proof.
  induction s as [|c s IH]; [reflexivity|].
  cbn [replace_newlines]. rewrite !rstrip_cons, IH, is_space_replaced.
  destruct (rstrip s) as [|d r]; cbn [replace_newlines];
    [destruct (is_space c)|]; reflexivity.
Qed.

Lemma lstrip_length (s : string) :
  (String.length (lstrip s) <= String.length s)%nat.
Proof.
  induction s as [|c s IH]; cbn [lstrip String.length]; [lia|].
  destruct (is_space c); cbn [String.length]; lia.
Qed.

Lemma rstrip_length (s : string) :
  (String.length (rstrip s) <= String.length s)%nat.
Proof.
  induction s as [|c s IH]; [cbn; lia|].
  rewrite rstrip_cons. destruct (rstrip s) as [|d r].
  - destruct (is_space c); cbn [String.length]; lia.
  - cbn [String.length] in *. lia.
Qed.

Lemma replace_newlines_has_none (s : string) :
  has_char (ascii_of_nat 10) (replace_newlines s) = false.
Proof.
  induction s as [|c s IH]; [reflexivity|].
  cbn [replace_newlines has_char]. rewrite IH, orb_false_r.
  destruct (Ascii.eqb c (ascii_of_nat 10)) eqn:E; [reflexivity | exact E].
Qed.

(** X23.  The snippet that [query_rag] shows for a source has at most
    500 characters, holds no line break, and neither starts nor ends
    with white space. *)
Theorem snippet_single_line (document : string) :
  (String.length (snippet document) <= 500)%nat /\
  has_char (ascii_of_nat 10) (snippet document) = false /\
  strip (snippet document) = snippet document.
Proof.
  unfold snippet. split; [|split].
  - rewrite replace_newlines_length. unfold strip.
    pose proof (lstrip_length (rstrip (Documents.prefix 500 document))).
    pose proof (rstrip_length (Documents.prefix 500 document)).
    pose proof (DocumentsProps.prefix_length 500 document). lia.
  - apply replace_newlines_has_none.
  - unfold strip at 1.
    rewrite rstrip_replace_newlines, lstrip_replace_newlines.
    fold (strip (strip (Documents.prefix 500 document))).
    now rewrite strip_idempotent.
Qed.

Section WithDecryption.
Context {dec : Decryption}.

(** The loop of step 2, from any dictionary. *)
Lemma decrypt_chunks_spec (user_key : string) :
  forall chunk_rows dc0,
    Forall (decrypts_or_skips user_key) chunk_rows ->
    NoDup (dict_keys dc0) ->
    exists dc,
      decrypt_chunks user_key chunk_rows dc0 = Ok dc /\
      NoDup (dict_keys dc) /\
      (forall cid, In cid (dict_keys dc) <->
         In cid (dict_keys dc0) \/
         exists r plain, In r chunk_rows /\ f_chunk_id r = cid
                         /\ decrypts_to user_key r plain) /\
      (forall cid plain info, dict_get cid dc = Some (plain, info) ->
         dict_get cid dc0 = Some (plain, info) \/
         exists r, In r chunk_rows /\ f_chunk_id r = cid
                   /\ decrypts_to user_key r plain /\ info = chunk_info r).
Proof.
  induction chunk_rows as [|r rest IH]; intros dc0 Hall Hnd.
  - exists dc0. cbn [decrypt_chunks]. split; [reflexivity|].
    split; [exact Hnd|]. split.
    + intros cid. split; [auto|]. intros [H|(r & p & [] & _)]. exact H.
    + intros cid plain info H. now left.
  - inversion Hall as [|? ? Hr Hall']; subst.
    cbn [decrypt_chunks]. unfold decrypts_or_skips in Hr.
    destruct (decrypt_text_with_user_key user_key (f_encrypted_text r))
      as [plain_text|e|] eqn:E; [| |contradiction].
    + destruct (IH (dict_set (f_chunk_id r) (plain_text, chunk_info r) dc0)
                  Hall' (dict_keys_set_NoDup _ _ _ Hnd))
        as (dc & Hrun & Hnd' & Hkeys & Hget).
      exists dc. split; [exact Hrun|]. split; [exact Hnd'|]. split.
      * intros cid. rewrite Hkeys, dict_keys_set_In. split.
        -- intros [[->|H]|(r' & p & Hin & Hid & Hd)].
           ++ right. exists r, plain_text. split; [now left | auto].
           ++ now left.
           ++ right. exists r', p. split; [now right | auto].
        -- intros [H|(r' & p & [<-|Hin] & Hid & Hd)].
           ++ left. now right.
           ++ left. left. now symmetry.
           ++ right. exists r', p. auto.
      * intros cid plain info H.
        destruct (Hget cid plain info H) as [H0|(r' & Hin & Hid & Hd & Hi)].
        -- destruct (string_dec cid (f_chunk_id r)) as [->|Hne].
           ++ rewrite dict_get_set_same in H0. injection H0 as <- <-.
              right. exists r. split; [now left | auto].
           ++ rewrite dict_get_set_other in H0 by assumption. now left.
        -- right. exists r'. split; [now right | auto].
    + rewrite Hr.
      destruct (IH dc0 Hall' Hnd) as (dc & Hrun & Hnd' & Hkeys & Hget).
      exists dc. split; [exact Hrun|]. split; [exact Hnd'|]. split.
      * intros cid. rewrite Hkeys. split.
        -- intros [H|(r' & p & Hin & Hid & Hd)]; [now left|].
           right. exists r', p. split; [now right | auto].
        -- intros [H|(r' & p & [<-|Hin] & Hid & Hd)]; [now left | |].
           ++ unfold decrypts_to in Hd. congruence.
           ++ right. exists r', p. auto.
      * intros cid plain info H.
        destruct (Hget cid plain info H) as [H0|(r' & Hin & Hid & Hd & Hi)];
          [now left|].
        right. exists r'. split; [now right | auto].
Qed.

(** X24.  The dictionary of decrypted chunks that [query_rag] builds
    has the id of a fetched row as a key exactly when a row with that
    id decrypts under the user's key; rows that do not decrypt are
    left out without failing the query; no key comes twice; and the
    entry under a key is the decrypted text of such a row with the
    document id, file name, page and section of that row. *)
Theorem decrypted_chunks_are_the_decryptable_rows
    (user_key : string) (chunk_rows : list fetched_chunk) :
  Forall (decrypts_or_skips user_key) chunk_rows ->
  exists dc,
    decrypt_chunks user_key chunk_rows [] = Ok dc /\
    NoDup (dict_keys dc) /\
    (forall cid, In cid (dict_keys dc) <->
       exists r plain, In r chunk_rows /\ f_chunk_id r = cid
                       /\ decrypts_to user_key r plain) /\
    (forall cid plain info, dict_get cid dc = Some (plain, info) ->
       exists r, In r chunk_rows /\ f_chunk_id r = cid
                 /\ decrypts_to user_key r plain /\ info = chunk_info r).
Proof.
  intros Hall.
  destruct (decrypt_chunks_spec user_key chunk_rows [] Hall)
    as (dc & Hrun & Hnd & Hkeys & Hget); [constructor|].
  exists dc. split; [exact Hrun|]. split; [exact Hnd|]. split.
  - intros cid. rewrite Hkeys. split; [intros [[]|H]; exact H | now right].
  - intros cid plain info H.
    destruct (Hget cid plain info H) as [H0|H0]; [discriminate | exact H0].
Qed.
End WithDecryption.

Section Retrieval.
Context {dec : Decryption} {re : Retrieval.Regex} {num : VectorDb.Numeric}.

(** X25.  Steps 2 and 3 of [query_rag] together, when no decryption
    does worse than raise an [Exception]: they never fail.  They end
    with the answer that the record has no documents exactly when no
    fetched row decrypts under the user's key.  Otherwise every hit is
    of one of two kinds: its text is what a fetched row with its id
    decrypts to (and its metadata that of the row), or no fetched row
    with its id decrypts and its text is the document stored in the
    clear with a vector of the record.  Under the primary key of the
    store no id comes twice among the hits. *)
Theorem retrieve_hits_sources (s : VectorDb.store) (record user_key : string)
    (chunk_rows : list fetched_chunk) (query_text : string)
    (query_embedding : list Q) (top_k : Z) :
  Forall (decrypts_or_skips user_key) chunk_rows ->
  exists res,
    retrieve_hits s record user_key chunk_rows query_text query_embedding
      top_k = Ok res /\
    (res = NoDocuments <->
     forall r plain, In r chunk_rows -> ~ decrypts_to user_key r plain) /\
    forall hits, res = Hits hits ->
      (VectorDb.unique_ids s -> NoDup (map Retrieval.chunk_id hits)) /\
      Forall (fun c =>
                (exists r, In r chunk_rows /\
                           f_chunk_id r = Retrieval.chunk_id c /\
                           decrypts_to user_key r (Retrieval.document c) /\
                           Retrieval.metadata c = chunk_info r) \/
                ((forall r plain, In r chunk_rows ->
                                  f_chunk_id r = Retrieval.chunk_id c ->
                                  ~ decrypts_to user_key r plain) /\
                 exists v, In v (VectorDb.rows_of record s) /\
                           VectorDb.id v = Retrieval.chunk_id c /\
                           VectorDb.document v = Retrieval.document c /\
                           VectorDb.meta v = Retrieval.metadata c))
        hits.
Proof.
  intros Hall.
  destruct (decrypt_chunks_spec user_key chunk_rows [] Hall)
    as (dc & Hrun & Hnd & Hkeys & Hget); [constructor|].
  unfold retrieve_hits. rewrite Hrun. cbn [bind].
  destruct dc as [|entry dc'] eqn:Edc.
  - exists NoDocuments. split; [reflexivity|]. split; [|discriminate].
    split; [|reflexivity]. intros _ r plain Hin Hd.
    apply (proj2 (Hkeys (f_chunk_id r))). right. now exists r, plain.
  - assert (Hne : dc <> []) by (rewrite Edc; discriminate).
    rewrite <- Edc in *. clear Edc.
    destruct (RetrievalProps.hybrid_retrieve_spec s record query_text
                query_embedding dc top_k None Hnd)
      as (hits & Hhr & Hnodup & Hsrc).
    rewrite Hhr. cbn [bind].
    exists (Hits hits). split; [reflexivity|]. split.
    + split; [discriminate|]. intros Hnone. exfalso.
      destruct dc as [|[k v] dc]; [contradiction|].
      destruct (proj1 (Hkeys k)) as [[]|(r & plain & Hin & _ & Hd)];
        [now left|].
      exact (Hnone r plain Hin Hd).
    + intros hits' [= <-]. split; [exact Hnodup|].
      eapply Forall_impl; [|exact Hsrc].
      intros c Hc. unfold Retrieval.text_source in Hc.
      destruct (dict_get (Retrieval.chunk_id c) dc) as [[plain info]|] eqn:E.
      * left. injection Hc as Hdoc Hmeta.
        destruct (Hget _ _ _ E) as [H0|(r & Hin & Hid & Hd & Hi)];
          [discriminate|].
        exists r. rewrite Hdoc, Hmeta. auto.
      * right. split; [|exact Hc].
        intros r plain Hin Hid Hd. apply dict_get_None in E. apply E.
        apply Hkeys. right. now exists r, plain.
Qed.
End Retrieval.

Lemma decrypted_chunks_are_the_decryptable_rows_witness :
  exists dc,
    decrypt_chunks (dec := prefix_decryption) "key" example_rows [] = Ok dc /\
    dict_keys dc = ["c1"%string].
Proof.
  destruct (decrypted_chunks_are_the_decryptable_rows
              (dec := prefix_decryption) "key" example_rows)
    as (dc & Hrun & _).
  - repeat constructor.
  - exists dc. split; [exact Hrun|].
    cbv in Hrun. injection Hrun as <-. reflexivity.
Defined.

Lemma retrieve_hits_sources_witness :
  exists res,
    retrieve_hits (dec := prefix_decryption) (re := Retrieval.ascii_regex)
      (num := VectorDb.approx_numeric) VectorDb.example_store "rec_1" "key"
      example_rows "quick fox" [1%Q; 0%Q] 5 = Ok res /\
    (res = NoDocuments <->
     forall r plain, In r example_rows ->
                     ~ decrypts_to (dec := prefix_decryption) "key" r plain).
Proof.
  destruct (retrieve_hits_sources (dec := prefix_decryption)
              (re := Retrieval.ascii_regex) (num := VectorDb.approx_numeric)
              VectorDb.example_store "rec_1" "key" example_rows "quick fox"
              [1%Q; 0%Q] 5)
    as (res & Hrun & Hiff & _).
  - repeat constructor.
  - exists res. split; [exact Hrun | exact Hiff].
Defined.

End RagProps.

(** ** Rebuilding the index of a record *)

Module RecordsProps.
Import Records PyProps.

Lemma metas_for_same_length (metas : list VectorDb.metadata) (n : nat) :
  List.length metas = n -> VectorDb.metas_for (Some metas) n = metas.
Proof.
  intros H. destruct metas as [|m metas]; [|reflexivity].
  cbn in H. subst n. reflexivity.
Qed.

Section WithCollaborators.
Context {ext : Collaborators}.

(** The loop in closed form. *)
Lemma decrypt_rows_spec (user_key : string) :
  forall rows ids texts metas,
    Forall (decrypts_or_skips user_key) rows ->
    decrypt_rows user_key rows ids texts metas
    = Ok (ids ++ map (fun p => j_chunk_id (fst p)) (decryptable user_key rows),
          texts ++ map snd (decryptable user_key rows),
          metas ++ map (fun p => row_metadata (fst p))
                     (decryptable user_key rows)).
Proof.
  induction rows as [|row rows IH]; intros ids texts metas Hall.
  - cbn. now rewrite !app_nil_r.
  - inversion Hall as [|? ? Hr Hall']; subst.
    cbn [decrypt_rows]. unfold decryptable. cbn [flat_map].
    fold (decryptable user_key rows). unfold decrypts_or_skips in Hr.
    destruct (decrypt_text_with_user_key user_key (j_encrypted_text row))
      as [plain|e|]; [| |contradiction].
    + rewrite IH by assumption. cbn [app map fst snd].
      now rewrite <- !app_assoc.
    + rewrite Hr. cbn [app]. now apply IH.
Qed.

Lemma decryptable_ids_NoDup (user_key : string) (rows : list joined_row) :
  NoDup (map j_chunk_id rows) ->
  NoDup (map (fun p => j_chunk_id (fst p)) (decryptable user_key rows)).
Proof.
  induction rows as [|row rows IH]; intros H; [constructor|].
  inversion H as [|? ? Hnotin Hnd]; subst.
  unfold decryptable. cbn [flat_map]. fold (decryptable user_key rows).
  destruct (decrypt_text_with_user_key user_key (j_encrypted_text row));
    cbn [app map fst]; auto.
  constructor; [|auto]. intros Hin. apply Hnotin.
  apply in_map_iff in Hin as ([r p] & Hid & Hin). cbn [fst] in Hid.
  apply in_flat_map in Hin as (r' & Hr' & Hin).
  destruct (decrypt_text_with_user_key user_key (j_encrypted_text r'));
    try contradiction.
  destruct Hin as [[= -> ->]|[]]. rewrite <- Hid. now apply in_map.
Qed.

Lemma rows_of_new_rows record es ds metas :
  forall ids i,
    VectorDb.rows_of record (VectorDb.new_rows record i ids es ds metas)
    = VectorDb.new_rows record i ids es ds metas.
Proof.
  unfold VectorDb.rows_of.
  induction ids as [|vid ids IH]; intros i; [reflexivity|].
  cbn [VectorDb.new_rows filter VectorDb.record_id].
  now rewrite String.eqb_refl, IH.
Qed.

Lemma rows_of_filter record (p : VectorDb.row -> bool) (s : VectorDb.store) :
  VectorDb.rows_of record (filter p s) = filter p (VectorDb.rows_of record s).
Proof.
  unfold VectorDb.rows_of. induction s as [|r s IH]; [reflexivity|].
  cbn [filter]. destruct (p r) eqn:Ep;
    destruct (String.eqb (VectorDb.record_id r) record) eqn:Er;
    cbn [filter]; rewrite ?Ep, ?Er, IH; reflexivity.
Qed.

Lemma rows_of_app record (a b : VectorDb.store) :
  VectorDb.rows_of record (a ++ b)
  = VectorDb.rows_of record a ++ VectorDb.rows_of record b.
Proof. unfold VectorDb.rows_of. apply filter_app. Qed.

Lemma rows_of_new_rows_other record other es ds metas :
  other <> record ->
  forall ids i,
    VectorDb.rows_of other (VectorDb.new_rows record i ids es ds metas) = [].
Proof.
  intros Hne. unfold VectorDb.rows_of.
  induction ids as [|vid ids IH]; intros i; [reflexivity|].
  cbn [VectorDb.new_rows filter VectorDb.record_id].
  replace (String.eqb record other) with false
    by (symmetry; apply String.eqb_neq; congruence).
  apply IH.
Qed.

(** X26.  A reindex that goes through: the key is unwrapped, the
    chunk rows are fetched (their ids distinct), no decryption does
    worse than raise an [Exception], and the gateway returns an
    embedding for each decrypted text.  Then the task returns
    normally and the collection of the record holds exactly one vector
    per row that decrypts, in the order fetched, with the id of the
    row, its decrypted text in the clear and its metadata; rows that
    do not decrypt are left out.  Another collection keeps its rows,
    but for those whose id one of the new rows took. *)
Theorem reindex_rebuilds_collection
    (record encrypted_master_key user_key : string)
    (rows : list joined_row) (embeddings : list (list Q))
    (s : VectorDb.store) :
  decrypt_master_key encrypted_master_key = Ok user_key ->
  fetch_chunks record = Ok rows ->
  NoDup (map j_chunk_id rows) ->
  Forall (decrypts_or_skips user_key) rows ->
  get_embeddings (map snd (decryptable user_key rows)) = Ok embeddings ->
  (List.length (decryptable user_key rows) <= List.length embeddings)%nat ->
  exists s',
    _reindex_record_task record encrypted_master_key s = (Ok tt, s') /\
    VectorDb.rows_of record s'
    = VectorDb.new_rows record 0
        (map (fun p => j_chunk_id (fst p)) (decryptable user_key rows))
        embeddings (map snd (decryptable user_key rows))
        (map (fun p => row_metadata (fst p)) (decryptable user_key rows)) /\
    forall other, other <> record ->
      VectorDb.rows_of other s'
      = filter (fun r =>
                  negb (existsb (String.eqb (VectorDb.id r))
                          (map (fun p => j_chunk_id (fst p))
                             (decryptable user_key rows))))
          (VectorDb.rows_of other s).
Proof.
  intros Hkey Hfetch Hnd Hall Hemb Hlen.
  set (ids := map (fun p => j_chunk_id (fst p)) (decryptable user_key rows)).
  set (texts := map snd (decryptable user_key rows)) in *.
  set (metas := map (fun p => row_metadata (fst p))
                  (decryptable user_key rows)).
  set (s1 := VectorDb.delete_collection record s).
  assert (Hrun : reindex_steps record encrypted_master_key s
                 = (Ok tt,
                    filter (fun r =>
                              negb (existsb (String.eqb (VectorDb.id r)) ids))
                      s1
                    ++ VectorDb.new_rows record 0 ids embeddings texts metas)).
  { unfold reindex_steps. rewrite Hkey, Hfetch. fold s1.
    destruct rows as [|row rows].
    - cbn. now rewrite VectorDbProps.filter_keep_all, app_nil_r.
    - rewrite (decrypt_rows_spec user_key (row :: rows) [] [] [] Hall).
      cbn [app]. fold ids texts metas. rewrite Hemb.
      rewrite VectorDbProps.add_vectors_spec.
      + now rewrite metas_for_same_length
          by (unfold metas, ids; now rewrite !length_map).
      + now apply decryptable_ids_NoDup.
      + unfold ids. now rewrite length_map.
      + rewrite metas_for_same_length
          by (unfold metas, ids; now rewrite !length_map).
        unfold metas, ids. now rewrite !length_map. }
  eexists. split; [unfold _reindex_record_task; now rewrite Hrun|]. split.
  - rewrite rows_of_app, rows_of_filter, rows_of_new_rows.
    unfold s1. now rewrite VectorDbProps.rows_of_delete_same.
  - intros other Hne.
    rewrite rows_of_app, rows_of_filter, rows_of_new_rows_other by assumption.
    unfold s1.
    now rewrite VectorDbProps.rows_of_delete_other, app_nil_r by assumption.
Qed.

(** X27.  A reindex that fails fails silently, and after the old
    vectors are gone: when the query on the database, or the
    embedding gateway, raises an [Exception], the task returns
    normally, and the store it leaves is the one without the
    collection of the record: no vector of the record is left. *)
Theorem reindex_failure_empties_collection
    (record encrypted_master_key user_key : string)
    (e : py_exception) (s : VectorDb.store) :
  decrypt_master_key encrypted_master_key = Ok user_key ->
  fetch_chunks record = Raise e \/
  (exists rows,
      fetch_chunks record = Ok rows /\ rows <> [] /\
      Forall (decrypts_or_skips user_key) rows /\
      get_embeddings (map snd (decryptable user_key rows)) = Raise e) ->
  is_Exception e = true ->
  _reindex_record_task record encrypted_master_key s
  = (Ok tt, VectorDb.delete_collection record s) /\
  VectorDb.rows_of record (VectorDb.delete_collection record s) = [].
Proof.
  intros Hkey Hfail Hexc.
  split; [|apply VectorDbProps.rows_of_delete_same].
  unfold _reindex_record_task, reindex_steps. rewrite Hkey.
  destruct Hfail as [Hfetch|(rows & Hfetch & Hne & Hall & Hemb)];
    rewrite Hfetch.
  - now rewrite Hexc.
  - destruct rows as [|row rows]; [contradiction|].
    rewrite (decrypt_rows_spec user_key (row :: rows) [] [] [] Hall).
    cbn [app]. rewrite Hemb. now rewrite Hexc.
Qed.
End WithCollaborators.

Lemma reindex_rebuilds_collection_witness :
  exists s',
    _reindex_record_task (ext := reindex_working) "rec_1" "wrapped"
      VectorDb.example_store = (Ok tt, s') /\
    map VectorDb.id (VectorDb.rows_of "rec_1" s') = ["c1"%string] /\
    map VectorDb.id (VectorDb.rows_of "rec_2" s') = ["d1"%string].
Proof.
  destruct (reindex_rebuilds_collection (ext := reindex_working)
              "rec_1" "wrapped" "key" example_rows [[1%Q; 0%Q]]
              VectorDb.example_store)
    as (s' & Hrun & Hrec & Hother); try reflexivity.
  - repeat constructor; simpl; intuition discriminate.
  - repeat constructor.
  - exists s'. split; [exact Hrun|]. split.
    + rewrite Hrec. reflexivity.
    + rewrite (Hother "rec_2"%string) by discriminate. reflexivity.
Defined.

Lemma reindex_failure_empties_collection_witness :
  _reindex_record_task (ext := reindex_gateway_fails) "rec_1" "wrapped"
    VectorDb.example_store
  = (Ok tt, VectorDb.delete_collection "rec_1" VectorDb.example_store) /\
  VectorDb.collection_count "rec_1"
    (VectorDb.delete_collection "rec_1" VectorDb.example_store) = 0.
Proof.
  destruct (reindex_failure_empties_collection (ext := reindex_gateway_fails)
              "rec_1" "wrapped" "key"
              (Exc "ConnectError" "gateway unreachable")
              VectorDb.example_store eq_refl)
    as [Hrun Hrows]; [|reflexivity|].
  - right. exists example_rows. split; [reflexivity|].
    split; [discriminate|]. split; [repeat constructor | reflexivity].
  - split; [exact Hrun | reflexivity].
Defined.

End RecordsProps.
